(** * SAC test-fixture generator: model of [generate_test_sac.py]

    The script synthesises int16 mask patterns and serialises a pair of
    them into the SAC v1 container.  This development embeds the encoder
    ([build_sac]), the three pattern generators and the entry point, and
    proves the properties the specification states about them. *)

From Stdlib Require Import String Ascii Strings.Byte DecimalString.
From Stdlib Require Import ZArith List Lia Bool.
From Stdlib Require Import QArith Qround Qabs Qpower Qreduction Lqa.
From Stdlib Require Import Floats Uint63.
Import ListNotations.
Local Open Scope Z_scope.

(** ** Bytes and little-endian integers *)

Module Bytes.

Definition bytes := list byte.

(** Python's [len], as an integer. *)
Definition len {A : Type} (l : list A) : Z := Z.of_nat (length l).

Definition byte_to_Z (b : byte) : Z := Z.of_N (Byte.to_N b).

Definition byte_of_Z (z : Z) : byte :=
  match Byte.of_N (Z.to_N (z mod 256)) with
  | Some b => b
  | None => x00
  end.

(** [n] bytes of [z], least significant first (two's complement for a
    negative [z]). *)
Fixpoint le_bytes (n : nat) (z : Z) : bytes :=
  match n with
  | O => []
  | S n' => byte_of_Z z :: le_bytes n' (z / 256)
  end.

(** The unsigned value of a little-endian byte string. *)
Fixpoint le_value (bs : bytes) : Z :=
  match bs with
  | [] => 0
  | b :: rest => byte_to_Z b + 256 * le_value rest
  end.

End Bytes.

Export Bytes.

(** ** Exceptions

    The functions of the script either return a value or raise; the two
    exceptions that [build_sac] can raise are kept apart. *)

Inductive exn : Type :=
| AssertionError (msg : string)
| StructError.

Inductive result (A : Type) : Type :=
| Ok (x : A)
| Raise (e : exn).
Arguments Ok {A} x.
Arguments Raise {A} e.

Definition bind {A B : Type} (r : result A) (k : A -> result B) : result B :=
  match r with
  | Ok x => k x
  | Raise e => Raise e
  end.

Notation "x <- r ;; k" := (bind r (fun x => k))
  (at level 61, r at next level, right associativity).
Notation "r ;;; k" := (bind r (fun _ => k))
  (at level 61, right associativity).

(** [assert cond, msg], with assertions enabled (the interpreter is not
    run with [-O]). *)
Definition assert_ (cond : bool) (msg : string) : result unit :=
  if cond then Ok tt else Raise (AssertionError msg).

(** ** [struct.pack] for the format characters the script uses

    With the [<] prefix there is no alignment padding; [s] copies a byte
    string into a field of the given width (truncating or zero-padding),
    [B] and [I] are unsigned 8- and 32-bit integers, and an integer
    outside the field's range is a [struct.error]. *)

Module Struct.

Inductive fmt : Type :=
| Fs (n : nat)
| FB
| FI.

Inductive arg : Type :=
| ABytes (b : bytes)
| AInt (z : Z).

Definition pack_s (n : nat) (b : bytes) : bytes :=
  firstn n b ++ repeat x00 (n - length b).

Definition pack_uint (n : nat) (z : Z) : option bytes :=
  if (0 <=? z) && (z <? 256 ^ Z.of_nat n) then Some (le_bytes n z) else None.

Definition pack_one (f : fmt) (v : arg) : option bytes :=
  match f, v with
  | Fs n, ABytes b => Some (pack_s n b)
  | FB, AInt z => pack_uint 1 z
  | FI, AInt z => pack_uint 4 z
  | _, _ => None
  end.

Fixpoint pack (fs : list fmt) (vs : list arg) : option bytes :=
  match fs, vs with
  | [], [] => Some []
  | f :: fs', v :: vs' =>
      match pack_one f v, pack fs' vs' with
      | Some x, Some y => Some (x ++ y)
      | _, _ => None
      end
  | _, _ => None
  end.

(** [struct.pack], raising [struct.error] where [pack] has no result. *)
Definition struct_pack (fs : list fmt) (vs : list arg) : result bytes :=
  match pack fs vs with
  | Some b => Ok b
  | None => Raise StructError
  end.

End Struct.

(** ** Arrays

    An [ndarray] is seen through what [build_sac] observes of it: its
    elements in logical row-major (C) order and whether its memory layout
    is C-contiguous.  Elements are integers of the array's own integer
    dtype.  A two-dimensional array, as the generators build them, is a list
    of rows. *)

Record ndarray : Type := mk_ndarray {
  items : list Z;
  c_contiguous : bool
}.

Definition matrix (A : Type) := list (list A).

(** [a.size] *)
Definition size (a : ndarray) : Z := len (items a).

(** The int16 that the C cast of an integer yields: wrap-around modulo 2^16. *)
Definition wrap_i16 (z : Z) : Z := (z + 32768) mod 65536 - 32768.

(** [np.asarray(x, dtype=np.int16)] *)
Definition asarray_i16 (x : ndarray) : ndarray :=
  mk_ndarray (map wrap_i16 (items x)) (c_contiguous x).

(** [np.ascontiguousarray(x)] *)
Definition ascontiguousarray (x : ndarray) : ndarray :=
  mk_ndarray (items x) true.

(** [x.tobytes(order='C')] of an int16 array: two little-endian bytes per
    element, elements in row-major order. *)
Definition tobytes (x : ndarray) : bytes := flat_map (le_bytes 2) (items x).

(** [m.ravel()] of a two-dimensional C-ordered array. *)
Definition ravel (m : matrix Z) : ndarray := mk_ndarray (concat m) true.

(** ** The encoder *)

Definition SAC_MAGIC : bytes := ["S"; "A"; "C"; "1"]%byte.
Definition DTYPE_INT16 : Z := 1.

Definition to_c_contiguous_i16 (x : ndarray) : ndarray :=
  let x := asarray_i16 x in
  if negb (c_contiguous x) then ascontiguousarray x else x.

(** Python truth value of an integer. *)
Definition truthy (z : Z) : bool := negb (z =? 0).

(** The format string ['<4sBBBBIIII']. *)
Definition header_fmt : list Struct.fmt :=
  [Struct.Fs 4; Struct.FB; Struct.FB; Struct.FB; Struct.FB;
   Struct.FI; Struct.FI; Struct.FI; Struct.FI].

Definition build_sac (a b : ndarray) (width height : Z) : result bytes :=
  let a := to_c_contiguous_i16 a in
  let b := to_c_contiguous_i16 b in
  let length_a := size a in
  let length_b := size b in
  (if truthy width && truthy height then
     assert_ (length_a =? width * height) "A length != width*height" ;;;
     assert_ (length_b =? width * height) "B length != width*height"
   else Ok tt) ;;;
  header <- Struct.struct_pack header_fmt
              [Struct.ABytes SAC_MAGIC;
               Struct.AInt 0;
               Struct.AInt DTYPE_INT16;
               Struct.AInt 2;
               Struct.AInt 0;
               Struct.AInt length_a;
               Struct.AInt length_b;
               Struct.AInt width;
               Struct.AInt height] ;;
  Ok (header ++ tobytes a ++ tobytes b).

(** The header alone, as [build_sac] packs it: the same call of
    [struct.pack], named for the statements about the header. *)
Definition sac_header (length_a length_b width height : Z) : result bytes :=
  Struct.struct_pack header_fmt
    [Struct.ABytes SAC_MAGIC;
     Struct.AInt 0;
     Struct.AInt DTYPE_INT16;
     Struct.AInt 2;
     Struct.AInt 0;
     Struct.AInt length_a;
     Struct.AInt length_b;
     Struct.AInt width;
     Struct.AInt height].

(** ** Two-dimensional arrays and element-wise operations

    The index grids hold int64 values; the indices of an array that fits
    in memory, and what the generators compute from them, stay far from
    the bounds of int64, so integer arithmetic is that of [Z]. *)

(** [range(n)] *)
Definition range (n : Z) : list Z := map Z.of_nat (seq 0 (Z.to_nat n)).

(** [np.mgrid[0:height, 0:width]]: the pair [(y, x)] of index grids. *)
Definition mgrid (height width : Z) : matrix Z * matrix Z :=
  (map (fun i => map (fun _ => i) (range width)) (range height),
   map (fun _ => range width) (range height)).

(** An element-wise operation on one array, and on two arrays of one
    shape. *)
Definition mat_map {A B : Type} (f : A -> B) (m : matrix A) : matrix B :=
  map (map f) m.

Definition zip_with {A B C : Type} (f : A -> B -> C)
  (l1 : list A) (l2 : list B) : list C :=
  map (fun p => f (fst p) (snd p)) (combine l1 l2).

Definition mat_map2 {A B C : Type} (f : A -> B -> C)
  (m1 : matrix A) (m2 : matrix B) : matrix C :=
  zip_with (zip_with f) m1 m2.

(** [m.astype(np.int16)] of an integer array. *)
Definition astype_i16 (m : matrix Z) : matrix Z := mat_map wrap_i16 m.

(** [m[y, x]] for indices counted from 0. *)
Definition get {A : Type} (m : matrix A) (y x : Z) : option A :=
  if (0 <=? y) && (0 <=? x) then
    match nth_error m (Z.to_nat y) with
    | Some row => nth_error row (Z.to_nat x)
    | None => None
    end
  else None.

(** ** The checkerboard generator *)

Definition generate_checkerboard_mask (width height square_size : Z)
  : matrix Z * matrix Z :=
  let '(y, x) := mgrid height width in
  let checker :=
    astype_i16
      (mat_map (fun v => v mod 2 * 1000)
         (mat_map2 Z.add
            (mat_map (fun v => v / square_size) x)
            (mat_map (fun v => v / square_size) y))) in
  (checker, checker).

(** ** Binary64 arithmetic

    numpy computes the radial and gradient patterns in float64.  A finite
    float64 is a rational number, and IEEE 754 defines each operation as
    the exact result rounded to the nearest representable number, ties to
    even.  [round] is that rounding for a significand of 53 bits and a
    least exponent of -1074 (so subnormal numbers are covered); the
    operations are the exact rational operations followed by [round].
    Overflow to infinity, NaN and the sign of zero are outside this model:
    no value of the generators reaches 2^1024 for any array that fits in
    memory, and a division by zero needs a zero width or height. *)

Module Float64.

Local Open Scope Q_scope.

Abbreviation float64 := Q (only parsing).

Definition pow2 (e : Z) : Q := 2 ^ e.

(** [floor (log2 q)] of a positive rational. *)
Definition ilog2 (q : Q) : Z :=
  let k := (Z.log2 (Qnum q) - Z.log2 (Zpos (Qden q)))%Z in
  if Qle_bool (pow2 k) q then k else (k - 1)%Z.

(** The nearest integer, ties to even. *)
Definition rne (q : Q) : Z :=
  let f := Qfloor q in
  match Qcompare (q - inject_Z f) (1 # 2) with
  | Lt => f
  | Gt => (f + 1)%Z
  | Eq => if Z.even f then f else (f + 1)%Z
  end.

Definition prec : Z := 53.
Definition emin : Z := -1074.

(** The exponent of the last significand bit of the float64 nearest to a
    non-zero [q]. *)
Definition ulp_exp (q : Q) : Z := Z.max (ilog2 (Qabs q) - (prec - 1)) emin.

Definition round (q : Q) : float64 :=
  if Qeq_bool q 0 then 0
  else let e := ulp_exp q in Qred (inject_Z (rne (q / pow2 e)) * pow2 e).

(** Conversion of an integer, and the arithmetic operations. *)
Definition of_int (z : Z) : float64 := round (inject_Z z).
Definition fadd (x y : float64) : float64 := round (x + y).
Definition fsub (x y : float64) : float64 := round (x - y).
Definition fmul (x y : float64) : float64 := round (x * y).
Definition fdiv (x y : float64) : float64 := round (x / y).

(** Python's [a / b] on two integers: the quotient, correctly rounded. *)
Definition int_truediv (a b : Z) : float64 := round (inject_Z a / inject_Z b).

(** The integer nearest to the square root of [t], ties to even: with [m]
    the integer part of the root, the root lies below, on or above the
    midpoint [m + 1/2] as [t] compares with [(m + 1/2)^2]. *)
Definition rne_sqrt (t : Q) : Z :=
  let m := Z.sqrt (Qfloor t) in
  match Qcompare t (inject_Z (m * m + m) + (1 # 4)) with
  | Lt => m
  | Gt => (m + 1)%Z
  | Eq => if Z.even m then m else (m + 1)%Z
  end.

(** The correctly rounded square root.  The argument is scaled by a power
    of four that brings its root to 53 significant bits. *)
Definition fsqrt (q : float64) : float64 :=
  if Qle_bool q 0 then 0
  else
    let e := (ilog2 q / 2 - (prec - 1))%Z in
    Qred (inject_Z (rne_sqrt (q / pow2 (2 * e))) * pow2 e).

(** The integer part, rounding toward zero (a C cast to an integer). *)
Definition trunc (q : Q) : Z := if Qle_bool 0 q then Qfloor q else Qceiling q.

End Float64.

Export Float64.

(** ** The radial and gradient generators

    A cast of a float64 to an integer type truncates toward zero when the
    result fits; otherwise the C cast that numpy performs has no defined
    result.  What the platform yields then is the parameter
    [cast_out_of_range]; the bits that fit the target type are kept. *)

Section Generators.

Variable cast_out_of_range : float64 -> Z.

Definition to_i16 (v : float64) : Z :=
  let t := trunc v in
  if (-32768 <=? t) && (t <=? 32767) then t
  else wrap_i16 (cast_out_of_range v).

Definition to_u8 (v : float64) : Z :=
  let t := trunc v in
  if (0 <=? t) && (t <=? 255) then t
  else cast_out_of_range v mod 256.

Definition generate_radial_mask (width height : Z) (intensity : float64)
  : matrix Z * matrix Z :=
  let '(y, x) := mgrid height width in
  let cx := int_truediv width 2 in
  let cy := int_truediv height 2 in
  let dx := mat_map (fun v => fsub (of_int v) cx) x in
  let dy := mat_map (fun v => fsub (of_int v) cy) y in
  let dist :=
    mat_map fsqrt (mat_map2 fadd (mat_map2 fmul dx dx) (mat_map2 fmul dy dy)) in
  let max_dist := fsqrt (fadd (fmul cx cx) (fmul cy cy)) in
  let mask_intensity :=
    mat_map to_i16
      (mat_map (fun v => fmul v intensity)
         (mat_map (fun v => fsub (of_int 1) v)
            (mat_map (fun v => fdiv v max_dist) dist))) in
  (mask_intensity, mask_intensity).

Definition generate_gradient_mask (width height : Z) : matrix Z * matrix Z :=
  let '(y, x) := mgrid height width in
  let a :=
    mat_map to_i16
      (mat_map (fun v => fsub v (of_int 1000))
         (mat_map (fun v => fmul v (of_int 2000))
            (mat_map (fun v => fdiv (of_int v) (of_int width)) x))) in
  let b :=
    mat_map to_i16
      (mat_map (fun v => fsub v (of_int 1000))
         (mat_map (fun v => fmul v (of_int 2000))
            (mat_map (fun v => fdiv (of_int v) (of_int height)) y))) in
  (a, b).

End Generators.

(** ** The entry point

    The world [main] acts on: the lines printed, the directories created
    and the files written, latest first.  File-system operations are taken
    to succeed.  The optional imaging library is either absent or present
    with its PNG encoder. *)

Record world : Type := mk_world {
  stdout : list string;
  dirs : list string;
  files : list (string * bytes)
}.

Definition print (line : string) (w : world) : world :=
  mk_world (stdout w ++ [line]) (dirs w) (files w).

(** [Path.mkdir(exist_ok=True)] *)
Definition mkdir_exist_ok (d : string) (w : world) : world :=
  if existsb (String.eqb d) (dirs w) then w
  else mk_world (stdout w) (d :: dirs w) (files w).

(** [open(path, 'wb')] followed by [write]. *)
Definition write_file (path : string) (content : bytes) (w : world) : world :=
  mk_world (stdout w) (dirs w) ((path, content) :: files w).

Fixpoint lookup_file (path : string) (fs : list (string * bytes))
  : option bytes :=
  match fs with
  | [] => None
  | (p, c) :: rest => if String.eqb path p then Some c else lookup_file path rest
  end.

Definition read_file (path : string) (w : world) : option bytes :=
  lookup_file path (files w).

(** How a run ends: normally, or with an uncaught exception; either way
    with the world as the run left it. *)
Inductive outcome : Type :=
| Finished (w : world)
| Aborted (e : exn) (w : world).

(** [str(n)] and the newline character. *)
Definition str (n : Z) : string := NilZero.string_of_int (Z.to_int n).
Definition newline : string := String "010"%char EmptyString.

Definition rgb : Type := Z * Z * Z.

Section Main.

Variable cast_out_of_range : float64 -> Z.

(** [Image.fromarray(img, 'RGB')] and [save], when PIL can be imported. *)
Variable PIL : option (matrix rgb -> bytes).

Local Open Scope string_scope.

(** The body of the loop over [patterns.items()]. *)
Fixpoint write_patterns (patterns : list (string * (matrix Z * matrix Z)))
  (width height : Z) (output_dir : string) (w : world) : outcome :=
  match patterns with
  | [] => Finished w
  | (name, (a, b)) :: rest =>
      match build_sac (ravel a) (ravel b) width height with
      | Raise e => Aborted e w
      | Ok sac_bytes =>
          let output_path := output_dir ++ "/test_mask_" ++ name ++ ".sac" in
          let w := write_file output_path sac_bytes w in
          let w :=
            print ("✓ Created " ++ output_path ++ " (" ++ str (len sac_bytes)
                   ++ " bytes, " ++ str width ++ "x" ++ str height ++ ")") w in
          write_patterns rest width height output_dir w
      end
  end.

(** The RGB gradient image of the [try] block. *)
Definition test_image (width height : Z) : matrix rgb :=
  let '(y, x) := mgrid height width in
  let r :=
    mat_map (to_u8 cast_out_of_range)
      (mat_map (fun v => fmul v (of_int 255))
         (mat_map (fun v => fdiv (of_int v) (of_int width)) x)) in
  let g :=
    mat_map (to_u8 cast_out_of_range)
      (mat_map (fun v => fmul v (of_int 255))
         (mat_map (fun v => fdiv (of_int v) (of_int height)) y)) in
  let b :=
    mat_map (to_u8 cast_out_of_range)
      (mat_map (fun v => fmul v (of_int 255))
         (mat_map (fun v => fdiv (of_int v) (of_int (width + height)))
            (mat_map2 Z.add x y))) in
  mat_map2 (fun rv gb => (rv, fst gb, snd gb)) r (mat_map2 pair g b).

(** The optional image step: the [try] block, and the handler of the
    [ImportError] that [from PIL import Image] raises when PIL is absent. *)
Definition save_test_image (width height : Z) (output_dir : string)
  (w : world) : world :=
  match PIL with
  | Some save_png =>
      let img := test_image width height in
      let img_path := output_dir ++ "/test_image.png" in
      let w := write_file img_path (save_png img) w in
      print ("✓ Created " ++ img_path ++ " (" ++ str width ++ "x"
             ++ str height ++ ")") w
  | None =>
      let w := print "⚠ PIL not available, skipping test image generation" w in
      print "  Install with: pip install Pillow" w
  end.

Definition main (w : world) : outcome :=
  let width := 400 in
  let height := 300 in
  let w := print "Generating test SAC files..." w in
  let output_dir := "test_data" in
  let w := mkdir_exist_ok output_dir w in
  let patterns :=
    [("radial", generate_radial_mask cast_out_of_range width height 1000%Q);
     ("checkerboard", generate_checkerboard_mask width height 50);
     ("gradient", generate_gradient_mask cast_out_of_range width height)] in
  match write_patterns patterns width height output_dir w
        return outcome with
  | Aborted e w' => Aborted e w'
  | Finished w' =>
      let w' := print (newline ++ "Generating test image...") w' in
      let w' := save_test_image width height output_dir w' in
      let w' := print (newline ++ "Test files ready in ./test_data/") w' in
      let w' :=
        print "Upload test_image.png and any test_mask_*.sac to the test page!"
          w' in
      Finished w'
  end.

End Main.

(** ** Vocabulary of the statements *)

(** The range of an unsigned 32-bit field. *)
Definition u32 (z : Z) : Prop := 0 <= z < 2 ^ 32.

(** The range of a signed 16-bit element. *)
Definition i16 (z : Z) : Prop := -32768 <= z < 32768.

(** Python's [bs[i:j]]. *)
Definition slice {A : Type} (i j : nat) (l : list A) : list A :=
  firstn (j - i) (skipn i l).

(** The 24 bytes a header with in-range fields consists of. *)
Definition header_bytes (la lb w h : Z) : bytes :=
  SAC_MAGIC ++ [x00; x01; x02; x00]
    ++ le_bytes 4 la ++ le_bytes 4 lb ++ le_bytes 4 w ++ le_bytes 4 h.

(** The bytes of an array after the encoder's coercion. *)
Definition payload (a : ndarray) : bytes := tobytes (to_c_contiguous_i16 a).

(** The guard [width and height] of the length check. *)
Definition length_checked (width height : Z) : bool :=
  truthy width && truthy height.

(** An array of [n] zeros, [np.zeros(n, dtype=np.int16)]. *)
Definition zeros (n : Z) : ndarray := mk_ndarray (repeat 0 (Z.to_nat n)) true.

(** ** Reference decoder

    The repository has no decoder.  This one follows the specification's
    description of a hand-written reference decoder: read the two length
    fields of the header, then read that many little-endian signed 16-bit
    values from the bytes that follow the header, first for A, then for B. *)

Definition i16_of_bytes (lo hi : byte) : Z :=
  let u := le_value [lo; hi] in
  if u <? 32768 then u else u - 65536.

Fixpoint read_i16s (n : nat) (bs : bytes) : option (list Z * bytes) :=
  match n with
  | O => Some ([], bs)
  | S n' =>
      match bs with
      | lo :: hi :: rest =>
          match read_i16s n' rest with
          | Some (vs, rest') => Some (i16_of_bytes lo hi :: vs, rest')
          | None => None
          end
      | _ => None
      end
  end.

Definition ref_decode (bs : bytes) : option (list Z * list Z) :=
  let length_a := le_value (slice 8 12 bs) in
  let length_b := le_value (slice 12 16 bs) in
  match read_i16s (Z.to_nat length_a) (skipn 24 bs) with
  | Some (a, rest) =>
      match read_i16s (Z.to_nat length_b) rest with
      | Some (b, _) => Some (a, b)
      | None => None
      end
  | None => None
  end.

(** The checkerboard's value at pixel (x, y), as the specification writes
    it: [((x // square_size + y // square_size) % 2) * 1000]. *)
Definition checker_value (square_size x y : Z) : Z :=
  (x / square_size + y / square_size) mod 2 * 1000.

(** The array whose element at row [y], column [x] is [f y x]. *)
Definition tabulate {A : Type} (height width : Z) (f : Z -> Z -> A)
  : matrix A :=
  map (fun y => map (fun x => f y x) (range width)) (range height).

(** The value of the gradient before the cast, at index [n] along an axis
    of [extent] pixels: [(n / extent) * 2000 - 1000] in float64. *)
Definition gradient_ramp (n extent : Z) : float64 :=
  fsub (fmul (fdiv (of_int n) (of_int extent)) (of_int 2000)) (of_int 1000).

(** The same expression in exact arithmetic. *)
Definition exact_ramp (n extent : Z) : Q :=
  (inject_Z n / inject_Z extent * 2000 - 1000)%Q.

(** The distance of pixel (x, y) from the centre, the distance [max_dist]
    and the value of the radial pattern before the cast, in float64. *)
Definition radial_dist (width height x y : Z) : float64 :=
  let dx := fsub (of_int x) (int_truediv width 2) in
  let dy := fsub (of_int y) (int_truediv height 2) in
  fsqrt (fadd (fmul dx dx) (fmul dy dy)).

Definition radial_max_dist (width height : Z) : float64 :=
  let cx := int_truediv width 2 in
  let cy := int_truediv height 2 in
  fsqrt (fadd (fmul cx cx) (fmul cy cy)).

Definition radial_value (width height : Z) (intensity : float64) (x y : Z)
  : float64 :=
  fmul (fsub (of_int 1)
          (fdiv (radial_dist width height x y) (radial_max_dist width height)))
       intensity.

(** A ramp along one axis of [n_along] pixels, the other axis having
    [n_across] pixels; [value i j] is the element at index [i] along and
    [j] across.  In turn: the element is the integer part of the float64
    ramp; it is -1000 at index 0; it does not decrease along the axis; it
    is constant across; it lies between -1000 and 1000; it is within 1
    (plus the rounding error, below 2^-39) of the exact value of the
    expression; and the last element is at least 0 when there are two
    pixels or more. *)
Definition is_ramp (value : Z -> Z -> option Z) (n_along n_across : Z) : Prop :=
  (forall i j, 0 <= i < n_along -> 0 <= j < n_across ->
     value i j = Some (trunc (gradient_ramp i n_along)))
  /\ (forall j, 0 <= j < n_across -> value 0 j = Some (-1000))
  /\ (forall i1 i2 j v1 v2, i1 <= i2 ->
        value i1 j = Some v1 -> value i2 j = Some v2 -> v1 <= v2)
  /\ (forall i j1 j2, 0 <= j1 < n_across -> 0 <= j2 < n_across ->
        value i j1 = value i j2)
  /\ (forall i j v, value i j = Some v -> -1000 <= v <= 1000)
  /\ (forall i j v, value i j = Some v ->
        (exact_ramp i n_along - 1 - pow2 (-39) < inject_Z v)%Q
        /\ (inject_Z v < exact_ramp i n_along + 1 + pow2 (-39))%Q)
  /\ (2 <= n_along -> forall j, 0 <= j < n_across ->
        exists v, value (n_along - 1) j = Some v /\ 0 <= v).

(** One platform's out-of-range cast, used in the examples: the conversion
    goes through a 32-bit integer, as on x86-64, where a value that does
    not fit 32 bits gives the "integer indefinite" value [-2^31]. *)
Definition cast_via_int32 (v : float64) : Z :=
  let t := trunc v in
  if (- 2 ^ 31 <=? t) && (t <? 2 ^ 31) then t else - 2 ^ 31.

(** ** The same expressions on the kernel's binary64 numbers

    Rocq's primitive floats are the machine's IEEE 754 binary64 numbers.
    The expressions of the two generators are repeated on them, to compare
    the rounding model with the hardware on the reference resolution. *)

Module Hardware.

Definition float_of_Z (z : Z) : float := PrimFloat.of_uint63 (Uint63.of_Z z).

(** The rational a finite primitive float denotes. *)
Definition Q_of_float (f : float) : option Q :=
  match Prim2SF f with
  | S754_zero _ => Some 0%Q
  | S754_finite s m e =>
      Some (Qred ((if s then - (1) else 1) * inject_Z (Zpos m) * pow2 e)%Q)
  | _ => None
  end.

Definition agrees (f : float) (q : Q) : bool :=
  match Q_of_float f with
  | Some q' => Qeq_bool q' q
  | None => false
  end.

Definition gradient_ramp (n extent : Z) : float :=
  (float_of_Z n / float_of_Z extent * float_of_Z 2000 - float_of_Z 1000)%float.

Definition radial_value (width height : Z) (intensity : float) (x y : Z)
  : float :=
  let cx := (float_of_Z width / float_of_Z 2)%float in
  let cy := (float_of_Z height / float_of_Z 2)%float in
  let dx := (float_of_Z x - cx)%float in
  let dy := (float_of_Z y - cy)%float in
  let dist := PrimFloat.sqrt (dx * dx + dy * dy)%float in
  let max_dist := PrimFloat.sqrt (cx * cx + cy * cy)%float in
  ((float_of_Z 1 - dist / max_dist) * intensity)%float.

End Hardware.

(** ** Vocabulary of the further properties *)

(** A two-dimensional array of shape [(height, width)]: [height] rows of
    [width] elements. *)
Definition has_shape {A : Type} (m : matrix A) (height width : Z) : Prop :=
  len m = height /\ Forall (fun row => len row = width) m.

(** What the loop of [main] does with a pair of patterns: [build_sac] on
    the two flattened arrays returns a file of [24 + 4 * width * height]
    bytes, and reading that file back gives the elements of both arrays,
    row by row, unchanged. *)
Definition encodes_losslessly (p : matrix Z * matrix Z) (width height : Z)
  : Prop :=
  exists bs,
    build_sac (ravel (fst p)) (ravel (snd p)) width height = Ok bs
    /\ len bs = 24 + 4 * (width * height)
    /\ ref_decode bs = Some (concat (fst p), concat (snd p)).

(** The signed 16-bit value stored in the two bytes at [offset]. *)
Definition read_i16_at (bs : bytes) (offset : nat) : option Z :=
  match slice offset (offset + 2) bs with
  | [lo; hi] => Some (i16_of_bytes lo hi)
  | _ => None
  end.

(** The value of an image channel before the cast, at index [n] along an
    extent of [extent]: [n / extent * 255] in float64. *)
Definition channel_value (n extent : Z) : float64 :=
  fmul (fdiv (of_int n) (of_int extent)) (of_int 255).

(** A world with nothing printed, no directory and no file. *)
Definition empty_world : world := mk_world [] [] [].

(** * Properties *)

(** ** Little-endian byte strings *)

Section BytesFacts.

Lemma len_app {A} (l1 l2 : list A) : len (l1 ++ l2) = len l1 + len l2.
Proof. unfold len. rewrite length_app. lia. Qed.

Lemma len_nonneg {A} (l : list A) : 0 <= len l.
Proof. unfold len. lia. Qed.

Lemma byte_to_Z_range b : 0 <= byte_to_Z b < 256.
Proof.
  unfold byte_to_Z. pose proof (Byte.to_N_bounded b) as H. lia.
Qed.

Lemma byte_to_of_Z z : byte_to_Z (byte_of_Z z) = z mod 256.
Proof.
  unfold byte_to_Z, byte_of_Z.
  assert (Hr : 0 <= z mod 256 < 256) by (apply Z.mod_pos_bound; lia).
  destruct (Byte.of_N (Z.to_N (z mod 256))) as [b|] eqn:E.
  - apply Byte.to_of_N in E. rewrite E. lia.
  - apply Byte.of_N_None_iff in E. lia.
Qed.

Lemma byte_of_to_Z b : byte_of_Z (byte_to_Z b) = b.
Proof.
  unfold byte_of_Z. rewrite Z.mod_small by apply byte_to_Z_range.
  unfold byte_to_Z. rewrite N2Z.id, Byte.of_to_N. reflexivity.
Qed.

Lemma length_le_bytes n z : length (le_bytes n z) = n.
Proof. revert z. induction n; intros; simpl; auto. Qed.

Lemma len_le_bytes n z : len (le_bytes n z) = Z.of_nat n.
Proof. unfold len. now rewrite length_le_bytes. Qed.

Lemma le_value_le_bytes n z :
  le_value (le_bytes n z) = z mod 256 ^ Z.of_nat n.
Proof.
  revert z. induction n as [|n IH]; intros z.
  - simpl. now rewrite Z.mod_1_r.
  - cbn [le_bytes le_value]. rewrite byte_to_of_Z, IH.
    rewrite Nat2Z.inj_succ, Z.pow_succ_r by lia.
    rewrite Z.rem_mul_r by lia. lia.
Qed.

Lemma le_value_le_bytes_small n z :
  0 <= z < 256 ^ Z.of_nat n -> le_value (le_bytes n z) = z.
Proof. intros H. rewrite le_value_le_bytes. now apply Z.mod_small. Qed.

Lemma le_value_range bs : 0 <= le_value bs < 256 ^ len bs.
Proof.
  induction bs as [|b bs IH].
  - simpl. unfold len. simpl. lia.
  - cbn [le_value]. unfold len in *. cbn [length].
    rewrite Nat2Z.inj_succ, Z.pow_succ_r by lia.
    pose proof (byte_to_Z_range b). lia.
Qed.

Lemma le_bytes_le_value bs : le_bytes (length bs) (le_value bs) = bs.
Proof.
  induction bs as [|b bs IH]; [reflexivity|].
  cbn [length le_bytes le_value].
  pose proof (byte_to_Z_range b) as Hb.
  assert (E1 : (byte_to_Z b + 256 * le_value bs) mod 256 = byte_to_Z b)
    by (symmetry; apply Z.mod_unique with (le_value bs); lia).
  assert (E2 : (byte_to_Z b + 256 * le_value bs) / 256 = le_value bs)
    by (symmetry; apply Z.div_unique with (byte_to_Z b); lia).
  rewrite E2, IH. f_equal.
  rewrite <- (byte_of_to_Z b) at 2. unfold byte_of_Z.
  now rewrite E1, Z.mod_small by lia.
Qed.

End BytesFacts.

(** ** The encoder's header *)

Section Header.

Lemma pack_uint_some n z :
  0 <= z < 256 ^ Z.of_nat n -> Struct.pack_uint n z = Some (le_bytes n z).
Proof.
  intros [H0 H1]. unfold Struct.pack_uint.
  apply Z.leb_le in H0. apply Z.ltb_lt in H1. now rewrite H0, H1.
Qed.

Lemma pack_uint_none n z :
  ~ 0 <= z < 256 ^ Z.of_nat n -> Struct.pack_uint n z = None.
Proof.
  intros H. unfold Struct.pack_uint.
  destruct (0 <=? z) eqn:E0; [|reflexivity].
  destruct (z <? 256 ^ Z.of_nat n) eqn:E1; [|reflexivity].
  apply Z.leb_le in E0. apply Z.ltb_lt in E1. lia.
Qed.

Lemma pack_uint_inv n z bs :
  Struct.pack_uint n z = Some bs ->
  0 <= z < 256 ^ Z.of_nat n /\ bs = le_bytes n z.
Proof.
  unfold Struct.pack_uint.
  destruct (0 <=? z) eqn:E0; [|discriminate].
  destruct (z <? 256 ^ Z.of_nat n) eqn:E1; [|discriminate].
  apply Z.leb_le in E0. apply Z.ltb_lt in E1.
  intros [= <-]. split; [lia | reflexivity].
Qed.

Lemma sac_header_ok la lb w h :
  u32 la -> u32 lb -> u32 w -> u32 h ->
  sac_header la lb w h = Ok (header_bytes la lb w h).
Proof.
  unfold u32, sac_header, Struct.struct_pack. intros Ha Hb Hw Hh.
  cbn [header_fmt Struct.pack Struct.pack_one].
  rewrite !(pack_uint_some 4) by (change (256 ^ Z.of_nat 4) with (2 ^ 32); lia).
  reflexivity.
Qed.

Lemma sac_header_inv la lb w h hd :
  sac_header la lb w h = Ok hd ->
  (u32 la /\ u32 lb /\ u32 w /\ u32 h) /\ hd = header_bytes la lb w h.
Proof.
  unfold u32, sac_header, Struct.struct_pack.
  cbn [header_fmt Struct.pack Struct.pack_one].
  change (Struct.pack_uint 1 0) with (Some [x00]).
  change (Struct.pack_uint 1 DTYPE_INT16) with (Some [x01]).
  change (Struct.pack_uint 1 2) with (Some [x02]).
  destruct (Struct.pack_uint 4 la) as [ba|] eqn:Ea;
    [apply pack_uint_inv in Ea as [Ra ->]|discriminate].
  destruct (Struct.pack_uint 4 lb) as [bb|] eqn:Eb;
    [apply pack_uint_inv in Eb as [Rb ->]|discriminate].
  destruct (Struct.pack_uint 4 w) as [bw|] eqn:Ew;
    [apply pack_uint_inv in Ew as [Rw ->]|discriminate].
  destruct (Struct.pack_uint 4 h) as [bh|] eqn:Eh;
    [apply pack_uint_inv in Eh as [Rh ->]|discriminate].
  change (256 ^ Z.of_nat 4) with (2 ^ 32) in *.
  intros [= <-]. repeat split; try lia.
Qed.

Lemma sac_header_error la lb w h :
  ~ (u32 la /\ u32 lb /\ u32 w /\ u32 h) ->
  sac_header la lb w h = Raise StructError.
Proof.
  intros H. destruct (sac_header la lb w h) as [hd|e] eqn:E.
  - apply sac_header_inv in E as [R _]. contradiction.
  - revert E. unfold sac_header, Struct.struct_pack.
    destruct (Struct.pack _ _); congruence.
Qed.

Lemma sac_header_inv_error la lb w h e :
  sac_header la lb w h = Raise e -> e = StructError.
Proof.
  unfold sac_header, Struct.struct_pack.
  destruct (Struct.pack _ _); congruence.
Qed.

Lemma len_header_bytes la lb w h : len (header_bytes la lb w h) = 24.
Proof.
  unfold header_bytes. rewrite !len_app, !len_le_bytes. reflexivity.
Qed.

End Header.

(** ** The encoder, case by case *)

Section Encoder.

Lemma items_to_c_contiguous_i16 a :
  items (to_c_contiguous_i16 a) = map wrap_i16 (items a).
Proof.
  unfold to_c_contiguous_i16.
  destruct (negb (c_contiguous (asarray_i16 a))); reflexivity.
Qed.

Lemma size_to_c_contiguous_i16 a : size (to_c_contiguous_i16 a) = size a.
Proof.
  unfold size, len. now rewrite items_to_c_contiguous_i16, length_map.
Qed.

Lemma to_c_contiguous_i16_contiguous a :
  c_contiguous (to_c_contiguous_i16 a) = true.
Proof.
  unfold to_c_contiguous_i16.
  destruct (c_contiguous (asarray_i16 a)) eqn:E; simpl; auto.
Qed.

Lemma wrap_i16_range z : i16 (wrap_i16 z).
Proof.
  unfold i16, wrap_i16.
  pose proof (Z.mod_pos_bound (z + 32768) 65536). lia.
Qed.

Lemma wrap_i16_id z : i16 z -> wrap_i16 z = z.
Proof. unfold i16, wrap_i16. intros H. rewrite Z.mod_small; lia. Qed.

Lemma len_payload a : len (payload a) = 2 * size a.
Proof.
  unfold payload, tobytes, size. rewrite items_to_c_contiguous_i16.
  induction (items a) as [|v l IH]; [reflexivity|].
  cbn [map flat_map]. rewrite len_app, len_le_bytes, IH.
  unfold len. cbn [length]. lia.
Qed.

Lemma build_sac_cases a b w h :
  build_sac a b w h =
    if length_checked w h && negb (size a =? w * h)
    then Raise (AssertionError "A length != width*height")
    else if length_checked w h && negb (size b =? w * h)
    then Raise (AssertionError "B length != width*height")
    else hd <- sac_header (size a) (size b) w h ;;
         Ok (hd ++ payload a ++ payload b).
Proof.
  unfold build_sac, length_checked. rewrite !size_to_c_contiguous_i16.
  fold (sac_header (size a) (size b) w h). fold (payload a) (payload b).
  destruct (truthy w && truthy h); [|reflexivity].
  destruct (size a =? w * h); [|reflexivity].
  destruct (size b =? w * h); reflexivity.
Qed.

Lemma length_checked_true w h : length_checked w h = true <-> w <> 0 /\ h <> 0.
Proof.
  unfold length_checked, truthy.
  rewrite andb_true_iff, !negb_true_iff, !Z.eqb_neq. tauto.
Qed.

Lemma length_checked_false w h : length_checked w h = false <-> w = 0 \/ h = 0.
Proof.
  unfold length_checked, truthy.
  rewrite andb_false_iff, !negb_false_iff, !Z.eqb_eq. tauto.
Qed.

(** What a normal return tells. *)
Lemma build_sac_ok_inv a b w h bs :
  build_sac a b w h = Ok bs ->
  (w <> 0 -> h <> 0 -> size a = w * h /\ size b = w * h)
  /\ (u32 (size a) /\ u32 (size b) /\ u32 w /\ u32 h)
  /\ bs = header_bytes (size a) (size b) w h ++ payload a ++ payload b.
Proof.
  rewrite build_sac_cases.
  destruct (length_checked w h) eqn:C; cbn [andb].
  - destruct (size a =? w * h) eqn:Ea; cbn [negb]; [|discriminate].
    destruct (size b =? w * h) eqn:Eb; cbn [negb]; [|discriminate].
    apply Z.eqb_eq in Ea, Eb.
    destruct (sac_header (size a) (size b) w h) as [hd|e] eqn:E;
      cbn [bind]; [|discriminate].
    apply sac_header_inv in E as [R ->]. intros [= <-]. auto.
  - apply length_checked_false in C.
    destruct (sac_header (size a) (size b) w h) as [hd|e] eqn:E;
      cbn [bind]; [|discriminate].
    apply sac_header_inv in E as [R ->]. intros [= <-].
    split; [intros; lia | split; [exact R | reflexivity]].
Qed.

(** When the encoder returns. *)
Lemma build_sac_ok a b w h :
  (w <> 0 -> h <> 0 -> size a = w * h /\ size b = w * h) ->
  u32 (size a) -> u32 (size b) -> u32 w -> u32 h ->
  build_sac a b w h =
    Ok (header_bytes (size a) (size b) w h ++ payload a ++ payload b).
Proof.
  intros Hc Ra Rb Rw Rh. rewrite build_sac_cases.
  rewrite sac_header_ok by assumption. cbn [bind].
  destruct (length_checked w h) eqn:C; cbn [andb]; [|reflexivity].
  apply length_checked_true in C as [Hw Hh].
  destruct (Hc Hw Hh) as [Ea Eb].
  apply Z.eqb_eq in Ea, Eb. now rewrite Ea, Eb.
Qed.

(** When the header cannot be packed although the lengths are accepted. *)
Lemma build_sac_struct_error a b w h :
  (w <> 0 -> h <> 0 -> size a = w * h /\ size b = w * h) ->
  ~ (u32 (size a) /\ u32 (size b) /\ u32 w /\ u32 h) ->
  build_sac a b w h = Raise StructError.
Proof.
  intros Hc R. rewrite build_sac_cases.
  rewrite sac_header_error by assumption. cbn [bind].
  destruct (length_checked w h) eqn:C; cbn [andb]; [|reflexivity].
  apply length_checked_true in C as [Hw Hh].
  destruct (Hc Hw Hh) as [Ea Eb].
  apply Z.eqb_eq in Ea, Eb. now rewrite Ea, Eb.
Qed.

Lemma build_sac_assertion_iff a b w h :
  (exists msg, build_sac a b w h = Raise (AssertionError msg)) <->
  (w <> 0 /\ h <> 0) /\ (size a <> w * h \/ size b <> w * h).
Proof.
  rewrite build_sac_cases. split.
  - intros [msg H].
    destruct (length_checked w h) eqn:C; cbn [andb] in H.
    + apply length_checked_true in C. split; [exact C|].
      destruct (size a =? w * h) eqn:Ea; cbn [negb] in H;
        [|apply Z.eqb_neq in Ea; auto].
      destruct (size b =? w * h) eqn:Eb; cbn [negb] in H;
        [|apply Z.eqb_neq in Eb; auto].
      destruct (sac_header (size a) (size b) w h) as [hd|e] eqn:E;
        cbn [bind] in H; [discriminate|].
      apply sac_header_inv_error in E as ->. discriminate.
    + destruct (sac_header (size a) (size b) w h) as [hd|e] eqn:E;
        cbn [bind] in H; [discriminate|].
      apply sac_header_inv_error in E as ->. discriminate.
  - intros [C H]. apply length_checked_true in C. rewrite C. cbn [andb].
    destruct (size a =? w * h) eqn:Ea; cbn [negb]; [|eauto].
    destruct (size b =? w * h) eqn:Eb; cbn [negb]; [|eauto].
    apply Z.eqb_eq in Ea, Eb. tauto.
Qed.

End Encoder.

(** ** Layout of an encoded file *)

Section Layout.

Lemma header_bytes_layout la lb w h rest :
  let bs := header_bytes la lb w h ++ rest in
  slice 0 4 bs = SAC_MAGIC
  /\ slice 4 8 bs = [x00; x01; x02; x00]
  /\ slice 8 12 bs = le_bytes 4 la
  /\ slice 12 16 bs = le_bytes 4 lb
  /\ slice 16 20 bs = le_bytes 4 w
  /\ slice 20 24 bs = le_bytes 4 h
  /\ skipn 24 bs = rest.
Proof. repeat split; reflexivity. Qed.

Lemma le_value_u32 z : u32 z -> le_value (le_bytes 4 z) = z.
Proof.
  intros H. apply le_value_le_bytes_small.
  change (256 ^ Z.of_nat 4) with (2 ^ 32). exact H.
Qed.

Lemma i16_of_bytes_le_bytes v :
  i16 v ->
  match le_bytes 2 v with
  | [lo; hi] => i16_of_bytes lo hi = v
  | _ => False
  end.
Proof.
  intros Hv. cbn [le_bytes]. unfold i16_of_bytes.
  change [byte_of_Z v; byte_of_Z (v / 256)] with (le_bytes 2 v).
  rewrite le_value_le_bytes. change (256 ^ Z.of_nat 2) with 65536.
  unfold i16 in Hv.
  destruct (Z_lt_le_dec v 0) as [Hn|Hp].
  - assert (E : v mod 65536 = v + 65536)
      by (symmetry; apply Z.mod_unique with (-1); lia).
    rewrite E. destruct (v + 65536 <? 32768) eqn:C;
      [apply Z.ltb_lt in C|]; lia.
  - rewrite Z.mod_small by lia.
    destruct (v <? 32768) eqn:C; [|apply Z.ltb_ge in C]; lia.
Qed.

Lemma read_i16s_flat_map vs rest :
  Forall i16 vs ->
  read_i16s (length vs) (flat_map (le_bytes 2) vs ++ rest) = Some (vs, rest).
Proof.
  induction 1 as [|v vs Hv _ IH]; [reflexivity|].
  cbn [length flat_map]. rewrite <- app_assoc.
  pose proof (i16_of_bytes_le_bytes v Hv) as E.
  destruct (le_bytes 2 v) as [|lo [|hi [|x t]]]; try contradiction.
  cbn [app read_i16s]. now rewrite IH, E.
Qed.

Lemma Forall_i16_wrap l : Forall i16 (map wrap_i16 l).
Proof. apply Forall_map, Forall_forall. intros; apply wrap_i16_range. Qed.

Lemma map_wrap_i16_id l : Forall i16 l -> map wrap_i16 l = l.
Proof.
  induction 1 as [|v l Hv _ IH]; [reflexivity|].
  cbn [map]. now rewrite IH, wrap_i16_id.
Qed.

Lemma ref_decode_encoded a b w h :
  u32 (size a) -> u32 (size b) ->
  ref_decode (header_bytes (size a) (size b) w h ++ payload a ++ payload b)
  = Some (map wrap_i16 (items a), map wrap_i16 (items b)).
Proof.
  intros Ra Rb. unfold ref_decode.
  destruct (header_bytes_layout (size a) (size b) w h (payload a ++ payload b))
    as (_ & _ & -> & -> & _ & _ & ->).
  rewrite !le_value_u32 by assumption.
  unfold payload, tobytes. rewrite !items_to_c_contiguous_i16.
  assert (La : Z.to_nat (size a) = length (map wrap_i16 (items a)))
    by (unfold size, len; now rewrite Nat2Z.id, length_map).
  assert (Lb : Z.to_nat (size b) = length (map wrap_i16 (items b)))
    by (unfold size, len; now rewrite Nat2Z.id, length_map).
  rewrite La, Lb.
  rewrite read_i16s_flat_map by apply Forall_i16_wrap.
  rewrite <- (app_nil_r (flat_map _ (map wrap_i16 (items b)))).
  now rewrite read_i16s_flat_map by apply Forall_i16_wrap.
Qed.

End Layout.

(** ** The encoder: size, layout, round trip and length check *)

Section EncoderClaims.

Lemma size_zeros n : 0 <= n -> size (zeros n) = n.
Proof.
  intros H. unfold size, len, zeros. cbn [items].
  rewrite repeat_length. now apply Z2Nat.id.
Qed.

Lemma len_build_sac a b w h bs :
  build_sac a b w h = Ok bs -> len bs = 24 + 2 * size a + 2 * size b.
Proof.
  intros H. apply build_sac_ok_inv in H as (_ & _ & ->).
  rewrite !len_app, len_header_bytes, !len_payload. lia.
Qed.

(** C1 (as amended).  For arrays A and B of [width*height] elements each,
    [width] and [height] non-zero, a byte string returned by [build_sac]
    has total length [24 + 2*width*height*2]: the packed header takes 24
    bytes.  The encoder does return one when [width] and [height] are
    positive and [width*height] fits an unsigned 32-bit field. *)
Theorem build_sac_file_size (a b : ndarray) (width height : Z) :
  width <> 0 -> height <> 0 ->
  size a = width * height -> size b = width * height ->
  (forall bs, build_sac a b width height = Ok bs ->
              len bs = 24 + 2 * width * height * 2)
  /\ (0 < width -> 0 < height -> width * height < 2 ^ 32 ->
      exists bs, build_sac a b width height = Ok bs
                 /\ len bs = 24 + 2 * width * height * 2).
Proof.
  intros Hw Hh Ea Eb.
  assert (L : forall bs, build_sac a b width height = Ok bs ->
                         len bs = 24 + 2 * width * height * 2).
  { intros bs H. apply len_build_sac in H. lia. }
  split; [exact L|].
  intros Pw Ph Hr.
  assert (R : u32 (width * height) /\ u32 width /\ u32 height)
    by (unfold u32; nia).
  destruct R as (R1 & R2 & R3).
  eexists. split.
  - apply build_sac_ok; rewrite ?Ea, ?Eb; auto.
  - apply L. apply build_sac_ok; rewrite ?Ea, ?Eb; auto.
Qed.

Lemma build_sac_file_size_witness :
  exists bs, build_sac (zeros 120000) (zeros 120000) 400 300 = Ok bs
             /\ len bs = 480024.
Proof.
  destruct (build_sac_file_size (zeros 120000) (zeros 120000) 400 300)
    as [_ R]; [lia | lia | vm_compute; reflexivity | vm_compute; reflexivity |].
  apply R; lia.
Defined.

(** C1, the claim as stated fails: one-element arrays with width and
    height 1 give 28 bytes, not [20 + 2*1*1*2 = 24]; and the end-to-end
    scenario (400 by 300, two arrays of 120000 elements) gives 480024
    bytes, not 500020. *)
Lemma build_sac_file_size_not_20 :
  let a := mk_ndarray [7] true in
  (exists bs, build_sac a a 1 1 = Ok bs
              /\ len bs = 28
              /\ len bs <> 20 + 2 * 1 * 1 * 2)
  /\ (exists bs, build_sac (zeros 120000) (zeros 120000) 400 300 = Ok bs
                 /\ len bs = 480024
                 /\ len bs <> 500020).
Proof.
  split.
  - eexists. repeat split. discriminate.
  - assert (S : size (zeros 120000) = 120000) by (rewrite size_zeros; lia).
    eexists. split.
    + apply build_sac_ok; rewrite ?S; unfold u32; lia.
    + rewrite !len_app, len_header_bytes, !len_payload, S. split; lia.
Qed.

(** C2.  Whatever [build_sac] returns starts with the ASCII bytes "SAC1",
    then a flags byte 0, a dtype byte 1, an array-count byte 2 and a
    reserved byte 0, then four unsigned 32-bit little-endian fields holding
    the element count of A, the element count of B, the width and the
    height; the rest of the output is exactly the little-endian int16
    elements of A followed by those of B. *)
Theorem build_sac_layout (a b : ndarray) (width height : Z) (bs : bytes) :
  build_sac a b width height = Ok bs ->
  slice 0 4 bs = ["S"; "A"; "C"; "1"]%byte
  /\ nth_error bs 4 = Some (byte_of_Z 0)
  /\ nth_error bs 5 = Some (byte_of_Z 1)
  /\ nth_error bs 6 = Some (byte_of_Z 2)
  /\ nth_error bs 7 = Some (byte_of_Z 0)
  /\ le_value (slice 8 12 bs) = size a
  /\ le_value (slice 12 16 bs) = size b
  /\ le_value (slice 16 20 bs) = width
  /\ le_value (slice 20 24 bs) = height
  /\ skipn 24 bs
     = flat_map (le_bytes 2) (map wrap_i16 (items a))
         ++ flat_map (le_bytes 2) (map wrap_i16 (items b)).
Proof.
  intros H. apply build_sac_ok_inv in H as (_ & (Ra & Rb & Rw & Rh) & ->).
  destruct (header_bytes_layout (size a) (size b) width height
              (payload a ++ payload b))
    as (E0 & _ & -> & -> & -> & -> & ->).
  rewrite !le_value_u32 by assumption.
  unfold payload, tobytes. rewrite !items_to_c_contiguous_i16.
  repeat split; reflexivity.
Qed.

Lemma build_sac_layout_witness :
  exists bs,
    build_sac (mk_ndarray [1; -2] true) (mk_ndarray [300; 40000] false) 2 1
      = Ok bs
    /\ slice 0 4 bs = ["S"; "A"; "C"; "1"]%byte
    /\ le_value (slice 16 20 bs) = 2
    /\ skipn 24 bs = [x01; x00; xfe; xff; x2c; x01; x40; x9c].
Proof.
  eexists. split; [reflexivity|].
  pose proof (build_sac_layout (mk_ndarray [1; -2] true)
                (mk_ndarray [300; 40000] false) 2 1 _ eq_refl)
    as (E0 & _ & _ & _ & _ & _ & _ & Ew & _ & Ep).
  split; [exact E0|]. split; [exact Ew|]. exact Ep.
Defined.

(** C3.  Decoding what [build_sac] returns with the reference decoder
    yields the element sequences of A and B after their coercion to int16;
    for arrays that already hold int16 values these are the elements of A
    and B themselves. *)
Theorem build_sac_roundtrip (a b : ndarray) (width height : Z) (bs : bytes) :
  build_sac a b width height = Ok bs ->
  ref_decode bs
  = Some (items (to_c_contiguous_i16 a), items (to_c_contiguous_i16 b))
  /\ (Forall i16 (items a) -> Forall i16 (items b) ->
      ref_decode bs = Some (items a, items b)).
Proof.
  intros H. apply build_sac_ok_inv in H as (_ & (Ra & Rb & _) & ->).
  rewrite ref_decode_encoded by assumption.
  rewrite !items_to_c_contiguous_i16. split; [reflexivity|].
  intros Ia Ib. now rewrite !map_wrap_i16_id.
Qed.

Lemma build_sac_roundtrip_witness :
  exists bs,
    build_sac (mk_ndarray [1; -2] true) (mk_ndarray [300; -32768] false) 2 1
      = Ok bs
    /\ ref_decode bs = Some ([1; -2], [300; -32768]).
Proof.
  eexists. split; [reflexivity|].
  destruct (build_sac_roundtrip (mk_ndarray [1; -2] true)
              (mk_ndarray [300; -32768] false) 2 1 _ eq_refl) as [_ E].
  apply E; repeat constructor; cbn; lia.
Defined.

(** C4 (as amended).  With non-zero [width] and [height], [build_sac]
    raises the assertion failure exactly when the element count of A or of
    B differs from [width*height].  When both counts equal [width*height]
    it returns normally provided [width] and [height] are positive and
    [width*height] fits an unsigned 32-bit header field; otherwise packing
    the header raises [struct.error]. *)
Theorem build_sac_length_check (a b : ndarray) (width height : Z) :
  width <> 0 -> height <> 0 ->
  ((exists msg, build_sac a b width height = Raise (AssertionError msg))
   <-> (size a <> width * height \/ size b <> width * height))
  /\ (size a = width * height -> size b = width * height ->
      0 < width -> 0 < height -> width * height < 2 ^ 32 ->
      exists bs, build_sac a b width height = Ok bs)
  /\ (size a = width * height -> size b = width * height ->
      ~ (0 < width /\ 0 < height /\ width * height < 2 ^ 32) ->
      build_sac a b width height = Raise StructError).
Proof.
  intros Hw Hh. split; [|split].
  - rewrite build_sac_assertion_iff. tauto.
  - intros Ea Eb Pw Ph R. eexists.
    apply build_sac_ok; rewrite ?Ea, ?Eb; unfold u32; auto; nia.
  - intros Ea Eb R.
    apply build_sac_struct_error; [auto|].
    rewrite Ea, Eb. unfold u32. nia.
Qed.

Lemma build_sac_length_check_witness :
  let a := mk_ndarray [1; -2] true in
  let b := mk_ndarray [300; 40000] false in
  ((exists msg, build_sac a b 2 1 = Raise (AssertionError msg))
   <-> (size a <> 2 * 1 \/ size b <> 2 * 1))
  /\ (exists bs, build_sac a b 2 1 = Ok bs)
  /\ ((exists msg, build_sac a b 3 1 = Raise (AssertionError msg))
      <-> (size a <> 3 * 1 \/ size b <> 3 * 1)).
Proof.
  intros a b.
  destruct (build_sac_length_check a b 2 1) as (I & R & _); [lia | lia |].
  destruct (build_sac_length_check a b 3 1) as (I3 & _); [lia | lia |].
  split; [exact I|]. split; [|exact I3].
  apply R; [reflexivity | reflexivity | lia | lia | lia].
Defined.

(** C4, the claim as stated fails: with [width = height = -1] and two
    arrays of one element the counts equal [width*height], yet the encoder
    does not return: packing the header raises [struct.error]. *)
Lemma build_sac_negative_dims_raise :
  let a := mk_ndarray [0] true in
  size a = (-1) * (-1)
  /\ build_sac a a (-1) (-1) = Raise StructError.
Proof. split; reflexivity. Qed.

(** C9 (as amended).  If [width] is 0 or [height] is 0 the length check is
    skipped: [build_sac] never raises the assertion failure, whatever the
    element counts of A and B.  It returns normally, with the supplied
    width and height written into the header, whenever the two counts,
    [width] and [height] fit the header's unsigned 32-bit fields. *)
Theorem build_sac_unchecked (a b : ndarray) (width height : Z) :
  width = 0 \/ height = 0 ->
  (forall msg, build_sac a b width height <> Raise (AssertionError msg))
  /\ (u32 (size a) -> u32 (size b) -> u32 width -> u32 height ->
      exists bs, build_sac a b width height = Ok bs
                 /\ le_value (slice 16 20 bs) = width
                 /\ le_value (slice 20 24 bs) = height).
Proof.
  intros Z0. split.
  - intros msg H.
    assert (E : exists m, build_sac a b width height = Raise (AssertionError m))
      by eauto.
    apply build_sac_assertion_iff in E. lia.
  - intros Ra Rb Rw Rh. eexists. split.
    + apply build_sac_ok; auto. intros; lia.
    + destruct (header_bytes_layout (size a) (size b) width height
                  (payload a ++ payload b))
        as (_ & _ & _ & _ & -> & -> & _).
      now rewrite !le_value_u32.
Qed.

Lemma build_sac_unchecked_witness :
  let a := mk_ndarray [5; 6; 7] true in
  let b := mk_ndarray [8] true in
  (forall msg, build_sac a b 0 7 <> Raise (AssertionError msg))
  /\ exists bs, build_sac a b 0 7 = Ok bs
                /\ le_value (slice 16 20 bs) = 0
                /\ le_value (slice 20 24 bs) = 7.
Proof.
  intros a b.
  destruct (build_sac_unchecked a b 0 7) as [N R]; [left; reflexivity|].
  split; [exact N|].
  apply R; unfold u32; cbn; lia.
Defined.

(** C9, the claim as stated fails: with [width = 0] and [height = -1] the
    length check is skipped, but the encoder does not return normally. *)
Lemma build_sac_unchecked_negative_raises :
  build_sac (mk_ndarray [] true) (mk_ndarray [] true) 0 (-1)
  = Raise StructError.
Proof. reflexivity. Qed.

(** C10.  Whenever [build_sac] returns, the byte string has length
    [24 + 2*(element count of A) + 2*(element count of B)]: it is the
    24-byte packed header followed by the two payloads. *)
Theorem build_sac_length (a b : ndarray) (width height : Z) (bs : bytes) :
  build_sac a b width height = Ok bs ->
  len bs = 24 + 2 * size a + 2 * size b
  /\ exists hd, sac_header (size a) (size b) width height = Ok hd
                /\ len hd = 24
                /\ bs = hd ++ payload a ++ payload b.
Proof.
  intros H. split; [now apply len_build_sac in H|].
  apply build_sac_ok_inv in H as (_ & (Ra & Rb & Rw & Rh) & ->).
  exists (header_bytes (size a) (size b) width height).
  split; [now apply sac_header_ok|].
  split; [apply len_header_bytes | reflexivity].
Qed.

Lemma build_sac_length_witness :
  exists bs,
    build_sac (mk_ndarray [5; 6; 7] true) (mk_ndarray [8] true) 0 0 = Ok bs
    /\ len bs = 32.
Proof.
  eexists. split; [reflexivity|].
  apply (build_sac_length (mk_ndarray [5; 6; 7] true) (mk_ndarray [8] true)
           0 0 _ eq_refl).
Defined.

End EncoderClaims.

(** ** Index grids and element-wise operations *)

Section Grids.

Lemma length_range n : length (range n) = Z.to_nat n.
Proof. unfold range. now rewrite length_map, length_seq. Qed.

Lemma nth_error_range n i :
  (i < Z.to_nat n)%nat -> nth_error (range n) i = Some (Z.of_nat i).
Proof.
  intros H. unfold range. rewrite nth_error_map, nth_error_seq.
  apply Nat.ltb_lt in H. now rewrite H.
Qed.

Lemma in_range n v : In v (range n) <-> 0 <= v < n.
Proof.
  unfold range. rewrite in_map_iff. split.
  - intros (i & <- & H). apply in_seq in H. lia.
  - intros H. exists (Z.to_nat v). split; [lia|]. apply in_seq. lia.
Qed.

Lemma mgrid_tabulate h w :
  mgrid h w = (tabulate h w (fun y _ => y), tabulate h w (fun _ x => x)).
Proof.
  unfold mgrid, tabulate. apply f_equal.
  apply map_ext. intros _. symmetry. apply map_id.
Qed.

Lemma mat_map_tabulate {A B} (f : A -> B) h w g :
  mat_map f (tabulate h w g) = tabulate h w (fun y x => f (g y x)).
Proof.
  unfold mat_map, tabulate. rewrite map_map.
  apply map_ext. intros y. apply map_map.
Qed.

Lemma zip_with_map {A B C D} (f : A -> B -> C) (g1 : D -> A) (g2 : D -> B) l :
  zip_with f (map g1 l) (map g2 l) = map (fun d => f (g1 d) (g2 d)) l.
Proof.
  unfold zip_with. induction l as [|d l IH]; [reflexivity|].
  cbn [map combine fst snd]. now rewrite <- IH.
Qed.

Lemma mat_map2_tabulate {A B C} (f : A -> B -> C) h w g1 g2 :
  mat_map2 f (tabulate h w g1) (tabulate h w g2)
  = tabulate h w (fun y x => f (g1 y x) (g2 y x)).
Proof.
  unfold mat_map2, tabulate. rewrite zip_with_map.
  apply map_ext. intros y. apply zip_with_map.
Qed.

Lemma get_tabulate {A} h w (f : Z -> Z -> A) y x :
  0 <= y < h -> 0 <= x < w -> get (tabulate h w f) y x = Some (f y x).
Proof.
  intros Hy Hx. unfold get, tabulate.
  replace (0 <=? y) with true by (symmetry; apply Z.leb_le; lia).
  replace (0 <=? x) with true by (symmetry; apply Z.leb_le; lia).
  cbn [andb]. rewrite nth_error_map, nth_error_range by lia.
  cbn [option_map]. rewrite nth_error_map, nth_error_range by lia.
  cbn [option_map]. now rewrite !Z2Nat.id by lia.
Qed.

Lemma get_tabulate_inv {A} h w (f : Z -> Z -> A) y x v :
  get (tabulate h w f) y x = Some v ->
  (0 <= y < h /\ 0 <= x < w) /\ v = f y x.
Proof.
  intros H.
  assert (R : 0 <= y < h /\ 0 <= x < w).
  { revert H. unfold get, tabulate.
    destruct (0 <=? y) eqn:Ey; [|discriminate].
    destruct (0 <=? x) eqn:Ex; [|discriminate].
    apply Z.leb_le in Ey, Ex. cbn [andb].
    destruct (nth_error _ (Z.to_nat y)) as [row|] eqn:Er; [|discriminate].
    intros Hv.
    assert (Ly : (Z.to_nat y < Z.to_nat h)%nat).
    { rewrite <- (length_range h), <- (length_map
        (fun y0 => map (fun x0 => f y0 x0) (range w))).
      apply nth_error_Some. congruence. }
    rewrite nth_error_map, nth_error_range in Er by exact Ly.
    cbn [option_map] in Er. injection Er as <-.
    assert (Lx : (Z.to_nat x < Z.to_nat w)%nat).
    { rewrite <- (length_range w), <- (length_map
        (fun x0 => f (Z.of_nat (Z.to_nat y)) x0)).
      apply nth_error_Some. congruence. }
    lia. }
  split; [exact R|].
  rewrite get_tabulate in H by tauto. congruence.
Qed.

Lemma tabulate_1_1 {A} (f : Z -> Z -> A) : tabulate 1 1 f = [[f 0 0]].
Proof. reflexivity. Qed.

Lemma length_concat_tabulate {A} h w (f : Z -> Z -> A) :
  0 <= h -> 0 <= w -> len (concat (tabulate h w f)) = h * w.
Proof.
  intros Hh Hw. unfold len, tabulate.
  rewrite length_concat, map_map.
  rewrite (map_ext _ (fun _ => Z.to_nat w))
    by (intros; now rewrite length_map, length_range).
  set (l := range h).
  assert (E : list_sum (map (fun _ : Z => Z.to_nat w) l)
              = (length l * Z.to_nat w)%nat)
    by (unfold list_sum; induction l as [|? ? IH];
        cbn [map fold_right length Nat.mul]; lia).
  rewrite E. subst l. rewrite length_range. lia.
Qed.

End Grids.

(** ** The checkerboard *)

Section Checkerboard.

Lemma generate_checkerboard_mask_tabulate w h s :
  generate_checkerboard_mask w h s
  = let t := tabulate h w
               (fun y x => wrap_i16 ((x / s + y / s) mod 2 * 1000)) in
    (t, t).
Proof.
  unfold generate_checkerboard_mask, astype_i16.
  rewrite mgrid_tabulate.
  now rewrite !mat_map_tabulate, mat_map2_tabulate, !mat_map_tabulate.
Qed.

Lemma checker_value_cases v : v mod 2 * 1000 = 0 \/ v mod 2 * 1000 = 1000.
Proof. pose proof (Z.mod_pos_bound v 2). lia. Qed.

Lemma checker_value_wrap v : wrap_i16 (v mod 2 * 1000) = v mod 2 * 1000.
Proof.
  apply wrap_i16_id. unfold i16. pose proof (checker_value_cases v). lia.
Qed.

(** C5.  For positive [width], [height] and [square_size] the generator
    returns the same array twice; its value at pixel (x, y) is
    [((x // square_size + y // square_size) % 2) * 1000], so every value is
    0 or 1000.  That value is 0 at (0, 0), the same at
    (square_size, square_size) and 1000 at (square_size, 0), and so are the
    elements of the array at these pixels wherever they lie inside it. *)
Theorem generate_checkerboard_mask_pattern (width height square_size : Z) :
  0 < width -> 0 < height -> 0 < square_size ->
  exists m,
    generate_checkerboard_mask width height square_size = (m, m)
    /\ (forall x y, 0 <= x < width -> 0 <= y < height ->
        get m y x = Some (checker_value square_size x y))
    /\ (forall x y v, get m y x = Some v -> v = 0 \/ v = 1000)
    /\ checker_value square_size 0 0 = 0
    /\ checker_value square_size square_size square_size
       = checker_value square_size 0 0
    /\ checker_value square_size square_size 0 = 1000
    /\ get m 0 0 = Some 0
    /\ (square_size < width -> square_size < height ->
        get m square_size square_size = get m 0 0)
    /\ (square_size < width ->
        get m 0 square_size = Some 1000
        /\ get m 0 square_size <> get m 0 0).
Proof.
  intros Hw Hh Hs. rewrite generate_checkerboard_mask_tabulate. cbv zeta.
  eexists. split; [reflexivity|].
  assert (V : forall x y, 0 <= x < width -> 0 <= y < height ->
    get (tabulate height width
           (fun y x => wrap_i16
              ((x / square_size + y / square_size) mod 2 * 1000))) y x
    = Some (checker_value square_size x y)).
  { intros x y Hx Hy. rewrite get_tabulate by assumption.
    now rewrite checker_value_wrap. }
  assert (D0 : 0 / square_size = 0) by (apply Z.div_0_l; lia).
  assert (D1 : square_size / square_size = 1) by (apply Z.div_same; lia).
  assert (F00 : checker_value square_size 0 0 = 0)
    by (unfold checker_value; now rewrite D0).
  assert (Fss : checker_value square_size square_size square_size = 0)
    by (unfold checker_value; now rewrite D1).
  assert (Fs0 : checker_value square_size square_size 0 = 1000)
    by (unfold checker_value; now rewrite D0, D1).
  split; [exact V|]. split.
  { intros x y v H. apply get_tabulate_inv in H as [_ ->].
    rewrite checker_value_wrap. apply checker_value_cases. }
  split; [exact F00|]. split; [now rewrite Fss, F00|]. split; [exact Fs0|].
  split; [rewrite V by lia; now rewrite F00|]. split.
  - intros H1 H2. rewrite !V by lia. now rewrite Fss, F00.
  - intros H1. rewrite !V by lia. rewrite Fs0, F00.
    split; [reflexivity | discriminate].
Qed.

Lemma generate_checkerboard_mask_pattern_witness :
  exists m,
    generate_checkerboard_mask 4 3 2 = (m, m)
    /\ get m 0 0 = Some 0
    /\ get m 2 2 = get m 0 0
    /\ get m 0 2 = Some 1000.
Proof.
  destruct (generate_checkerboard_mask_pattern 4 3 2)
    as (m & E & _ & _ & _ & _ & _ & H0 & Hd & Hx); [lia | lia | lia |].
  exists m. split; [exact E|]. split; [exact H0|].
  split; [apply Hd; lia | apply Hx; lia].
Defined.

End Checkerboard.

(** ** Binary64 rounding *)

Section Pow2.

Local Open Scope Q_scope.

Lemma pow2_pos e : 0 < pow2 e.
Proof. apply Qpower_0_lt. reflexivity. Qed.

Lemma pow2_add a b : pow2 (a + b) == pow2 a * pow2 b.
Proof. apply Qpower_plus. discriminate. Qed.

Lemma pow2_le a b : (a <= b)%Z -> pow2 a <= pow2 b.
Proof. intros H. apply Qpower_le_compat_l; [exact H | discriminate]. Qed.

Lemma pow2_lt a b : (a < b)%Z -> pow2 a < pow2 b.
Proof. intros H. apply Qpower_lt_compat_l; [exact H | reflexivity]. Qed.

Lemma pow2_lt_inv a b : pow2 a < pow2 b -> (a < b)%Z.
Proof. intros H. apply Qpower_lt_compat_l_inv with (q := 2); [exact H | reflexivity]. Qed.

Lemma pow2_inject a : (0 <= a)%Z -> inject_Z (2 ^ a) == pow2 a.
Proof. intros H. now apply Zpower_Qpower. Qed.

Lemma pow2_0 : pow2 0 == 1.
Proof. reflexivity. Qed.

Lemma pow2_sub a b : pow2 (a - b) == pow2 a / pow2 b.
Proof. apply Qpower_minus. discriminate. Qed.

End Pow2.

Section Ilog2.

Local Open Scope Q_scope.

Lemma Qlt_num_den n d (q : Q) :
  inject_Z n < q * inject_Z (Zpos d) -> n # d < q.
Proof.
  intros H. setoid_replace (n # d) with (inject_Z n / inject_Z (Zpos d))
    by (apply Qmake_Qdiv).
  apply Qlt_shift_div_r; [reflexivity | exact H].
Qed.

Lemma Qgt_num_den n d (q : Q) :
  q * inject_Z (Zpos d) < inject_Z n -> q < n # d.
Proof.
  intros H. setoid_replace (n # d) with (inject_Z n / inject_Z (Zpos d))
    by (apply Qmake_Qdiv).
  apply Qlt_shift_div_l; [reflexivity | exact H].
Qed.

Lemma ilog2_spec q : 0 < q -> pow2 (ilog2 q) <= q /\ q < pow2 (ilog2 q + 1).
Proof.
  intros Hq. destruct q as [n d].
  assert (Hn : (0 < n)%Z) by (unfold Qlt in Hq; simpl in Hq; lia).
  unfold ilog2. cbn [Qnum Qden].
  set (ln := Z.log2 n). set (ld := Z.log2 (Zpos d)).
  destruct (Z.log2_spec n Hn) as [N1 N2]. fold ln in N1, N2.
  destruct (Z.log2_spec (Zpos d) eq_refl) as [D1 D2]. fold ld in D1, D2.
  assert (Lnn : (0 <= ln)%Z) by apply Z.log2_nonneg.
  assert (Ldn : (0 <= ld)%Z) by apply Z.log2_nonneg.
  assert (QN1 : pow2 ln <= inject_Z n)
    by (rewrite <- pow2_inject by lia; rewrite <- Zle_Qle; exact N1).
  assert (QN2 : inject_Z n < pow2 (ln + 1))
    by (rewrite <- pow2_inject by lia; rewrite <- Zlt_Qlt; rewrite <- Z.add_1_r in N2; exact N2).
  assert (QD1 : pow2 ld <= inject_Z (Zpos d))
    by (rewrite <- pow2_inject by lia; rewrite <- Zle_Qle; exact D1).
  assert (QD2 : inject_Z (Zpos d) < pow2 (ld + 1))
    by (rewrite <- pow2_inject by lia; rewrite <- Zlt_Qlt; rewrite <- Z.add_1_r in D2; exact D2).
  assert (U : n # d < pow2 (ln - ld + 1)).
  { apply Qlt_num_den.
    apply Qlt_le_trans with (1 := QN2).
    setoid_replace (pow2 (ln + 1)) with (pow2 (ln - ld + 1) * pow2 ld)
      by (rewrite <- pow2_add; apply Qpower_comp; [reflexivity | lia]).
    apply Qmult_le_l; [apply pow2_pos | exact QD1]. }
  assert (L : pow2 (ln - ld - 1) < n # d).
  { apply Qgt_num_den.
    apply Qlt_le_trans with (2 := QN1).
    setoid_replace (pow2 ln) with (pow2 (ln - ld - 1) * pow2 (ld + 1))
      by (rewrite <- pow2_add; apply Qpower_comp; [reflexivity | lia]).
    apply Qmult_lt_l; [apply pow2_pos | exact QD2]. }
  destruct (Qle_bool (pow2 (ln - ld)) (n # d)) eqn:E.
  - apply Qle_bool_iff in E. split; [exact E | exact U].
  - assert (E' : ~ pow2 (ln - ld) <= n # d)
      by (rewrite <- Qle_bool_iff; congruence).
    apply Qnot_le_lt in E'. split.
    + apply Qlt_le_weak. exact L.
    + setoid_replace (pow2 (ln - ld - 1 + 1)) with (pow2 (ln - ld))
        by (apply Qpower_comp; [reflexivity | lia]).
      exact E'.
Qed.

Lemma ilog2_unique q k : pow2 k <= q -> q < pow2 (k + 1) -> ilog2 q = k.
Proof.
  intros L U.
  assert (Hq : 0 < q) by (apply Qlt_le_trans with (2 := L); apply pow2_pos).
  destruct (ilog2_spec q Hq) as [L' U'].
  assert (H1 : (k < ilog2 q + 1)%Z)
    by (apply pow2_lt_inv; apply Qle_lt_trans with (1 := L); exact U').
  assert (H2 : (ilog2 q < k + 1)%Z)
    by (apply pow2_lt_inv; apply Qle_lt_trans with (1 := L'); exact U).
  lia.
Qed.

Lemma ilog2_mono q1 q2 : 0 < q1 -> q1 <= q2 -> (ilog2 q1 <= ilog2 q2)%Z.
Proof.
  intros H1 H12.
  assert (H2 : 0 < q2) by (apply Qlt_le_trans with (1 := H1); exact H12).
  destruct (ilog2_spec q1 H1) as [L1 _].
  destruct (ilog2_spec q2 H2) as [_ U2].
  assert (H : (ilog2 q1 < ilog2 q2 + 1)%Z).
  { apply pow2_lt_inv. apply Qle_lt_trans with (1 := L1).
    apply Qle_lt_trans with (1 := H12). exact U2. }
  lia.
Qed.

Lemma ilog2_proper q1 q2 : 0 < q1 -> q1 == q2 -> ilog2 q1 = ilog2 q2.
Proof.
  intros H1 E. symmetry.
  destruct (ilog2_spec q1 H1) as [L U].
  apply ilog2_unique; rewrite <- E; assumption.
Qed.

Lemma ilog2_pow2 k : ilog2 (pow2 k) = k.
Proof.
  apply ilog2_unique; [apply Qle_refl | apply pow2_lt; lia].
Qed.

End Ilog2.

Section Rne.

Local Open Scope Q_scope.

Lemma inject_Z_succ z : inject_Z (z + 1) == inject_Z z + 1.
Proof. now rewrite inject_Z_plus. Qed.

Lemma inject_Z_pred z : inject_Z (z - 1) == inject_Z z - 1.
Proof. unfold Z.sub. now rewrite inject_Z_plus. Qed.

Lemma Qfloor_unique x z :
  inject_Z z <= x -> x < inject_Z (z + 1) -> Qfloor x = z.
Proof.
  intros L U.
  pose proof (Qfloor_le x) as F1. pose proof (Qlt_floor x) as F2.
  assert (H1 : (z < Qfloor x + 1)%Z)
    by (rewrite Zlt_Qlt; apply Qle_lt_trans with (1 := L); exact F2).
  assert (H2 : (Qfloor x < z + 1)%Z)
    by (rewrite Zlt_Qlt; apply Qle_lt_trans with (1 := F1); exact U).
  lia.
Qed.

Lemma rne_cases q :
  let f := Qfloor q in
  (q - inject_Z f < 1 # 2 /\ rne q = f)
  \/ (q - inject_Z f == 1 # 2 /\ rne q = if Z.even f then f else (f + 1)%Z)
  \/ (1 # 2 < q - inject_Z f /\ rne q = (f + 1)%Z).
Proof.
  cbv zeta. unfold rne.
  destruct (Qcompare (q - inject_Z (Qfloor q)) (1 # 2)) eqn:C.
  - apply Qeq_alt in C. right; left. split; [exact C | reflexivity].
  - apply Qlt_alt in C. left. split; [exact C | reflexivity].
  - apply Qgt_alt in C. right; right. split; [exact C | reflexivity].
Qed.

Lemma rne_bounds q : (Qfloor q <= rne q <= Qfloor q + 1)%Z.
Proof.
  destruct (rne_cases q) as [[_ ->]|[[_ ->]|[_ ->]]]; try lia.
  destruct (Z.even (Qfloor q)); lia.
Qed.

Lemma rne_mono q1 q2 : q1 <= q2 -> (rne q1 <= rne q2)%Z.
Proof.
  intros H. pose proof (Qfloor_resp_le _ _ H) as F.
  pose proof (rne_bounds q1) as B1. pose proof (rne_bounds q2) as B2.
  destruct (Z.eq_dec (Qfloor q1) (Qfloor q2)) as [E|N]; [|lia].
  destruct (rne_cases q1) as [[C1 R1]|[[C1 R1]|[C1 R1]]];
    destruct (rne_cases q2) as [[C2 R2]|[[C2 R2]|[C2 R2]]];
    rewrite R1, R2, <- ?E; try lia;
    try (destruct (Z.even (Qfloor q1)); lia);
    rewrite <- E in C2; exfalso; lra.
Qed.

Lemma rne_proper q1 q2 : q1 == q2 -> rne q1 = rne q2.
Proof.
  intros E. apply Z.le_antisymm; apply rne_mono; rewrite E; apply Qle_refl.
Qed.

Lemma rne_inject z : rne (inject_Z z) = z.
Proof.
  destruct (rne_cases (inject_Z z)) as [[_ R]|[[C _]|[C _]]];
    rewrite Qfloor_Z in *; [exact R | exfalso; lra | exfalso; lra].
Qed.

Lemma rne_opp q : rne (- q) = (- rne q)%Z.
Proof.
  pose proof (Qfloor_le q) as F1. pose proof (Qlt_floor q) as F2.
  rewrite inject_Z_succ in F2.
  destruct (Qeq_dec q (inject_Z (Qfloor q))) as [E|N].
  - rewrite (rne_proper q _ E), (rne_proper (- q) (inject_Z (- Qfloor q))).
    + now rewrite !rne_inject.
    + rewrite inject_Z_opp. now rewrite <- E.
  - assert (F1' : inject_Z (Qfloor q) < q).
    { apply Qle_lt_or_eq in F1 as [?|E]; [assumption|].
      symmetry in E. contradiction. }
    assert (Fl : Qfloor (- q) = (- Qfloor q - 1)%Z).
    { apply Qfloor_unique.
      - rewrite inject_Z_pred, inject_Z_opp. lra.
      - replace (- Qfloor q - 1 + 1)%Z with (- Qfloor q)%Z by lia.
        rewrite inject_Z_opp. lra. }
    assert (Ev : Z.even (- Qfloor q - 1) = negb (Z.even (Qfloor q))).
    { replace (- Qfloor q - 1)%Z with (- (Qfloor q + 1))%Z by lia.
      rewrite Z.even_opp, Z.add_1_r, Z.even_succ, <- Z.negb_even.
      reflexivity. }
    destruct (rne_cases q) as [[C1 R1]|[[C1 R1]|[C1 R1]]];
      destruct (rne_cases (- q)) as [[C2 R2]|[[C2 R2]|[C2 R2]]];
      rewrite R1, R2; rewrite Fl in *; rewrite ?Ev;
      rewrite inject_Z_pred, inject_Z_opp in C2;
      try (exfalso; lra); try lia;
      destruct (Z.even (Qfloor q)); cbn [negb]; lia.
Qed.

Lemma rne_error q : Qabs (inject_Z (rne q) - q) <= 1 # 2.
Proof.
  pose proof (Qfloor_le q) as F1. pose proof (Qlt_floor q) as F2.
  rewrite inject_Z_succ in F2.
  apply Qabs_Qle_condition.
  destruct (rne_cases q) as [[C R]|[[C R]|[C R]]]; rewrite R.
  - split; lra.
  - destruct (Z.even (Qfloor q)); rewrite ?inject_Z_succ; split; lra.
  - rewrite inject_Z_succ. split; lra.
Qed.

End Rne.

Section Round.

Local Open Scope Q_scope.

Lemma Qabs_pos_nonzero q : ~ q == 0 -> 0 < Qabs q.
Proof.
  intros N. destruct (Qlt_le_dec 0 (Qabs q)) as [H|H]; [exact H|].
  exfalso. apply N. apply Qabs_Qle_condition in H. lra.
Qed.

Lemma ulp_exp_proper q1 q2 : ~ q1 == 0 -> q1 == q2 -> ulp_exp q1 = ulp_exp q2.
Proof.
  intros N E. unfold ulp_exp. f_equal. f_equal.
  apply ilog2_proper; [now apply Qabs_pos_nonzero | now rewrite E].
Qed.

Lemma round_nonzero q :
  ~ q == 0 ->
  round q = Qred (inject_Z (rne (q / pow2 (ulp_exp q))) * pow2 (ulp_exp q)).
Proof.
  intros N. unfold round.
  destruct (Qeq_bool q 0) eqn:E; [|reflexivity].
  apply Qeq_bool_iff in E. contradiction.
Qed.

Lemma round_zero q : q == 0 -> round q = 0.
Proof.
  intros E. unfold round. apply Qeq_bool_iff in E. now rewrite E.
Qed.

Lemma round_proper q1 q2 : q1 == q2 -> round q1 = round q2.
Proof.
  intros E. destruct (Qeq_dec q1 0) as [Z1|N1].
  - rewrite (round_zero q1 Z1), (round_zero q2); [reflexivity|].
    now rewrite <- E.
  - assert (N2 : ~ q2 == 0) by now rewrite <- E.
    rewrite (round_nonzero q1 N1), (round_nonzero q2 N2).
    rewrite <- (ulp_exp_proper q1 q2 N1 E).
    rewrite (rne_proper (q1 / pow2 (ulp_exp q1)) (q2 / pow2 (ulp_exp q1)));
      [reflexivity|].
    apply Qdiv_comp; [exact E | reflexivity].
Qed.

Lemma round_opp q : round (- q) == - round q.
Proof.
  destruct (Qeq_dec q 0) as [Z1|N1].
  - rewrite (round_zero q Z1), (round_zero (- q)); [reflexivity|].
    now rewrite Z1.
  - assert (N2 : ~ - q == 0) by (intros H; apply N1; lra).
    rewrite (round_nonzero q N1), (round_nonzero (- q) N2), !Qred_correct.
    assert (Ee : ulp_exp (- q) = ulp_exp q)
      by (unfold ulp_exp; now rewrite (ilog2_proper (Qabs (- q)) (Qabs q));
          [| now apply Qabs_pos_nonzero | apply Qabs_opp]).
    rewrite Ee.
    rewrite (rne_proper (- q / pow2 (ulp_exp q)) (- (q / pow2 (ulp_exp q))))
      by (unfold Qdiv; ring).
    rewrite rne_opp, inject_Z_opp. ring.
Qed.

(** The scaled significand of a positive number lies between 0 and 2^53,
    and is at least 2^52 unless the number is subnormal. *)
Lemma pow2_53 : pow2 53 == inject_Z (2 ^ 53).
Proof. reflexivity. Qed.

Lemma pow2_52 : pow2 52 == inject_Z (2 ^ 52).
Proof. reflexivity. Qed.

Lemma scaled_bounds q :
  0 < q ->
  let e := ulp_exp q in
  0 < q / pow2 e /\ q / pow2 e < pow2 53
  /\ (e = (ilog2 q - 52)%Z -> pow2 52 <= q / pow2 e).
Proof.
  intros Hq e.
  assert (Ee : e = Z.max (ilog2 q - 52) emin).
  { unfold e, ulp_exp. rewrite (ilog2_proper (Qabs q) q); [reflexivity| |].
    - rewrite Qabs_pos; [exact Hq | lra].
    - apply Qabs_pos. lra. }
  destruct (ilog2_spec q Hq) as [L U].
  pose proof (pow2_pos e) as Pe.
  split; [|split].
  - apply Qlt_shift_div_l; [exact Pe | lra].
  - apply Qlt_shift_div_r; [exact Pe|]. rewrite <- pow2_add.
    apply Qlt_le_trans with (1 := U). apply pow2_le. lia.
  - intros E52. apply Qle_shift_div_l; [exact Pe|]. rewrite <- pow2_add.
    apply Qle_trans with (2 := L). apply pow2_le. lia.
Qed.

Lemma rne_scaled_bounds q :
  0 < q ->
  let m := rne (q / pow2 (ulp_exp q)) in
  (0 <= m <= 2 ^ 53)%Z
  /\ (ulp_exp q = (ilog2 q - 52)%Z -> (2 ^ 52 <= m)%Z).
Proof.
  intros Hq m. destruct (scaled_bounds q Hq) as (S0 & S1 & S2).
  split; [split|].
  - rewrite <- (rne_inject 0). apply rne_mono. apply Qlt_le_weak. exact S0.
  - rewrite <- (rne_inject (2 ^ 53)). apply rne_mono.
    rewrite <- pow2_53. apply Qlt_le_weak. exact S1.
  - intros E. rewrite <- (rne_inject (2 ^ 52)). apply rne_mono.
    rewrite <- pow2_52. apply S2. exact E.
Qed.

Lemma round_pos_eq q :
  0 < q -> round q == inject_Z (rne (q / pow2 (ulp_exp q))) * pow2 (ulp_exp q).
Proof.
  intros Hq. rewrite round_nonzero by lra. apply Qred_correct.
Qed.

Lemma round_nonneg q : 0 <= q -> 0 <= round q.
Proof.
  intros H. destruct (Qeq_dec q 0) as [Z|N].
  - rewrite (round_zero q Z). apply Qle_refl.
  - assert (Hq : 0 < q) by (apply Qle_lt_or_eq in H as [?|E]; [assumption|];
                            symmetry in E; contradiction).
    rewrite round_pos_eq by exact Hq.
    destruct (rne_scaled_bounds q Hq) as [[M0 _] _].
    apply Qmult_le_0_compat; [|apply Qlt_le_weak, pow2_pos].
    change 0 with (inject_Z 0). now rewrite <- Zle_Qle.
Qed.

Lemma round_mono_pos q1 q2 : 0 < q1 -> q1 <= q2 -> round q1 <= round q2.
Proof.
  intros H1 H12.
  assert (H2 : 0 < q2) by lra.
  rewrite (round_pos_eq q1 H1), (round_pos_eq q2 H2).
  destruct (rne_scaled_bounds q1 H1) as [[_ M1] _].
  destruct (rne_scaled_bounds q2 H2) as [_ M2].
  pose proof (ilog2_mono q1 q2 H1 H12) as Hi.
  assert (E1 : ulp_exp q1 = Z.max (ilog2 q1 - 52) emin).
  { unfold ulp_exp. rewrite (ilog2_proper (Qabs q1) q1); [reflexivity| |].
    - rewrite Qabs_pos; [exact H1 | lra].
    - apply Qabs_pos. lra. }
  assert (E2 : ulp_exp q2 = Z.max (ilog2 q2 - 52) emin).
  { unfold ulp_exp. rewrite (ilog2_proper (Qabs q2) q2); [reflexivity| |].
    - rewrite Qabs_pos; [exact H2 | lra].
    - apply Qabs_pos. lra. }
  set (e1 := ulp_exp q1) in *. set (e2 := ulp_exp q2) in *.
  destruct (Z.eq_dec e1 e2) as [E|N].
  - rewrite <- E. apply Qmult_le_compat_r; [|apply Qlt_le_weak, pow2_pos].
    rewrite <- Zle_Qle. apply rne_mono.
    apply Qmult_le_compat_r; [exact H12|].
    apply Qlt_le_weak, Qinv_lt_0_compat, pow2_pos.
  - assert (Lt : (e1 < e2)%Z) by lia.
    assert (N2 : e2 = (ilog2 q2 - 52)%Z) by lia.
    specialize (M2 N2).
    apply Qle_trans with (pow2 (e1 + 53)).
    + rewrite Z.add_comm, pow2_add, pow2_53.
      apply Qmult_le_compat_r; [|apply Qlt_le_weak, pow2_pos].
      now rewrite <- Zle_Qle.
    + apply Qle_trans with (pow2 (52 + e2)).
      * apply pow2_le. lia.
      * rewrite pow2_add, pow2_52.
        apply Qmult_le_compat_r; [|apply Qlt_le_weak, pow2_pos].
        now rewrite <- Zle_Qle.
Qed.

Lemma round_mono q1 q2 : q1 <= q2 -> round q1 <= round q2.
Proof.
  intros H.
  destruct (Qlt_le_dec 0 q1) as [P1|NP1].
  - now apply round_mono_pos.
  - destruct (Qlt_le_dec q2 0) as [N2|P2].
    + assert (Hm : round (- q2) <= round (- q1))
        by (apply round_mono_pos; lra).
      rewrite !round_opp in Hm. lra.
    + apply Qle_trans with 0.
      * assert (Hm : 0 <= round (- q1)) by (apply round_nonneg; lra).
        rewrite round_opp in Hm. lra.
      * now apply round_nonneg.
Qed.

End Round.

Section Representable.

Local Open Scope Q_scope.

Lemma ulp_exp_pos q : 0 < q -> ulp_exp q = Z.max (ilog2 q - 52) emin.
Proof.
  intros H. unfold ulp_exp. rewrite (ilog2_proper (Qabs q) q); [reflexivity| |].
  - rewrite Qabs_pos; [exact H | lra].
  - apply Qabs_pos. lra.
Qed.

Lemma pow2_split a b : pow2 a == pow2 (a - b) * pow2 b.
Proof. rewrite <- pow2_add. apply Qpower_comp; [reflexivity | lia]. Qed.

Lemma round_representable_pos m e :
  (0 < m <= 2 ^ 53)%Z -> (emin <= e)%Z ->
  round (inject_Z m * pow2 e) == inject_Z m * pow2 e.
Proof.
  intros [Hm0 Hm] He.
  pose proof (pow2_pos e) as Pe.
  assert (Qm : 0 < inject_Z m)
    by (change 0 with (inject_Z 0); now rewrite <- Zlt_Qlt).
  assert (Hr : 0 < inject_Z m * pow2 e) by (apply Qmult_lt_0_compat; assumption).
  set (l := Z.log2 m).
  destruct (Z.log2_spec m Hm0) as [L1 L2]. fold l in L1, L2.
  assert (Ll : (0 <= l)%Z) by apply Z.log2_nonneg.
  assert (Lu : (l <= 53)%Z).
  { unfold l. rewrite <- (Z.log2_pow2 53) by lia. now apply Z.log2_le_mono. }
  assert (Il : ilog2 (inject_Z m * pow2 e) = (l + e)%Z).
  { apply ilog2_unique.
    - rewrite pow2_add. apply Qmult_le_compat_r; [|lra].
      rewrite <- pow2_inject by lia. now rewrite <- Zle_Qle.
    - replace (l + e + 1)%Z with (l + 1 + e)%Z by lia.
      rewrite pow2_add. apply Qmult_lt_compat_r; [exact Pe|].
      rewrite <- pow2_inject by lia. rewrite <- Zlt_Qlt.
      now rewrite Z.add_1_r. }
  rewrite round_pos_eq by exact Hr.
  rewrite (ulp_exp_pos _ Hr), Il.
  set (e' := Z.max (l + e - 52) emin).
  pose proof (pow2_pos e') as Pe'.
  destruct (Z_le_gt_dec e' e) as [Le|Gt].
  - assert (Es : inject_Z m * pow2 e / pow2 e' == inject_Z (m * 2 ^ (e - e'))).
    { rewrite inject_Z_mult, pow2_inject by lia.
      rewrite (pow2_split e e'). field. lra. }
    rewrite (rne_proper _ _ Es), rne_inject.
    rewrite inject_Z_mult, pow2_inject by lia.
    rewrite (pow2_split e e'). ring.
  - assert (E53 : m = (2 ^ 53)%Z).
    { assert (l = 53)%Z by lia. subst l. rewrite H in L1. lia. }
    assert (Ee' : e' = (e + 1)%Z) by lia.
    rewrite Ee', E53.
    assert (Es : inject_Z (2 ^ 53) * pow2 e / pow2 (e + 1) == inject_Z (2 ^ 52)).
    { rewrite pow2_add. change (pow2 1) with 2.
      change (inject_Z (2 ^ 53)) with (2 * inject_Z (2 ^ 52)). field. lra. }
    rewrite (rne_proper _ _ Es), rne_inject.
    rewrite pow2_add. change (pow2 1) with 2.
    change (inject_Z (2 ^ 53)) with (2 * inject_Z (2 ^ 52)). ring.
Qed.

Lemma round_representable m e :
  (Z.abs m <= 2 ^ 53)%Z -> (emin <= e)%Z ->
  round (inject_Z m * pow2 e) == inject_Z m * pow2 e.
Proof.
  intros Hm He. destruct (Z.lt_trichotomy m 0) as [N|[Z|P]].
  - assert (E : inject_Z m * pow2 e == - (inject_Z (- m) * pow2 e))
      by (rewrite inject_Z_opp; ring).
    rewrite (round_proper _ _ E), round_opp.
    rewrite round_representable_pos by lia.
    rewrite inject_Z_opp. ring.
  - subst m. rewrite (round_zero (inject_Z 0 * pow2 e)); ring.
  - apply round_representable_pos; lia.
Qed.

(** Every rounded value is a binary64 number: a significand of at most 53
    bits times a power of two not below the smallest one. *)
Lemma round_form q :
  exists m e, (Z.abs m <= 2 ^ 53)%Z /\ (emin <= e)%Z
              /\ round q == inject_Z m * pow2 e.
Proof.
  assert (P : forall p, 0 < p ->
    exists m e, (Z.abs m <= 2 ^ 53)%Z /\ (emin <= e)%Z
                /\ round p == inject_Z m * pow2 e).
  { intros p Hp. exists (rne (p / pow2 (ulp_exp p))), (ulp_exp p).
    destruct (rne_scaled_bounds p Hp) as [B _].
    split; [lia|]. split; [rewrite (ulp_exp_pos p Hp); lia|].
    now apply round_pos_eq. }
  destruct (Q_dec q 0) as [[N|Hp]|Z].
  - destruct (P (- q)) as (m & e & Hm & He & E); [lra|].
    exists (- m)%Z, e. split; [lia|]. split; [exact He|].
    rewrite round_opp in E. rewrite inject_Z_opp.
    setoid_replace (round q) with (- - round q) by ring.
    rewrite E. ring.
  - now apply P.
  - exists 0%Z, emin. split; [cbn; lia|]. split; [lia|].
    rewrite (round_zero q Z). ring.
Qed.

Lemma round_canonical q : Qred (round q) = round q.
Proof.
  destruct (Qeq_dec q 0) as [Z|N].
  - rewrite (round_zero q Z). reflexivity.
  - rewrite (round_nonzero q N). apply Qred_complete, Qred_correct.
Qed.

Lemma round_fixed q : round q == q -> round q = Qred q.
Proof.
  intros H. rewrite <- round_canonical. now apply Qred_complete.
Qed.

Lemma round_idem q : round (round q) = round q.
Proof.
  destruct (round_form q) as (m & e & Hm & He & E).
  rewrite <- (round_canonical q) at 2. apply round_fixed.
  rewrite (round_proper _ _ E), E.
  now apply round_representable.
Qed.

(** Doubling a normal number commutes with rounding. *)
Lemma round_double_pos q :
  pow2 (emin + 52) <= q -> round (2 * q) == 2 * round q.
Proof.
  intros Hn.
  assert (Hq : 0 < q)
    by (apply Qlt_le_trans with (2 := Hn); apply pow2_pos).
  assert (H2 : 0 < 2 * q) by lra.
  destruct (ilog2_spec q Hq) as [L U].
  assert (I2 : ilog2 (2 * q) = (ilog2 q + 1)%Z).
  { apply ilog2_unique.
    - rewrite pow2_add. change (pow2 1) with 2. lra.
    - rewrite (pow2_add (ilog2 q + 1) 1). change (pow2 1) with 2. lra. }
  assert (In : (emin + 52 <= ilog2 q)%Z).
  { assert (H : (emin + 52 < ilog2 q + 1)%Z); [|lia].
    apply pow2_lt_inv. apply Qle_lt_trans with (1 := Hn). exact U. }
  rewrite (round_pos_eq q Hq), (round_pos_eq (2 * q) H2).
  rewrite (ulp_exp_pos q Hq), (ulp_exp_pos (2 * q) H2), I2.
  replace (Z.max (ilog2 q + 1 - 52) emin) with (ilog2 q - 52 + 1)%Z by lia.
  replace (Z.max (ilog2 q - 52) emin) with (ilog2 q - 52)%Z by lia.
  set (e := (ilog2 q - 52)%Z). pose proof (pow2_pos e) as Pe.
  rewrite (rne_proper (2 * q / pow2 (e + 1)) (q / pow2 e))
    by (rewrite pow2_add; change (pow2 1) with 2; field; lra).
  rewrite pow2_add. change (pow2 1) with 2. ring.
Qed.

Lemma round_pow2 k : (emin <= k)%Z -> round (pow2 k) == pow2 k.
Proof.
  intros H. assert (E : pow2 k == inject_Z 1 * pow2 k) by ring.
  rewrite (round_proper _ _ E), round_representable;
    [ring | cbn; lia | exact H].
Qed.

Lemma round_inject z :
  (Z.abs z <= 2 ^ 53)%Z -> round (inject_Z z) == inject_Z z.
Proof.
  intros H. assert (E : inject_Z z == inject_Z z * pow2 0) by (cbn; ring).
  rewrite (round_proper _ _ E), round_representable;
    [cbn; ring | exact H | unfold emin; lia].
Qed.

End Representable.

Section Sqrt.

Local Open Scope Q_scope.

Lemma rne_sqrt_cases t :
  let m := Z.sqrt (Qfloor t) in
  let mid := inject_Z m * inject_Z m + inject_Z m + (1 # 4) in
  (t < mid /\ rne_sqrt t = m)
  \/ (t == mid /\ rne_sqrt t = if Z.even m then m else (m + 1)%Z)
  \/ (mid < t /\ rne_sqrt t = (m + 1)%Z).
Proof.
  cbv zeta. unfold rne_sqrt. set (m := Z.sqrt (Qfloor t)).
  assert (E : inject_Z (m * m + m) + (1 # 4)
              == inject_Z m * inject_Z m + inject_Z m + (1 # 4))
    by (rewrite inject_Z_plus, inject_Z_mult; reflexivity).
  destruct (Qcompare t (inject_Z (m * m + m) + (1 # 4))) eqn:C.
  - apply Qeq_alt in C. rewrite E in C. right; left. now split.
  - apply Qlt_alt in C. rewrite E in C. left. now split.
  - apply Qgt_alt in C. rewrite E in C. right; right. now split.
Qed.

Lemma rne_sqrt_bounds t :
  (Z.sqrt (Qfloor t) <= rne_sqrt t <= Z.sqrt (Qfloor t) + 1)%Z.
Proof.
  destruct (rne_sqrt_cases t) as [[_ ->]|[[_ ->]|[_ ->]]]; try lia.
  destruct (Z.even _); lia.
Qed.

Lemma rne_sqrt_mono t1 t2 : t1 <= t2 -> (rne_sqrt t1 <= rne_sqrt t2)%Z.
Proof.
  intros H. pose proof (Qfloor_resp_le _ _ H) as F.
  apply Z.sqrt_le_mono in F.
  pose proof (rne_sqrt_bounds t1) as B1. pose proof (rne_sqrt_bounds t2) as B2.
  destruct (Z.eq_dec (Z.sqrt (Qfloor t1)) (Z.sqrt (Qfloor t2))) as [E|N]; [|lia].
  destruct (rne_sqrt_cases t1) as [[C1 R1]|[[C1 R1]|[C1 R1]]];
    destruct (rne_sqrt_cases t2) as [[C2 R2]|[[C2 R2]|[C2 R2]]];
    rewrite R1, R2, <- ?E; try lia;
    try (destruct (Z.even (Z.sqrt (Qfloor t1))); lia);
    rewrite <- E in C2; exfalso; lra.
Qed.

Lemma rne_sqrt_proper t1 t2 : t1 == t2 -> rne_sqrt t1 = rne_sqrt t2.
Proof.
  intros E. apply Z.le_antisymm; apply rne_sqrt_mono; rewrite E; apply Qle_refl.
Qed.

Lemma fsqrt_zero q : q <= 0 -> fsqrt q = 0.
Proof.
  intros H. unfold fsqrt. apply Qle_bool_iff in H. now rewrite H.
Qed.

Lemma fsqrt_nonzero q :
  0 < q ->
  fsqrt q =
    let e := (ilog2 q / 2 - (prec - 1))%Z in
    Qred (inject_Z (rne_sqrt (q / pow2 (2 * e))) * pow2 e).
Proof.
  intros H. unfold fsqrt.
  destruct (Qle_bool q 0) eqn:E; [|reflexivity].
  apply Qle_bool_iff in E. lra.
Qed.

Lemma fsqrt_proper q1 q2 : q1 == q2 -> fsqrt q1 = fsqrt q2.
Proof.
  intros E. destruct (Qlt_le_dec 0 q1) as [P|N].
  - assert (P2 : 0 < q2) by lra.
    rewrite (fsqrt_nonzero q1 P), (fsqrt_nonzero q2 P2). cbv zeta.
    rewrite <- (ilog2_proper q1 q2 P E).
    set (e := (ilog2 q1 / 2 - (prec - 1))%Z).
    rewrite (rne_sqrt_proper (q1 / pow2 (2 * e)) (q2 / pow2 (2 * e)));
      [reflexivity|].
    apply Qdiv_comp; [exact E | reflexivity].
  - rewrite (fsqrt_zero q1 N), (fsqrt_zero q2); [reflexivity | lra].
Qed.

(** The scaled argument lies between 2^104 and 2^106, so the significand
    of the root has 53 bits. *)
Lemma fsqrt_scaled q :
  0 < q ->
  let t := q / pow2 (2 * (ilog2 q / 2 - (prec - 1))) in
  inject_Z (2 ^ 104) <= t /\ t < inject_Z (2 ^ 106)
  /\ (2 ^ 52 <= Z.sqrt (Qfloor t) < 2 ^ 53)%Z.
Proof.
  intros H. cbv zeta. unfold prec.
  set (e := (ilog2 q / 2 - (53 - 1))%Z). set (t := q / pow2 (2 * e)).
  destruct (ilog2_spec q H) as [L U].
  pose proof (Z.mul_div_le (ilog2 q) 2 ltac:(lia)) as D1.
  pose proof (Z.mul_succ_div_gt (ilog2 q) 2 ltac:(lia)) as D2.
  pose proof (pow2_pos (2 * e)) as Pe.
  assert (T1 : inject_Z (2 ^ 104) <= t).
  { unfold t. apply Qle_shift_div_l; [exact Pe|].
    rewrite pow2_inject, <- pow2_add by lia.
    apply Qle_trans with (2 := L). apply pow2_le. unfold e. lia. }
  assert (T2 : t < inject_Z (2 ^ 106)).
  { unfold t. apply Qlt_shift_div_r; [exact Pe|].
    rewrite pow2_inject, <- pow2_add by lia.
    apply Qlt_le_trans with (1 := U). apply pow2_le. unfold e. lia. }
  assert (F1 : (2 ^ 104 <= Qfloor t)%Z).
  { rewrite <- (Qfloor_Z (2 ^ 104)). now apply Qfloor_resp_le. }
  assert (F2 : (Qfloor t < 2 ^ 106)%Z).
  { rewrite Zlt_Qlt. apply Qle_lt_trans with (2 := T2). apply Qfloor_le. }
  split; [exact T1|]. split; [exact T2|]. split.
  - change (2 ^ 52)%Z with (Z.sqrt (2 ^ 104)). now apply Z.sqrt_le_mono.
  - apply Z.sqrt_lt_square; [lia | lia|].
    change (2 ^ 53 * 2 ^ 53)%Z with (2 ^ 106)%Z. exact F2.
Qed.

Lemma fsqrt_significand q :
  0 < q ->
  (2 ^ 52 <= rne_sqrt (q / pow2 (2 * (ilog2 q / 2 - (prec - 1)))) <= 2 ^ 53)%Z.
Proof.
  intros H. destruct (fsqrt_scaled q H) as (_ & _ & M).
  pose proof (rne_sqrt_bounds (q / pow2 (2 * (ilog2 q / 2 - (prec - 1))))).
  cbv zeta in M. lia.
Qed.

Lemma fsqrt_pos q : 0 < q -> 0 < fsqrt q.
Proof.
  intros H. rewrite (fsqrt_nonzero q H). cbv zeta. rewrite Qred_correct.
  pose proof (fsqrt_significand q H) as M.
  apply Qmult_lt_0_compat; [|apply pow2_pos].
  change 0 with (inject_Z 0). rewrite <- Zlt_Qlt. lia.
Qed.

Lemma fsqrt_nonneg q : 0 <= fsqrt q.
Proof.
  destruct (Qlt_le_dec 0 q) as [P|N].
  - now apply Qlt_le_weak, fsqrt_pos.
  - rewrite (fsqrt_zero q N). apply Qle_refl.
Qed.

(** [fsqrt q] is a nearest binary64 number to the square root of [q]:
    [q] lies between the squares of the two midpoints around it. *)
Lemma fsqrt_nearest q :
  0 < q ->
  let h := (1 # 2) * pow2 (ilog2 q / 2 - (prec - 1)) in
  0 <= fsqrt q - h
  /\ (fsqrt q - h) * (fsqrt q - h) <= q
  /\ q <= (fsqrt q + h) * (fsqrt q + h).
Proof.
  intros H. rewrite (fsqrt_nonzero q H). cbv zeta. rewrite Qred_correct.
  destruct (fsqrt_scaled q H) as (T1 & _ & M1 & _). cbv zeta in T1, M1.
  set (e := (ilog2 q / 2 - (prec - 1))%Z) in *.
  pose proof (pow2_pos e) as Pe. set (p := pow2 e) in *.
  set (t := q / pow2 (2 * e)) in *.
  assert (Et : q == t * (p * p)).
  { unfold t, p. replace (2 * e)%Z with (e + e)%Z by lia.
    rewrite pow2_add. field. unfold p in Pe. lra. }
  assert (Hf : (0 <= Qfloor t)%Z).
  { change 0%Z with (Qfloor (inject_Z 0)). apply Qfloor_resp_le.
    apply Qle_trans with (2 := T1). discriminate. }
  set (m := Z.sqrt (Qfloor t)) in *.
  destruct (Z.sqrt_spec (Qfloor t) Hf) as [S1 S2]. fold m in S1, S2.
  pose proof (Qfloor_le t) as F1. pose proof (Qlt_floor t) as F2.
  assert (Q1 : inject_Z m * inject_Z m <= t).
  { apply Qle_trans with (2 := F1). rewrite <- inject_Z_mult.
    now rewrite <- Zle_Qle. }
  assert (Q2 : t < (inject_Z m + 1) * (inject_Z m + 1)).
  { apply Qlt_le_trans with (1 := F2).
    rewrite <- inject_Z_succ, <- inject_Z_mult, <- Zle_Qle.
    unfold Z.succ in S2. lia. }
  assert (Qm : 1 <= inject_Z m)
    by (change 1 with (inject_Z 1); rewrite <- Zle_Qle; lia).
  assert (K : forall r : Z,
    (inject_Z r - (1 # 2)) * (inject_Z r - (1 # 2)) <= t ->
    t <= (inject_Z r + (1 # 2)) * (inject_Z r + (1 # 2)) ->
    1 <= inject_Z r ->
    0 <= inject_Z r * p - (1 # 2) * p
    /\ (inject_Z r * p - (1 # 2) * p) * (inject_Z r * p - (1 # 2) * p) <= q
    /\ q <= (inject_Z r * p + (1 # 2) * p) * (inject_Z r * p + (1 # 2) * p)).
  { intros r L U R1.
    assert (P2 : 0 <= p * p) by (apply Qmult_le_0_compat; lra).
    split; [|split].
    - setoid_replace (inject_Z r * p - (1 # 2) * p)
        with ((inject_Z r - (1 # 2)) * p) by ring.
      apply Qmult_le_0_compat; lra.
    - rewrite Et.
      setoid_replace ((inject_Z r * p - (1 # 2) * p)
                      * (inject_Z r * p - (1 # 2) * p))
        with ((inject_Z r - (1 # 2)) * (inject_Z r - (1 # 2)) * (p * p))
        by ring.
      now apply Qmult_le_compat_r.
    - rewrite Et.
      setoid_replace ((inject_Z r * p + (1 # 2) * p)
                      * (inject_Z r * p + (1 # 2) * p))
        with ((inject_Z r + (1 # 2)) * (inject_Z r + (1 # 2)) * (p * p))
        by ring.
      now apply Qmult_le_compat_r. }
  destruct (rne_sqrt_cases t) as [[C R]|[[C R]|[C R]]];
    fold m in C, R; rewrite R.
  - apply K; lra.
  - destruct (Z.even m); apply K; rewrite ?inject_Z_succ; lra.
  - apply K; rewrite inject_Z_succ; lra.
Qed.

Lemma fsqrt_mono q1 q2 : q1 <= q2 -> fsqrt q1 <= fsqrt q2.
Proof.
  intros H. destruct (Qlt_le_dec 0 q1) as [P1|N1].
  - assert (P2 : 0 < q2) by lra.
    rewrite (fsqrt_nonzero q1 P1), (fsqrt_nonzero q2 P2). cbv zeta.
    rewrite !Qred_correct.
    pose proof (fsqrt_significand q1 P1) as M1.
    pose proof (fsqrt_significand q2 P2) as M2.
    pose proof (ilog2_mono q1 q2 P1 H) as Hi.
    assert (He : (ilog2 q1 / 2 - (prec - 1) <= ilog2 q2 / 2 - (prec - 1))%Z)
      by (pose proof (Z.div_le_mono _ _ 2 ltac:(lia) Hi); lia).
    set (e1 := (ilog2 q1 / 2 - (prec - 1))%Z) in *.
    set (e2 := (ilog2 q2 / 2 - (prec - 1))%Z) in *.
    destruct (Z.eq_dec e1 e2) as [E|N].
    + rewrite <- E. apply Qmult_le_compat_r; [|apply Qlt_le_weak, pow2_pos].
      rewrite <- Zle_Qle. apply rne_sqrt_mono.
      apply Qmult_le_compat_r; [exact H|].
      apply Qlt_le_weak, Qinv_lt_0_compat, pow2_pos.
    + apply Qle_trans with (pow2 (e1 + 53)).
      * rewrite Z.add_comm, pow2_add, pow2_53.
        apply Qmult_le_compat_r; [|apply Qlt_le_weak, pow2_pos].
        rewrite <- Zle_Qle. lia.
      * apply Qle_trans with (pow2 (52 + e2)).
        -- apply pow2_le. lia.
        -- rewrite pow2_add, pow2_52.
           apply Qmult_le_compat_r; [|apply Qlt_le_weak, pow2_pos].
           rewrite <- Zle_Qle. lia.
  - rewrite (fsqrt_zero q1 N1). apply fsqrt_nonneg.
Qed.

End Sqrt.

Section Trunc.

Local Open Scope Q_scope.

Lemma trunc_inject z : trunc (inject_Z z) = z.
Proof.
  unfold trunc. destruct (Qle_bool 0 (inject_Z z));
    [apply Qfloor_Z | apply Qceiling_Z].
Qed.

Lemma trunc_mono q1 q2 : q1 <= q2 -> (trunc q1 <= trunc q2)%Z.
Proof.
  intros H. unfold trunc.
  destruct (Qle_bool 0 q1) eqn:E1; destruct (Qle_bool 0 q2) eqn:E2.
  - now apply Qfloor_resp_le.
  - apply Qle_bool_iff in E1.
    assert (~ 0 <= q2) by (rewrite <- Qle_bool_iff; congruence). lra.
  - apply Qle_bool_iff in E2.
    assert (N1 : ~ 0 <= q1) by (rewrite <- Qle_bool_iff; congruence).
    apply Z.le_trans with 0%Z.
    + change 0%Z with (Qceiling (inject_Z 0)). apply Qceiling_resp_le.
      change (inject_Z 0) with 0. lra.
    + change 0%Z with (Qfloor (inject_Z 0)). now apply Qfloor_resp_le.
  - now apply Qceiling_resp_le.
Qed.

Lemma trunc_proper q1 q2 : q1 == q2 -> trunc q1 = trunc q2.
Proof.
  intros E. apply Z.le_antisymm; apply trunc_mono; rewrite E; apply Qle_refl.
Qed.

End Trunc.

(** ** The float64 generators, pixel by pixel *)

Section GeneratorForms.

Variable oob : Q -> Z.

Lemma generate_gradient_mask_tabulate w h :
  generate_gradient_mask oob w h
  = (tabulate h w (fun _ x => to_i16 oob (gradient_ramp x w)),
     tabulate h w (fun y _ => to_i16 oob (gradient_ramp y h))).
Proof.
  unfold generate_gradient_mask, gradient_ramp. rewrite mgrid_tabulate.
  rewrite !mat_map_tabulate. reflexivity.
Qed.

Lemma generate_radial_mask_tabulate w h intensity :
  generate_radial_mask oob w h intensity
  = let t := tabulate h w
               (fun y x => to_i16 oob (radial_value w h intensity x y)) in
    (t, t).
Proof.
  unfold generate_radial_mask, radial_value, radial_dist, radial_max_dist.
  rewrite mgrid_tabulate.
  rewrite !mat_map_tabulate, !mat_map2_tabulate, !mat_map_tabulate.
  reflexivity.
Qed.

Lemma to_i16_in_range v :
  -32768 <= trunc v <= 32767 -> to_i16 oob v = trunc v.
Proof.
  intros [L U]. unfold to_i16.
  apply Z.leb_le in L, U. now rewrite L, U.
Qed.

Lemma to_i16_range v : i16 (to_i16 oob v).
Proof.
  unfold to_i16, i16.
  destruct (-32768 <=? trunc v) eqn:L; [destruct (trunc v <=? 32767) eqn:U|];
    cbn [andb]; try apply wrap_i16_range.
  apply Z.leb_le in L, U. lia.
Qed.

End GeneratorForms.

(** ** The gradient ramp *)

Section RampFacts.

Local Open Scope Q_scope.

Lemma of_int_mono a b : (a <= b)%Z -> of_int a <= of_int b.
Proof. intros H. apply round_mono. now rewrite <- Zle_Qle. Qed.

Lemma of_int_0 : of_int 0 = 0.
Proof. reflexivity. Qed.

Lemma of_int_1 : of_int 1 = 1.
Proof. vm_compute. reflexivity. Qed.

Lemma of_int_1000 : of_int 1000 = 1000.
Proof. vm_compute. reflexivity. Qed.

Lemma of_int_2000 : of_int 2000 = 2000.
Proof. vm_compute. reflexivity. Qed.

Lemma round_1 : round 1 = 1.
Proof. vm_compute. reflexivity. Qed.

Lemma round_half : round (1 # 2) = 1 # 2.
Proof. vm_compute. reflexivity. Qed.

Lemma round_1000 : round 1000 = 1000.
Proof. vm_compute. reflexivity. Qed.

Lemma round_2000 : round 2000 = 2000.
Proof. vm_compute. reflexivity. Qed.

Lemma of_int_ge_1 z : (1 <= z)%Z -> 1 <= of_int z.
Proof. intros H. rewrite <- of_int_1. now apply of_int_mono. Qed.

Lemma of_int_nonneg z : (0 <= z)%Z -> 0 <= of_int z.
Proof. intros H. rewrite <- of_int_0. now apply of_int_mono. Qed.

Lemma gradient_ramp_eq n e :
  gradient_ramp n e = round (round (round (of_int n / of_int e) * 2000) - 1000).
Proof.
  unfold gradient_ramp, fsub, fmul, fdiv. now rewrite of_int_1000, of_int_2000.
Qed.

Lemma gradient_ramp_mono n1 n2 e :
  (n1 <= n2)%Z -> (0 < e)%Z -> gradient_ramp n1 e <= gradient_ramp n2 e.
Proof.
  intros Hn He. rewrite !gradient_ramp_eq.
  pose proof (of_int_ge_1 e ltac:(lia)) as Pe.
  pose proof (of_int_mono n1 n2 Hn) as Hm.
  assert (H1 : round (of_int n1 / of_int e) <= round (of_int n2 / of_int e)).
  { apply round_mono. apply Qmult_le_compat_r; [exact Hm|].
    apply Qlt_le_weak, Qinv_lt_0_compat. lra. }
  assert (H2 : round (round (of_int n1 / of_int e) * 2000)
               <= round (round (of_int n2 / of_int e) * 2000))
    by (apply round_mono; lra).
  apply round_mono. lra.
Qed.

Lemma gradient_ramp_0 e : gradient_ramp 0 e = - (1000).
Proof.
  rewrite gradient_ramp_eq, of_int_0.
  rewrite (round_zero (0 / of_int e)) by (unfold Qdiv; ring).
  rewrite (round_zero (0 * 2000)) by ring.
  vm_compute. reflexivity.
Qed.

Lemma gradient_ramp_full e : (0 < e)%Z -> gradient_ramp e e = 1000.
Proof.
  intros He. rewrite gradient_ramp_eq.
  pose proof (of_int_ge_1 e ltac:(lia)) as Pe.
  rewrite (round_proper (of_int e / of_int e) 1) by (field; lra).
  rewrite round_1.
  rewrite (round_proper (1 * 2000) 2000) by ring.
  rewrite round_2000. vm_compute. reflexivity.
Qed.

Lemma gradient_ramp_bounds n e :
  (0 <= n <= e)%Z -> (0 < e)%Z ->
  - (1000) <= gradient_ramp n e /\ gradient_ramp n e <= 1000.
Proof.
  intros Hn He. split.
  - rewrite <- (gradient_ramp_0 e). apply gradient_ramp_mono; lia.
  - rewrite <- (gradient_ramp_full e He). apply gradient_ramp_mono; lia.
Qed.

Lemma of_int_pow2 k : (0 <= k)%Z -> of_int (2 ^ k) == pow2 k.
Proof.
  intros H. unfold of_int.
  rewrite (round_proper _ _ (pow2_inject k H)).
  apply round_pow2. unfold emin. lia.
Qed.

(** The last pixel of a ramp over at least two pixels is not below 0. *)
Lemma gradient_ramp_last e : (2 <= e)%Z -> 0 <= gradient_ramp (e - 1) e.
Proof.
  intros He. rewrite gradient_ramp_eq.
  set (k := Z.log2 (e - 1)).
  destruct (Z.log2_spec (e - 1) ltac:(lia)) as [L U]. fold k in L, U.
  assert (Hk : (0 <= k)%Z) by apply Z.log2_nonneg.
  assert (A : pow2 k <= of_int (e - 1))
    by (rewrite <- of_int_pow2 by exact Hk; now apply of_int_mono).
  assert (B : of_int e <= 2 * pow2 k).
  { setoid_replace (2 * pow2 k) with (pow2 (k + 1))
      by (rewrite pow2_add; change (pow2 1) with 2; ring).
    rewrite <- of_int_pow2 by lia. apply of_int_mono.
    rewrite Z.add_1_r. lia. }
  pose proof (of_int_ge_1 e ltac:(lia)) as Pe.
  assert (R : 1 # 2 <= of_int (e - 1) / of_int e)
    by (apply Qle_shift_div_l; lra).
  assert (R1 : 1 # 2 <= round (of_int (e - 1) / of_int e))
    by (rewrite <- round_half; now apply round_mono).
  assert (R2 : 1000 <= round (round (of_int (e - 1) / of_int e) * 2000))
    by (rewrite <- round_1000; apply round_mono; lra).
  change 0 with (round 0). apply round_mono. lra.
Qed.

Lemma trunc_ramp_bounds n e :
  (0 <= n <= e)%Z -> (0 < e)%Z ->
  (-1000 <= trunc (gradient_ramp n e) <= 1000)%Z.
Proof.
  intros Hn He. destruct (gradient_ramp_bounds n e Hn He) as [L U].
  split.
  - rewrite <- (trunc_inject (-1000)). now apply trunc_mono.
  - rewrite <- (trunc_inject 1000). now apply trunc_mono.
Qed.

End RampFacts.

(** ** Rounding error *)

Section RoundError.

Local Open Scope Q_scope.

Lemma round_error_ulp q :
  ~ q == 0 -> Qabs (round q - q) <= (1 # 2) * pow2 (ulp_exp q).
Proof.
  intros N. rewrite (round_nonzero q N), Qred_correct.
  set (e := ulp_exp q). pose proof (pow2_pos e) as Pe.
  setoid_replace (inject_Z (rne (q / pow2 e)) * pow2 e - q)
    with ((inject_Z (rne (q / pow2 e)) - q / pow2 e) * pow2 e)
    by (field; lra).
  rewrite Qabs_Qmult, (Qabs_pos (pow2 e)) by lra.
  apply Qmult_le_compat_r; [apply rne_error | lra].
Qed.

Lemma round_error_below q k :
  Qabs q < pow2 (k + 1) -> (emin <= k - 52)%Z ->
  Qabs (round q - q) <= pow2 (k - 53).
Proof.
  intros Hq Hk. destruct (Qeq_dec q 0) as [Z|N].
  - rewrite (round_zero q Z), Z.
    setoid_replace (0 - 0) with 0 by ring.
    apply Qlt_le_weak, pow2_pos.
  - apply Qle_trans with (1 := round_error_ulp q N).
    pose proof (Qabs_pos_nonzero q N) as Pa.
    destruct (ilog2_spec _ Pa) as [L _].
    assert (Hi : (ilog2 (Qabs q) < k + 1)%Z)
      by (apply pow2_lt_inv; apply Qle_lt_trans with (1 := L); exact Hq).
    assert (He : (ulp_exp q <= k - 52)%Z) by (unfold ulp_exp, prec; lia).
    apply Qle_trans with ((1 # 2) * pow2 (k - 52)).
    + apply Qmult_le_l; [reflexivity | now apply pow2_le].
    + rewrite (pow2_split (k - 52) (k - 53)).
      replace (k - 52 - (k - 53))%Z with 1%Z by lia.
      change (pow2 1) with 2.
      assert (0 < pow2 (k - 53)) by apply pow2_pos. lra.
Qed.

Lemma of_int_error z :
  (0 <= z)%Z -> Qabs (of_int z - inject_Z z) <= inject_Z z * pow2 (-53).
Proof.
  intros Hz. destruct (Z.eq_dec z 0) as [->|Nz].
  - rewrite of_int_0. vm_compute. discriminate.
  - assert (P : 1 <= inject_Z z)
      by (change 1 with (inject_Z 1); rewrite <- Zle_Qle; lia).
    assert (Pq : 0 < inject_Z z) by lra.
    destruct (ilog2_spec _ Pq) as [L U].
    assert (Hk : (0 <= ilog2 (inject_Z z))%Z).
    { assert (H : (0 < ilog2 (inject_Z z) + 1)%Z); [|lia].
      apply pow2_lt_inv. apply Qle_lt_trans with (2 := U). exact P. }
    unfold of_int.
    apply Qle_trans with (pow2 (ilog2 (inject_Z z) - 53)).
    + apply round_error_below; [|unfold emin; lia].
      rewrite Qabs_pos by lra. exact U.
    + rewrite (pow2_split (ilog2 (inject_Z z) - 53) (-53)).
      replace (ilog2 (inject_Z z) - 53 - -53)%Z
        with (ilog2 (inject_Z z)) by lia.
      apply Qmult_le_compat_r; [exact L | apply Qlt_le_weak, pow2_pos].
Qed.

End RoundError.

Section RampError.

Local Open Scope Q_scope.

Lemma div_error (A B I N : Q) :
  0 <= I -> I <= N -> 1 <= N ->
  Qabs (A - I) <= I * pow2 (-53) ->
  Qabs (B - N) <= N * pow2 (-53) ->
  0 < B /\ 0 <= A / B /\ Qabs (A / B - I / N) <= 3 * pow2 (-53).
Proof.
  change (pow2 (-53)) with (1 # 9007199254740992).
  intros I0 IN N1 HA HB.
  apply Qabs_Qle_condition in HA, HB. destruct HA as [A1 A2], HB as [B1 B2].
  assert (PB : 0 < B) by lra.
  assert (PA : 0 <= A) by lra.
  split; [exact PB|]. split.
  - apply Qle_shift_div_l; [exact PB | lra].
  - set (R := I / N).
    assert (RN : R * N == I) by (unfold R; field; lra).
    assert (R0 : 0 <= R) by (unfold R; apply Qle_shift_div_l; lra).
    assert (R1 : R <= 1) by (unfold R; apply Qle_shift_div_r; lra).
    apply Qabs_Qle_condition. split.
    + apply Qle_minus_iff.
      setoid_replace (A / B - R + - - (3 * (1 # 9007199254740992)))
        with ((A - (R - 3 * (1 # 9007199254740992)) * B) / B) by (field; lra).
      apply Qle_shift_div_l; [exact PB|]. rewrite Qmult_0_l.
      destruct (Qlt_le_dec R (3 * (1 # 9007199254740992))) as [S|S].
      * assert (0 <= (3 * (1 # 9007199254740992) - R) * B)
          by (apply Qmult_le_0_compat; lra).
        lra.
      * assert (T1 : 0 <= (R - 3 * (1 # 9007199254740992))
                         * (N + N * (1 # 9007199254740992) - B))
          by (apply Qmult_le_0_compat; lra).
        assert (T2 : 0 <= N * (3 * (1 # 9007199254740992)
                               + 3 * (1 # 9007199254740992) * (1 # 9007199254740992)
                               - 2 * (1 # 9007199254740992) * R))
          by (apply Qmult_le_0_compat; lra).
        lra.
    + apply Qle_minus_iff.
      setoid_replace (3 * (1 # 9007199254740992) + - (A / B - R))
        with (((R + 3 * (1 # 9007199254740992)) * B - A) / B) by (field; lra).
      apply Qle_shift_div_l; [exact PB|]. rewrite Qmult_0_l.
      assert (T1 : 0 <= (R + 3 * (1 # 9007199254740992))
                       * (B - (N - N * (1 # 9007199254740992))))
        by (apply Qmult_le_0_compat; lra).
      assert (T2 : 0 <= N * (3 * (1 # 9007199254740992)
                             - 3 * (1 # 9007199254740992) * (1 # 9007199254740992)
                             - 2 * (1 # 9007199254740992) * R))
        by (apply Qmult_le_0_compat; lra).
      lra.
Qed.

Lemma gradient_ramp_error i n :
  (0 <= i <= n)%Z -> (0 < n)%Z ->
  Qabs (gradient_ramp i n - exact_ramp i n) <= pow2 (-39).
Proof.
  intros Hi Hn. rewrite gradient_ramp_eq. unfold exact_ramp.
  assert (I0 : 0 <= inject_Z i)
    by (change 0 with (inject_Z 0); rewrite <- Zle_Qle; lia).
  assert (IN : inject_Z i <= inject_Z n) by (rewrite <- Zle_Qle; lia).
  assert (N1 : 1 <= inject_Z n)
    by (change 1 with (inject_Z 1); rewrite <- Zle_Qle; lia).
  destruct (div_error (of_int i) (of_int n) (inject_Z i) (inject_Z n)
              I0 IN N1 (of_int_error i ltac:(lia)) (of_int_error n ltac:(lia)))
    as (PB & C0 & CE).
  set (R := inject_Z i / inject_Z n) in *.
  assert (R0 : 0 <= R) by (unfold R; apply Qle_shift_div_l; lra).
  assert (R1 : R <= 1) by (unfold R; apply Qle_shift_div_r; lra).
  set (C := of_int i / of_int n) in *.
  change (pow2 (-53)) with (1 # 9007199254740992) in CE.
  apply Qabs_Qle_condition in CE. destruct CE as [C1 C2].
  (* the quotient *)
  assert (DE : Qabs (round C - C) <= pow2 (0 - 53)).
  { apply round_error_below; [|unfold emin; lia].
    rewrite Qabs_pos by exact C0. change (pow2 (0 + 1)) with 2. lra. }
  change (pow2 (0 - 53)) with (1 # 9007199254740992) in DE.
  apply Qabs_Qle_condition in DE. destruct DE as [D1 D2].
  set (D := round C) in *.
  (* the product *)
  assert (PE : Qabs (round (D * 2000) - D * 2000) <= pow2 (10 - 53)).
  { apply round_error_below; [|unfold emin; lia].
    change (pow2 (10 + 1)) with 2048.
    apply Qabs_Qlt_condition. split; lra. }
  change (pow2 (10 - 53)) with (1 # 8796093022208) in PE.
  apply Qabs_Qle_condition in PE. destruct PE as [P1 P2].
  set (P := round (D * 2000)) in *.
  (* the difference *)
  assert (SE : Qabs (round (P - 1000) - (P - 1000)) <= pow2 (9 - 53)).
  { apply round_error_below; [|unfold emin; lia].
    change (pow2 (9 + 1)) with 1024.
    apply Qabs_Qlt_condition. split; lra. }
  change (pow2 (9 - 53)) with (1 # 17592186044416) in SE.
  apply Qabs_Qle_condition in SE. destruct SE as [S1 S2].
  change (pow2 (-39)) with (1 # 549755813888).
  apply Qabs_Qle_condition. split; lra.
Qed.

Lemma trunc_near q :
  q - 1 < inject_Z (trunc q) /\ inject_Z (trunc q) < q + 1.
Proof.
  unfold trunc. destruct (Qle_bool 0 q).
  - pose proof (Qfloor_le q). pose proof (Qlt_floor q) as H1.
    rewrite inject_Z_succ in H1. split; lra.
  - pose proof (Qle_ceiling q). pose proof (Qceiling_lt q) as H1.
    rewrite inject_Z_pred in H1. split; lra.
Qed.

(** The integer part of the float64 ramp is within 1 (and the rounding
    error) of the exact value of the expression. *)
Lemma trunc_ramp_near i n :
  (0 <= i <= n)%Z -> (0 < n)%Z ->
  exact_ramp i n - 1 - pow2 (-39) < inject_Z (trunc (gradient_ramp i n))
  /\ inject_Z (trunc (gradient_ramp i n)) < exact_ramp i n + 1 + pow2 (-39).
Proof.
  intros Hi Hn. pose proof (gradient_ramp_error i n Hi Hn) as E.
  apply Qabs_Qle_condition in E. destruct E as [E1 E2].
  destruct (trunc_near (gradient_ramp i n)) as [T1 T2].
  split; lra.
Qed.

End RampError.

(** ** The gradient generator *)

Section Gradient.

Variable oob : Q -> Z.

Lemma is_ramp_intro (value : Z -> Z -> option Z) (n_along n_across : Z) :
  0 < n_along ->
  (forall i j, 0 <= i < n_along -> 0 <= j < n_across ->
     value i j = Some (to_i16 oob (gradient_ramp i n_along))) ->
  (forall i j v, value i j = Some v ->
     0 <= i < n_along /\ 0 <= j < n_across) ->
  is_ramp value n_along n_across.
Proof.
  intros Hn Hv Hinv.
  assert (V : forall i j, 0 <= i < n_along -> 0 <= j < n_across ->
                value i j = Some (trunc (gradient_ramp i n_along))).
  { intros i j Hi Hj. rewrite Hv by assumption. f_equal.
    apply to_i16_in_range.
    pose proof (trunc_ramp_bounds i n_along ltac:(lia) Hn). lia. }
  unfold is_ramp.
  split; [exact V|]. split; [|split; [|split; [|split; [|split]]]].
  - intros j Hj. rewrite V by lia. rewrite gradient_ramp_0.
    reflexivity.
  - intros i1 i2 j v1 v2 Hi H1 H2.
    destruct (Hinv _ _ _ H1) as [R1 Rj]. destruct (Hinv _ _ _ H2) as [R2 _].
    rewrite V in H1, H2 by assumption.
    injection H1 as <-. injection H2 as <-.
    apply trunc_mono. apply gradient_ramp_mono; lia.
  - intros i j1 j2 H1 H2.
    destruct (value i j1) as [v1|] eqn:E1.
    + destruct (Hinv _ _ _ E1) as [Ri _]. rewrite V in E1 by assumption.
      rewrite V by assumption. now rewrite <- E1.
    + destruct (value i j2) as [v2|] eqn:E2; [|reflexivity].
      destruct (Hinv _ _ _ E2) as [Ri _].
      rewrite V in E1 by assumption. discriminate.
  - intros i j v H. destruct (Hinv _ _ _ H) as [Ri Rj].
    rewrite V in H by assumption. injection H as <-.
    apply trunc_ramp_bounds; lia.
  - intros i j v H. destruct (Hinv _ _ _ H) as [Ri Rj].
    rewrite V in H by assumption. injection H as <-.
    apply trunc_ramp_near; lia.
  - intros H2 j Hj. eexists. split; [apply V; lia|].
    rewrite <- (trunc_inject 0). apply trunc_mono.
    now apply gradient_ramp_last.
Qed.

(** C6 (as amended).  For positive [width] and [height] the generator
    returns arrays A and B such that A's value at pixel (x, y) is the
    integer part of the float64 value [(x/width)*2000 - 1000]: it is -1000
    at x = 0, non-decreasing along x, constant along y, between -1000 and
    1000, within 1 + 2^-39 of the exact [(x/width)*2000 - 1000] (so about
    [1000 - 2000/width] at x = width-1), and at x = width-1 at least 0 when
    the width is at least 2.  B is the same ramp along y.  A and B differ
    whenever the width or the height exceeds 1; for a single pixel both
    hold -1000. *)
Theorem generate_gradient_mask_pattern (width height : Z) :
  0 < width -> 0 < height ->
  exists A B,
    generate_gradient_mask oob width height = (A, B)
    /\ is_ramp (fun x y => get A y x) width height
    /\ is_ramp (fun y x => get B y x) height width
    /\ (1 < width \/ 1 < height -> A <> B)
    /\ (width = 1 -> height = 1 -> A = [[-1000]] /\ B = [[-1000]]).
Proof.
  intros Hw Hh. rewrite generate_gradient_mask_tabulate.
  set (A := tabulate height width
              (fun _ x => to_i16 oob (gradient_ramp x width))).
  set (B := tabulate height width
              (fun y _ => to_i16 oob (gradient_ramp y height))).
  assert (RA : is_ramp (fun x y => get A y x) width height).
  { apply is_ramp_intro; [exact Hw | |].
    - intros i j Hi Hj. unfold A. now rewrite get_tabulate.
    - intros i j v H. unfold A in H. apply get_tabulate_inv in H. tauto. }
  assert (RB : is_ramp (fun y x => get B y x) height width).
  { apply is_ramp_intro; [exact Hh | |].
    - intros i j Hi Hj. unfold B. now rewrite get_tabulate.
    - intros i j v H. unfold B in H. apply get_tabulate_inv in H. tauto. }
  exists A, B. split; [reflexivity|]. split; [exact RA|]. split; [exact RB|].
  split.
  - destruct RA as (_ & A0 & _ & _ & _ & _ & AL).
    destruct RB as (_ & B0 & _ & _ & _ & _ & BL).
    intros [H|H] E.
    + destruct (AL ltac:(lia) 0 ltac:(lia)) as (v & Ev & Pv).
      rewrite E, (B0 (width - 1)) in Ev by lia.
      injection Ev as <-. lia.
    + destruct (BL ltac:(lia) 0 ltac:(lia)) as (v & Ev & Pv).
      rewrite <- E, (A0 (height - 1)) in Ev by lia.
      injection Ev as <-. lia.
  - intros -> ->. unfold A, B. rewrite !tabulate_1_1, gradient_ramp_0.
    split; reflexivity.
Qed.

End Gradient.

Lemma generate_gradient_mask_pattern_witness :
  exists A B,
    generate_gradient_mask cast_via_int32 400 300 = (A, B)
    /\ get A 0 0 = Some (-1000)
    /\ get A 0 399 = Some 995
    /\ get B 299 0 = Some 993
    /\ A <> B.
Proof.
  destruct (generate_gradient_mask_pattern cast_via_int32 400 300)
    as (A & B & E & (VA & A0 & _) & (VB & _) & D & _); [lia | lia |].
  exists A, B. split; [exact E|].
  split; [apply A0; lia|].
  split; [rewrite (VA 399 0) by lia; vm_compute; reflexivity|].
  split; [rewrite (VB 299 0) by lia; vm_compute; reflexivity|].
  apply D. left. lia.
Defined.

(** C6, the claim as stated fails: for a single pixel the value at
    x = width-1 is -1000, not about +1000, and A and B are equal. *)
Lemma generate_gradient_mask_single_pixel :
  generate_gradient_mask cast_via_int32 1 1 = ([[-1000]], [[-1000]]).
Proof. vm_compute. reflexivity. Qed.

(** ** The radial generator *)

Section RadialFacts.

Local Open Scope Q_scope.

Lemma int_truediv_half_ge w : (0 < w)%Z -> 1 # 2 <= int_truediv w 2.
Proof.
  intros H. unfold int_truediv. rewrite <- round_half. apply round_mono.
  change (inject_Z 2) with 2.
  apply Qle_shift_div_l; [reflexivity|].
  assert (1 <= inject_Z w) by (change 1 with (inject_Z 1); rewrite <- Zle_Qle; lia).
  lra.
Qed.

Lemma round_quarter : round (1 # 4) = 1 # 4.
Proof. vm_compute. reflexivity. Qed.

Lemma radial_max_dist_pos w h :
  (0 < w)%Z -> (0 < h)%Z -> 0 < radial_max_dist w h.
Proof.
  intros Hw Hh. unfold radial_max_dist. cbv zeta.
  pose proof (int_truediv_half_ge w Hw) as Cx.
  pose proof (int_truediv_half_ge h Hh) as Cy.
  set (cx := int_truediv w 2) in *. set (cy := int_truediv h 2) in *.
  assert (Sx : 1 # 4 <= fmul cx cx).
  { unfold fmul. rewrite <- round_quarter. apply round_mono.
    setoid_replace (1 # 4) with ((1 # 2) * (1 # 2)) by reflexivity.
    apply Qle_trans with ((1 # 2) * cx).
    - apply Qmult_le_l; [reflexivity | exact Cx].
    - apply Qmult_le_compat_r; [exact Cx | lra]. }
  assert (Sy : 1 # 4 <= fmul cy cy).
  { unfold fmul. rewrite <- round_quarter. apply round_mono.
    setoid_replace (1 # 4) with ((1 # 2) * (1 # 2)) by reflexivity.
    apply Qle_trans with ((1 # 2) * cy).
    - apply Qmult_le_l; [reflexivity | exact Cy].
    - apply Qmult_le_compat_r; [exact Cy | lra]. }
  apply fsqrt_pos. unfold fadd.
  apply Qlt_le_trans with (1 # 2); [reflexivity|].
  rewrite <- round_half. apply round_mono. lra.
Qed.

(** The corner pixel (0, 0) is at the distance [max_dist] exactly: its
    offsets from the centre are the centre's coordinates negated. *)
Lemma radial_dist_corner w h : radial_dist w h 0 0 = radial_max_dist w h.
Proof.
  unfold radial_dist, radial_max_dist. cbv zeta.
  set (cx := int_truediv w 2). set (cy := int_truediv h 2).
  assert (N : forall c, round c = c -> fsub (of_int 0) c == - c).
  { intros c Hc. unfold fsub. rewrite of_int_0.
    rewrite (round_proper (0 - c) (- c)) by ring.
    rewrite round_opp. now rewrite Hc. }
  assert (Hx : fsub (of_int 0) cx == - cx) by (apply N, round_idem).
  assert (Hy : fsub (of_int 0) cy == - cy) by (apply N, round_idem).
  assert (Mx : fmul (fsub (of_int 0) cx) (fsub (of_int 0) cx) = fmul cx cx)
    by (apply round_proper; rewrite Hx; ring).
  assert (My : fmul (fsub (of_int 0) cy) (fsub (of_int 0) cy) = fmul cy cy)
    by (apply round_proper; rewrite Hy; ring).
  now rewrite Mx, My.
Qed.

Lemma radial_value_corner w h intensity :
  (0 < w)%Z -> (0 < h)%Z -> radial_value w h intensity 0 0 = 0.
Proof.
  intros Hw Hh. unfold radial_value. rewrite radial_dist_corner.
  pose proof (radial_max_dist_pos w h Hw Hh) as P.
  generalize dependent (radial_max_dist w h). intros d P.
  unfold fdiv. rewrite (round_proper (d / d) 1) by (field; lra).
  rewrite round_1, of_int_1. unfold fsub.
  rewrite (round_zero (1 - 1)) by ring.
  unfold fmul. apply round_zero. ring.
Qed.

(** For even dimensions the centre is a pixel, at distance 0. *)
Lemma radial_value_center w h intensity :
  (0 < w)%Z -> (0 < h)%Z -> Z.even w = true -> Z.even h = true ->
  radial_value w h intensity (w / 2) (h / 2) = round intensity.
Proof.
  intros Hw Hh Ew Eh. unfold radial_value, radial_dist. cbv zeta.
  generalize (radial_max_dist w h). intros d.
  assert (C : forall n, Z.even n = true -> of_int (n / 2) = int_truediv n 2).
  { intros n En. unfold of_int, int_truediv. apply round_proper.
    apply Z.even_spec in En. destruct En as [k ->].
    rewrite Z.mul_comm, Z.div_mul by lia.
    rewrite inject_Z_mult. change (inject_Z 2) with 2. field. }
  rewrite (C w Ew), (C h Eh).
  set (cx := int_truediv w 2). set (cy := int_truediv h 2).
  assert (Z0 : forall c, fsub c c = 0)
    by (intros c; unfold fsub; apply round_zero; ring).
  rewrite !Z0.
  replace (fmul 0 0) with 0 by (symmetry; unfold fmul; apply round_zero; ring).
  replace (fadd 0 0) with 0 by (symmetry; unfold fadd; apply round_zero; ring).
  rewrite (fsqrt_zero 0) by apply Qle_refl.
  unfold fdiv. rewrite (round_zero (0 / d)) by (unfold Qdiv; ring).
  rewrite of_int_1. unfold fsub.
  rewrite (round_proper (1 - 0) 1) by ring. rewrite round_1.
  unfold fmul. apply round_proper. ring.
Qed.

(** No pixel is farther from the centre than [max_dist]. *)
Lemma radial_offset_bounds n c :
  (0 < n)%Z -> (0 <= c < n)%Z ->
  let centre := int_truediv n 2 in
  let d := fsub (of_int c) centre in
  - centre <= d /\ d <= centre.
Proof.
  intros Hn Hc. cbv zeta.
  pose proof (int_truediv_half_ge n Hn) as Cx.
  assert (Ic : round (int_truediv n 2) = int_truediv n 2)
    by apply round_idem.
  assert (D : of_int n == 2 * int_truediv n 2).
  { unfold of_int, int_truediv. change (inject_Z 2) with 2.
    rewrite (round_proper (inject_Z n) (2 * (inject_Z n / 2))) by (field; lra).
    apply round_double_pos.
    apply Qle_trans with (1 # 2); [vm_compute; discriminate|].
    apply Qle_shift_div_l; [reflexivity|].
    assert (1 <= inject_Z n)
      by (change 1 with (inject_Z 1); rewrite <- Zle_Qle; lia).
    lra. }
  pose proof (of_int_nonneg c ltac:(lia)) as X0.
  pose proof (of_int_mono c n ltac:(lia)) as X1.
  set (cx := int_truediv n 2) in *. unfold fsub. split.
  - assert (H : round (- cx) <= round (of_int c - cx))
      by (apply round_mono; lra).
    rewrite round_opp, Ic in H. exact H.
  - rewrite <- Ic at 2. apply round_mono. lra.
Qed.

Lemma fmul_square_le d c : - c <= d -> d <= c -> fmul d d <= fmul c c.
Proof.
  intros L U. unfold fmul. apply round_mono.
  assert (0 <= (c - d) * (c + d)) by (apply Qmult_le_0_compat; lra).
  lra.
Qed.

Lemma radial_dist_le_max w h x y :
  (0 < w)%Z -> (0 < h)%Z -> (0 <= x < w)%Z -> (0 <= y < h)%Z ->
  radial_dist w h x y <= radial_max_dist w h.
Proof.
  intros Hw Hh Hx Hy. unfold radial_dist, radial_max_dist. cbv zeta.
  destruct (radial_offset_bounds w x Hw Hx) as [X1 X2].
  destruct (radial_offset_bounds h y Hh Hy) as [Y1 Y2].
  cbv zeta in X1, X2, Y1, Y2.
  pose proof (fmul_square_le _ _ X1 X2) as Sx.
  pose proof (fmul_square_le _ _ Y1 Y2) as Sy.
  apply fsqrt_mono. unfold fadd. apply round_mono. lra.
Qed.

End RadialFacts.

Section Radial.

Variable oob : Q -> Z.

(** C7 (as amended).  For positive [width] and [height] the generator
    returns the same array twice.  The corner pixel (0, 0) lies at the
    distance [max_dist] exactly, no pixel lies farther from the centre, and
    the value at that corner is 0, whatever the intensity.
    When [width] and [height] are even, the centre (width/2, height/2) is a
    pixel and its value is the integer part of the intensity, for every
    float64 intensity from 0 up to (not including) 32768, the bound of the
    int16 elements. *)
Theorem generate_radial_mask_pattern (width height : Z) (intensity : Q) :
  0 < width -> 0 < height ->
  exists m,
    generate_radial_mask oob width height intensity = (m, m)
    /\ radial_dist width height 0 0 = radial_max_dist width height
    /\ (forall x y, 0 <= x < width -> 0 <= y < height ->
        (radial_dist width height x y <= radial_max_dist width height)%Q)
    /\ get m 0 0 = Some 0
    /\ (Z.even width = true -> Z.even height = true ->
        round intensity = intensity ->
        (0 <= intensity)%Q -> (intensity < 32768)%Q ->
        get m (height / 2) (width / 2) = Some (trunc intensity)).
Proof.
  intros Hw Hh. rewrite generate_radial_mask_tabulate. cbv zeta.
  eexists. split; [reflexivity|]. split; [apply radial_dist_corner|].
  split; [intros x y Hx Hy; now apply radial_dist_le_max|].
  split.
  - rewrite get_tabulate by lia.
    now rewrite radial_value_corner by assumption.
  - intros Ew Eh Fi I0 I1.
    assert (Rw : 0 <= width / 2 < width)
      by (split; [apply Z.div_pos; lia | apply Z.div_lt_upper_bound; lia]).
    assert (Rh : 0 <= height / 2 < height)
      by (split; [apply Z.div_pos; lia | apply Z.div_lt_upper_bound; lia]).
    rewrite get_tabulate by assumption.
    rewrite radial_value_center, Fi by assumption.
    f_equal. apply to_i16_in_range. split.
    + apply Z.le_trans with 0; [lia|].
      rewrite <- (trunc_inject 0). now apply trunc_mono.
    + assert (T : trunc intensity <= trunc 32768)
        by (apply trunc_mono, Qlt_le_weak; exact I1).
      unfold trunc in *.
      assert (B : Qle_bool 0 intensity = true) by now apply Qle_bool_iff.
      rewrite B.
      assert (L : Qfloor intensity < 32768).
      { apply Z.lt_le_trans with (Qfloor (inject_Z 32768)); [|rewrite Qfloor_Z; lia].
        rewrite Zlt_Qlt. apply Qle_lt_trans with intensity; [apply Qfloor_le|].
        rewrite Qfloor_Z. exact I1. }
      lia.
Qed.

End Radial.

Lemma generate_radial_mask_pattern_witness :
  exists m,
    generate_radial_mask cast_via_int32 400 300 1000 = (m, m)
    /\ radial_dist 400 300 0 0 = 250%Q
    /\ radial_max_dist 400 300 = 250%Q
    /\ get m 0 0 = Some 0
    /\ get m 150 200 = Some 1000.
Proof.
  destruct (generate_radial_mask_pattern cast_via_int32 400 300 1000)
    as (m & E & D & _ & C0 & Cc); [lia | lia |].
  exists m. split; [exact E|].
  split; [rewrite D; vm_compute; reflexivity|].
  split; [vm_compute; reflexivity|].
  split; [exact C0|].
  apply Cc; vm_compute; try reflexivity; discriminate.
Defined.

(** ** The entry point *)

Section MainFacts.

Variable oob : Q -> Z.

Local Open Scope string_scope.

Lemma size_ravel_tabulate h w (f : Z -> Z -> Z) :
  0 <= h -> 0 <= w -> size (ravel (tabulate h w f)) = h * w.
Proof. intros Hh Hw. unfold size, ravel. cbn [items]. now apply length_concat_tabulate. Qed.

Lemma build_sac_tabulate h w (f g : Z -> Z -> Z) :
  0 < w -> 0 < h -> w * h < 2 ^ 32 ->
  exists bs,
    build_sac (ravel (tabulate h w f)) (ravel (tabulate h w g)) w h = Ok bs
    /\ len bs = 24 + 4 * (w * h).
Proof.
  intros Hw Hh Hr.
  assert (Sf : size (ravel (tabulate h w f)) = w * h)
    by (rewrite size_ravel_tabulate; lia).
  assert (Sg : size (ravel (tabulate h w g)) = w * h)
    by (rewrite size_ravel_tabulate; lia).
  eexists. split.
  - apply build_sac_ok; rewrite ?Sf, ?Sg; unfold u32; auto; nia.
  - rewrite !len_app, len_header_bytes, !len_payload, Sf, Sg. lia.
Qed.

Lemma write_patterns_step name a b rest w h dir wd bs :
  build_sac (ravel a) (ravel b) w h = Ok bs ->
  write_patterns ((name, (a, b)) :: rest) w h dir wd
  = write_patterns rest w h dir
      (print ("✓ Created " ++ (dir ++ "/test_mask_" ++ name ++ ".sac")
              ++ " (" ++ str (len bs) ++ " bytes, " ++ str w ++ "x"
              ++ str h ++ ")")
         (write_file (dir ++ "/test_mask_" ++ name ++ ".sac") bs wd)).
Proof. intros E. cbn [write_patterns]. now rewrite E. Qed.

(** The world after the three SAC files have been written and reported. *)
Lemma main_finishes (w0 : world) :
  exists bs_r bs_c bs_g,
    (let p := generate_radial_mask oob 400 300 1000%Q in
     build_sac (ravel (fst p)) (ravel (snd p)) 400 300 = Ok bs_r)
    /\ (let p := generate_checkerboard_mask 400 300 50 in
        build_sac (ravel (fst p)) (ravel (snd p)) 400 300 = Ok bs_c)
    /\ (let p := generate_gradient_mask oob 400 300 in
        build_sac (ravel (fst p)) (ravel (snd p)) 400 300 = Ok bs_g)
    /\ len bs_r = 480024 /\ len bs_c = 480024 /\ len bs_g = 480024
    /\ forall PIL,
        main oob PIL w0
        = Finished
            (print "Upload test_image.png and any test_mask_*.sac to the test page!"
            (print (newline ++ "Test files ready in ./test_data/")
            (save_test_image oob PIL 400 300 "test_data"
            (print (newline ++ "Generating test image...")
            (print "✓ Created test_data/test_mask_gradient.sac (480024 bytes, 400x300)"
            (write_file "test_data/test_mask_gradient.sac" bs_g
            (print "✓ Created test_data/test_mask_checkerboard.sac (480024 bytes, 400x300)"
            (write_file "test_data/test_mask_checkerboard.sac" bs_c
            (print "✓ Created test_data/test_mask_radial.sac (480024 bytes, 400x300)"
            (write_file "test_data/test_mask_radial.sac" bs_r
            (mkdir_exist_ok "test_data"
            (print "Generating test SAC files..." w0)))))))))))).
Proof.
  unfold main.
  rewrite generate_radial_mask_tabulate, generate_checkerboard_mask_tabulate,
    generate_gradient_mask_tabulate.
  cbv zeta. cbn [fst snd].
  generalize (fun y x : Z => to_i16 oob (radial_value 400 300 1000%Q x y)).
  generalize (fun y x : Z => wrap_i16 ((x / 50 + y / 50) mod 2 * 1000)).
  generalize (fun (_ : Z) (x : Z) => to_i16 oob (gradient_ramp x 400)).
  generalize (fun (y : Z) (_ : Z) => to_i16 oob (gradient_ramp y 300)).
  intros gb ga ck rd.
  destruct (build_sac_tabulate 300 400 rd rd) as (bs_r & Er & Lr); try lia.
  destruct (build_sac_tabulate 300 400 ck ck) as (bs_c & Ec & Lc); try lia.
  destruct (build_sac_tabulate 300 400 ga gb) as (bs_g & Eg & Lg); try lia.
  generalize dependent (tabulate 300 400 rd).
  generalize dependent (tabulate 300 400 ck).
  generalize dependent (tabulate 300 400 ga).
  generalize dependent (tabulate 300 400 gb).
  intros mgb mga Eg mck Ec mrd Er.
  exists bs_r, bs_c, bs_g.
  split; [exact Er|]. split; [exact Ec|]. split; [exact Eg|].
  split; [lia|]. split; [lia|]. split; [lia|].
  intros PIL.
  rewrite (write_patterns_step _ _ _ _ _ _ _ _ _ Er).
  rewrite (write_patterns_step _ _ _ _ _ _ _ _ _ Ec).
  rewrite (write_patterns_step _ _ _ _ _ _ _ _ _ Eg).
  cbn [write_patterns]. rewrite Lr, Lc, Lg.
  reflexivity.
Qed.

End MainFacts.

Section MainClaim.

Local Open Scope string_scope.

Lemma files_mkdir_exist_ok d w : files (mkdir_exist_ok d w) = files w.
Proof. unfold mkdir_exist_ok. now destruct (existsb _ _). Qed.

Lemma stdout_mkdir_exist_ok d w : stdout (mkdir_exist_ok d w) = stdout w.
Proof. unfold mkdir_exist_ok. now destruct (existsb _ _). Qed.

(** C8.  Without PIL the run finishes normally, having written the same
    three SAC files as a run with PIL: the files of the run with PIL are
    those of the run without it plus the image.  Each SAC file holds the
    encoding of its pattern, the skipped image step is reported on the
    output, and no image file is written. *)
Theorem main_without_PIL (oob : Q -> Z) (save_png : matrix rgb -> bytes)
  (w0 : world) :
  exists w_absent w_present bs_r bs_c bs_g,
    main oob None w0 = Finished w_absent
    /\ main oob (Some save_png) w0 = Finished w_present
    /\ (let p := generate_radial_mask oob 400 300 1000%Q in
        build_sac (ravel (fst p)) (ravel (snd p)) 400 300 = Ok bs_r)
    /\ (let p := generate_checkerboard_mask 400 300 50 in
        build_sac (ravel (fst p)) (ravel (snd p)) 400 300 = Ok bs_c)
    /\ (let p := generate_gradient_mask oob 400 300 in
        build_sac (ravel (fst p)) (ravel (snd p)) 400 300 = Ok bs_g)
    /\ read_file "test_data/test_mask_radial.sac" w_absent = Some bs_r
    /\ read_file "test_data/test_mask_checkerboard.sac" w_absent = Some bs_c
    /\ read_file "test_data/test_mask_gradient.sac" w_absent = Some bs_g
    /\ read_file "test_data/test_mask_radial.sac" w_present = Some bs_r
    /\ read_file "test_data/test_mask_checkerboard.sac" w_present = Some bs_c
    /\ read_file "test_data/test_mask_gradient.sac" w_present = Some bs_g
    /\ files w_present
       = ("test_data/test_image.png", save_png (test_image oob 400 300))
           :: files w_absent
    /\ read_file "test_data/test_image.png" w_absent
       = read_file "test_data/test_image.png" w0
    /\ In "⚠ PIL not available, skipping test image generation"
         (stdout w_absent).
Proof.
  destruct (main_finishes oob w0)
    as (bs_r & bs_c & bs_g & Er & Ec & Eg & _ & _ & _ & M).
  eexists. eexists. exists bs_r, bs_c, bs_g.
  split; [apply M|]. split; [apply M|].
  split; [exact Er|]. split; [exact Ec|]. split; [exact Eg|].
  unfold read_file, save_test_image.
  generalize (test_image oob 400 300). intros img.
  cbn [files stdout print write_file]. rewrite !files_mkdir_exist_ok.
  cbn [files stdout print write_file lookup_file String.eqb Ascii.eqb
       Bool.eqb String.append].
  repeat (split; [reflexivity|]).
  apply in_or_app. left. apply in_or_app. left. apply in_or_app. left.
  apply in_or_app. right. left. reflexivity.
Qed.

End MainClaim.

(** ** An intensity beyond the int16 range *)

Section RadialRange.

(** Every element of the radial pattern is an int16, whatever the
    intensity and whatever the platform's out-of-range cast. *)
Lemma generate_radial_mask_int16 (oob : Q -> Z) w h intensity m y x v :
  generate_radial_mask oob w h intensity = (m, m) ->
  get m y x = Some v -> i16 v.
Proof.
  rewrite generate_radial_mask_tabulate. cbv zeta. intros E G.
  injection E as <-.
  apply get_tabulate_inv in G as [_ ->]. apply to_i16_range.
Qed.

(** C7, the claim as stated fails: with intensity 40000 on a 2 by 2 array
    the centre pixel (1, 1) is at distance 0, but its value is not 40000;
    with the cast through a 32-bit integer it is 40000 - 65536. *)
Lemma generate_radial_mask_intensity_40000 :
  exists m,
    generate_radial_mask cast_via_int32 2 2 40000%Q = (m, m)
    /\ radial_dist 2 2 1 1 = 0%Q
    /\ get m 1 1 = Some (-25536)
    /\ trunc 40000%Q = 40000.
Proof. eexists. repeat split; vm_compute; reflexivity. Qed.

End RadialRange.

(** ** Agreement of the rounding model with the machine's floats *)

Section HardwareAgreement.

(** Along both axes of the reference resolution the gradient computed
    with [round] is the gradient the machine computes. *)
Lemma gradient_ramp_agrees_400 :
  forallb (fun x => Hardware.agrees (Hardware.gradient_ramp x 400)
                      (gradient_ramp x 400))
    (range 400) = true.
Proof. vm_compute. reflexivity. Qed.

Lemma gradient_ramp_agrees_300 :
  forallb (fun y => Hardware.agrees (Hardware.gradient_ramp y 300)
                      (gradient_ramp y 300))
    (range 300) = true.
Proof. vm_compute. reflexivity. Qed.

(** The radial pattern on a grid of sample pixels of the reference
    resolution, square roots included. *)
Lemma radial_value_agrees_samples :
  forallb (fun y =>
    forallb (fun x =>
      Hardware.agrees
        (Hardware.radial_value 400 300 (Hardware.float_of_Z 1000)
           (x * 19) (y * 17))
        (radial_value 400 300 1000%Q (x * 19) (y * 17)))
      (range 22))
    (range 18) = true.
Proof. vm_compute. reflexivity. Qed.

End HardwareAgreement.

(** * Further properties of the code *)

(** ** The coercion and the encoder *)

Section EncoderMore.

Lemma to_c_contiguous_i16_eq x :
  to_c_contiguous_i16 x = mk_ndarray (map wrap_i16 (items x)) true.
Proof.
  unfold to_c_contiguous_i16, asarray_i16, ascontiguousarray.
  cbn [c_contiguous items]. now destruct (c_contiguous x).
Qed.

Lemma wrap_i16_idem z : wrap_i16 (wrap_i16 z) = wrap_i16 z.
Proof. apply wrap_i16_id, wrap_i16_range. Qed.

(** X1.  [to_c_contiguous_i16] returns a C-contiguous array with as many
    elements as its argument, each the wrap-around of the argument's
    element into the int16 range; it leaves int16 elements as they are,
    and applying it a second time changes nothing. *)
Theorem to_c_contiguous_i16_idempotent (x : ndarray) :
  c_contiguous (to_c_contiguous_i16 x) = true
  /\ size (to_c_contiguous_i16 x) = size x
  /\ Forall i16 (items (to_c_contiguous_i16 x))
  /\ (forall k v, nth_error (items x) k = Some v ->
        nth_error (items (to_c_contiguous_i16 x)) k = Some (wrap_i16 v))
  /\ (Forall i16 (items x) -> items (to_c_contiguous_i16 x) = items x)
  /\ to_c_contiguous_i16 (to_c_contiguous_i16 x) = to_c_contiguous_i16 x.
Proof.
  split; [apply to_c_contiguous_i16_contiguous|].
  split; [apply size_to_c_contiguous_i16|].
  rewrite items_to_c_contiguous_i16.
  split; [apply Forall_i16_wrap|].
  split; [intros k v H; now rewrite nth_error_map, H|].
  split; [apply map_wrap_i16_id|].
  rewrite !to_c_contiguous_i16_eq. cbn [items]. f_equal.
  rewrite map_map. apply map_ext. intros; apply wrap_i16_idem.
Qed.

(** X2.  [build_sac] sees its arrays only through their int16 coercion:
    arrays whose elements agree after wrap-around into int16 (whatever
    their memory layout) give the same result, be it the same bytes or the
    same exception.  Out-of-range elements are never rejected. *)
Theorem build_sac_coerces (a a' b b' : ndarray) (width height : Z) :
  map wrap_i16 (items a) = map wrap_i16 (items a') ->
  map wrap_i16 (items b) = map wrap_i16 (items b') ->
  build_sac a b width height = build_sac a' b' width height.
Proof.
  intros Ea Eb. unfold build_sac.
  rewrite !to_c_contiguous_i16_eq. now rewrite Ea, Eb.
Qed.

Lemma build_sac_coerces_witness :
  build_sac (mk_ndarray [1; 40000] false) (mk_ndarray [65536; 7] true) 2 1
  = build_sac (mk_ndarray [65537; -25536] true) (mk_ndarray [0; 7] false) 2 1.
Proof.
  apply (build_sac_coerces (mk_ndarray [1; 40000] false)
           (mk_ndarray [65537; -25536] true) (mk_ndarray [65536; 7] true)
           (mk_ndarray [0; 7] false) 2 1); reflexivity.
Defined.

(** X3.  [build_sac] is injective: two calls that return the same bytes
    had the same width, the same height and arrays with the same int16
    elements. *)
Theorem build_sac_injective (a b a' b' : ndarray) (w h w' h' : Z)
  (bs : bytes) :
  build_sac a b w h = Ok bs -> build_sac a' b' w' h' = Ok bs ->
  w = w' /\ h = h'
  /\ items (to_c_contiguous_i16 a) = items (to_c_contiguous_i16 a')
  /\ items (to_c_contiguous_i16 b) = items (to_c_contiguous_i16 b').
Proof.
  intros H H'.
  apply build_sac_ok_inv in H as (_ & (Ra & Rb & Rw & Rh) & E).
  apply build_sac_ok_inv in H' as (_ & (Ra' & Rb' & Rw' & Rh') & E').
  pose proof (ref_decode_encoded a b w h Ra Rb) as D.
  pose proof (ref_decode_encoded a' b' w' h' Ra' Rb') as D'.
  rewrite <- E in D. rewrite <- E' in D'. rewrite D in D'.
  injection D' as Ia Ib.
  destruct (header_bytes_layout (size a) (size b) w h (payload a ++ payload b))
    as (_ & _ & _ & _ & Sw & Sh & _).
  destruct (header_bytes_layout (size a') (size b') w' h'
              (payload a' ++ payload b'))
    as (_ & _ & _ & _ & Sw' & Sh' & _).
  cbv zeta in Sw, Sh, Sw', Sh'. rewrite <- E in Sw, Sh. rewrite <- E' in Sw', Sh'.
  rewrite !items_to_c_contiguous_i16.
  split; [|split; [|split; assumption]].
  - rewrite <- (le_value_u32 w Rw), <- (le_value_u32 w' Rw').
    now rewrite <- Sw, <- Sw'.
  - rewrite <- (le_value_u32 h Rh), <- (le_value_u32 h' Rh').
    now rewrite <- Sh, <- Sh'.
Qed.

Lemma build_sac_injective_witness :
  2 = 2 /\ 1 = 1
  /\ items (to_c_contiguous_i16 (mk_ndarray [1; 40000] false))
     = items (to_c_contiguous_i16 (mk_ndarray [65537; -25536] true))
  /\ items (to_c_contiguous_i16 (mk_ndarray [7; 8] true))
     = items (to_c_contiguous_i16 (mk_ndarray [7; 8] false)).
Proof.
  apply (build_sac_injective
           (mk_ndarray [1; 40000] false) (mk_ndarray [7; 8] true)
           (mk_ndarray [65537; -25536] true) (mk_ndarray [7; 8] false)
           2 1 2 1 _ eq_refl eq_refl).
Defined.

(** X4.  Which way [build_sac] ends is decided in this order: with
    non-zero width and height, a wrong count of A raises the assertion
    failure about A, whatever B is; a wrong count of B raises the one about
    B only when A's count is right; a header field outside the unsigned
    32-bit range raises [struct.error] only when no assertion fails; in
    every other case the call returns. *)
Theorem build_sac_outcome (a b : ndarray) (width height : Z) :
  let checked := width <> 0 /\ height <> 0 in
  let fits := u32 (size a) /\ u32 (size b) /\ u32 width /\ u32 height in
  (build_sac a b width height
     = Raise (AssertionError "A length != width*height")
   <-> checked /\ size a <> width * height)
  /\ (build_sac a b width height
        = Raise (AssertionError "B length != width*height")
      <-> checked /\ size a = width * height /\ size b <> width * height)
  /\ (build_sac a b width height = Raise StructError
      <-> (checked -> size a = width * height /\ size b = width * height)
          /\ ~ fits)
  /\ ((exists bs, build_sac a b width height = Ok bs)
      <-> (checked -> size a = width * height /\ size b = width * height)
          /\ fits).
Proof.
  cbv zeta.
  set (checked := width <> 0 /\ height <> 0).
  set (fits := u32 (size a) /\ u32 (size b) /\ u32 width /\ u32 height).
  assert (Dc : checked \/ (width = 0 \/ height = 0)) by (unfold checked; lia).
  assert (Df : fits \/ ~ fits) by (unfold fits, u32; lia).
  assert (C1 : checked -> size a <> width * height ->
               build_sac a b width height
               = Raise (AssertionError "A length != width*height")).
  { intros Hc Ha. rewrite build_sac_cases.
    apply length_checked_true in Hc. apply Z.eqb_neq in Ha.
    now rewrite Hc, Ha. }
  assert (C2 : checked -> size a = width * height ->
               size b <> width * height ->
               build_sac a b width height
               = Raise (AssertionError "B length != width*height")).
  { intros Hc Ha Hb. rewrite build_sac_cases.
    apply length_checked_true in Hc. apply Z.eqb_eq in Ha.
    apply Z.eqb_neq in Hb. now rewrite Hc, Ha, Hb. }
  assert (C3 : (checked -> size a = width * height /\ size b = width * height)
               -> ~ fits -> build_sac a b width height = Raise StructError).
  { intros Hc Hf. apply build_sac_struct_error; [|exact Hf].
    intros Hw Hh. apply Hc. now split. }
  assert (C4 : (checked -> size a = width * height /\ size b = width * height)
               -> fits -> exists bs, build_sac a b width height = Ok bs).
  { intros Hc (Fa & Fb & Fw & Fh). eexists. apply build_sac_ok; auto.
    intros Hw Hh. apply Hc. now split. }
  destruct (Z.eq_dec (size a) (width * height)) as [Ea|Na];
    destruct (Z.eq_dec (size b) (width * height)) as [Eb|Nb];
    destruct Dc as [Hc|Hz]; destruct Df as [Hf|Hf];
    try (assert (Nc : ~ checked) by (unfold checked; lia));
    first [ rewrite (C1 ltac:(assumption) ltac:(assumption))
          | rewrite (C2 ltac:(assumption) ltac:(assumption) ltac:(assumption))
          | rewrite C3 by tauto
          | destruct C4 as [bs0 ->]; [tauto | assumption |] ];
    (split; [|split; [|split]]); split;
    try discriminate; try tauto; eauto;
    try (intros [bs Hb]; discriminate).
Qed.

End EncoderMore.

(** ** Where the elements lie in the file *)

Section Offsets.

Lemma read_chunk vs : forall k v rest,
  nth_error vs k = Some v ->
  firstn 2 (skipn (2 * k) (flat_map (le_bytes 2) vs ++ rest)) = le_bytes 2 v.
Proof.
  induction vs as [|v0 vs IH]; intros k v rest H.
  - destruct k; discriminate.
  - destruct k as [|k].
    + injection H as <-. reflexivity.
    + replace (2 * S k)%nat with (S (S (2 * k))) by lia.
      cbn [flat_map le_bytes app skipn]. now apply IH.
Qed.

Lemma length_flat_map_le_bytes vs :
  length (flat_map (le_bytes 2) vs) = (2 * length vs)%nat.
Proof.
  induction vs as [|v vs IH]; [reflexivity|].
  cbn [flat_map]. rewrite length_app, length_le_bytes, IH.
  cbn [length]. lia.
Qed.

Lemma read_i16_at_chunk (pre : bytes) vs k v rest :
  Forall i16 vs -> nth_error vs k = Some v ->
  read_i16_at (pre ++ flat_map (le_bytes 2) vs ++ rest)
    (length pre + 2 * k) = Some v.
Proof.
  intros Hi Hk. unfold read_i16_at, slice.
  replace (length pre + 2 * k + 2 - (length pre + 2 * k))%nat with 2%nat by lia.
  rewrite skipn_app.
  replace (length pre + 2 * k - length pre)%nat with (2 * k)%nat by lia.
  rewrite skipn_all2 by lia. cbn [app].
  rewrite (read_chunk vs k v rest Hk).
  assert (Iv : i16 v).
  { rewrite Forall_forall in Hi. apply Hi. eapply nth_error_In; eauto. }
  pose proof (i16_of_bytes_le_bytes v Iv) as E.
  destruct (le_bytes 2 v) as [|lo [|hi [|x t]]]; try contradiction.
  now rewrite E.
Qed.

Lemma read_payload_a a b w h k v :
  nth_error (items a) k = Some v ->
  read_i16_at (header_bytes (size a) (size b) w h ++ payload a ++ payload b)
    (24 + 2 * k) = Some (wrap_i16 v).
Proof.
  intros Hk. unfold payload, tobytes. rewrite !items_to_c_contiguous_i16.
  set (hd := header_bytes (size a) (size b) w h).
  change 24%nat with (length hd).
  apply read_i16_at_chunk; [apply Forall_i16_wrap|].
  now rewrite nth_error_map, Hk.
Qed.

Lemma read_payload_b a b w h k v :
  nth_error (items b) k = Some v ->
  read_i16_at (header_bytes (size a) (size b) w h ++ payload a ++ payload b)
    (24 + 2 * length (items a) + 2 * k) = Some (wrap_i16 v).
Proof.
  intros Hk. unfold payload, tobytes. rewrite !items_to_c_contiguous_i16.
  set (hd := header_bytes (size a) (size b) w h).
  assert (Lh : length hd = 24%nat) by reflexivity.
  rewrite app_assoc.
  replace (24 + 2 * length (items a))%nat
    with (length (hd ++ flat_map (le_bytes 2) (map wrap_i16 (items a))))
    by (rewrite length_app, length_flat_map_le_bytes, length_map, Lh; lia).
  rewrite <- (app_nil_r (flat_map _ (map wrap_i16 (items b)))).
  apply read_i16_at_chunk; [apply Forall_i16_wrap|].
  now rewrite nth_error_map, Hk.
Qed.

(** X5.  In the bytes [build_sac] returns, element [k] of A is the signed
    little-endian 16-bit value at byte offset [24 + 2*k], and element [k]
    of B the one at [24 + 2*(count of A) + 2*k]: every element can be read
    in place, after its wrap-around into int16. *)
Theorem build_sac_element_offset (a b : ndarray) (width height : Z)
  (bs : bytes) :
  build_sac a b width height = Ok bs ->
  (forall k v, nth_error (items a) k = Some v ->
     read_i16_at bs (24 + 2 * k) = Some (wrap_i16 v))
  /\ (forall k v, nth_error (items b) k = Some v ->
        read_i16_at bs (24 + 2 * length (items a) + 2 * k)
        = Some (wrap_i16 v)).
Proof.
  intros H. apply build_sac_ok_inv in H as (_ & _ & ->).
  split; intros k v Hk.
  - now apply read_payload_a.
  - now apply read_payload_b.
Qed.

Lemma build_sac_element_offset_witness :
  exists bs,
    build_sac (mk_ndarray [1; -2] true) (mk_ndarray [300; 40000] false) 2 1
      = Ok bs
    /\ read_i16_at bs 26 = Some (-2)
    /\ read_i16_at bs 30 = Some (-25536).
Proof.
  eexists. split; [reflexivity|].
  destruct (build_sac_element_offset (mk_ndarray [1; -2] true)
              (mk_ndarray [300; 40000] false) 2 1 _ eq_refl) as [Ha Hb].
  split; [apply (Ha 1%nat (-2)) | apply (Hb 1%nat 40000)]; reflexivity.
Defined.

End Offsets.

(** ** The shape of the patterns and their place in the file *)

Section Shapes.

Lemma has_shape_tabulate {A} h w (f : Z -> Z -> A) :
  0 <= h -> 0 <= w -> has_shape (tabulate h w f) h w.
Proof.
  intros Hh Hw. unfold has_shape, tabulate, len. split.
  - rewrite length_map, length_range. lia.
  - apply Forall_map, Forall_forall. intros y _.
    rewrite length_map, length_range. lia.
Qed.

Lemma Forall_concat_tabulate {A} (P : A -> Prop) h w (f : Z -> Z -> A) :
  (forall y x, 0 <= y < h -> 0 <= x < w -> P (f y x)) ->
  Forall P (concat (tabulate h w f)).
Proof.
  intros H. apply Forall_concat. unfold tabulate.
  apply Forall_map, Forall_forall. intros y Hy. apply in_range in Hy.
  apply Forall_map, Forall_forall. intros x Hx. apply in_range in Hx.
  now apply H.
Qed.

Lemma tabulate_ext {A} h w (f g : Z -> Z -> A) :
  (forall y x, 0 <= y < h -> 0 <= x < w -> f y x = g y x) ->
  tabulate h w f = tabulate h w g.
Proof.
  intros H. unfold tabulate. apply map_ext_in. intros y Hy.
  apply in_range in Hy. apply map_ext_in. intros x Hx.
  apply in_range in Hx. now apply H.
Qed.

(** Row-major order: element (y, x) of an array of rows of [n] elements
    is element [y * n + x] of the flattened array. *)
Lemma nth_error_concat {A} (m : matrix A) (n : nat) :
  Forall (fun row => length row = n) m ->
  forall i j row v,
    nth_error m i = Some row -> nth_error row j = Some v ->
    nth_error (concat m) (i * n + j) = Some v.
Proof.
  induction 1 as [|r m Hr _ IH]; intros i j row v Hi Hj.
  - destruct i; discriminate.
  - destruct i as [|i]; cbn [concat].
    + injection Hi as ->. cbn [Nat.mul Nat.add].
      rewrite nth_error_app1; [exact Hj|].
      apply nth_error_Some. congruence.
    + rewrite nth_error_app2 by (rewrite Hr; cbn [Nat.mul]; lia).
      replace (S i * n + j - length r)%nat with (i * n + j)%nat
        by (rewrite Hr; cbn [Nat.mul]; lia).
      now apply (IH i j row v).
Qed.

Lemma get_ravel (m : matrix Z) h w y x v :
  has_shape m h w -> get m y x = Some v ->
  (0 <= y < h /\ 0 <= x < w)
  /\ nth_error (items (ravel m)) (Z.to_nat (y * w + x)) = Some v.
Proof.
  intros [Hl Hr] G. unfold get in G.
  destruct (0 <=? y) eqn:Ey; [|discriminate].
  destruct (0 <=? x) eqn:Ex; [|discriminate].
  apply Z.leb_le in Ey, Ex. cbn [andb] in G.
  destruct (nth_error m (Z.to_nat y)) as [row|] eqn:Er; [|discriminate].
  assert (Ly : (Z.to_nat y < length m)%nat)
    by (apply nth_error_Some; congruence).
  assert (Lx : (Z.to_nat x < length row)%nat)
    by (apply nth_error_Some; congruence).
  assert (Lr : len row = w).
  { rewrite Forall_forall in Hr. apply Hr. eapply nth_error_In; eauto. }
  unfold len in Hl, Lr.
  split; [lia|].
  cbn [ravel items].
  replace (Z.to_nat (y * w + x))
    with (Z.to_nat y * Z.to_nat w + Z.to_nat x)%nat by nia.
  apply nth_error_concat with (row := row); try assumption.
  apply Forall_forall. intros r Hin. rewrite Forall_forall in Hr.
  specialize (Hr r Hin). unfold len in Hr. lia.
Qed.

Lemma length_concat_shape {A} (m : matrix A) h w :
  has_shape m h w -> len (concat m) = h * w.
Proof.
  intros [Hl Hr]. subst h. unfold len in *. rewrite length_concat.
  induction Hr as [|r m Er _ IH]; [reflexivity|].
  cbn [map list_sum fold_right length]. unfold list_sum in IH. lia.
Qed.

(** X6.  For extents that are not negative, each of the three generators
    returns two arrays of shape (height, width): [height] rows of [width]
    elements each, whatever the intensity, the square size and the
    platform's out-of-range cast. *)
Theorem generators_shape (oob : Q -> Z) (width height : Z)
  (intensity : Q) (square_size : Z) :
  0 <= width -> 0 <= height ->
  let r := generate_radial_mask oob width height intensity in
  let c := generate_checkerboard_mask width height square_size in
  let g := generate_gradient_mask oob width height in
  has_shape (fst r) height width /\ has_shape (snd r) height width
  /\ has_shape (fst c) height width /\ has_shape (snd c) height width
  /\ has_shape (fst g) height width /\ has_shape (snd g) height width.
Proof.
  intros Hw Hh. cbv zeta.
  rewrite generate_radial_mask_tabulate, generate_checkerboard_mask_tabulate,
    generate_gradient_mask_tabulate.
  cbv zeta. cbn [fst snd].
  repeat split; try (apply has_shape_tabulate; assumption);
    apply (has_shape_tabulate height width); assumption.
Qed.

Lemma generators_shape_witness :
  let r := generate_radial_mask cast_via_int32 4 3 1000%Q in
  let c := generate_checkerboard_mask 4 3 2 in
  let g := generate_gradient_mask cast_via_int32 4 3 in
  has_shape (fst r) 3 4 /\ has_shape (snd r) 3 4
  /\ has_shape (fst c) 3 4 /\ has_shape (snd c) 3 4
  /\ has_shape (fst g) 3 4 /\ has_shape (snd g) 3 4.
Proof. apply (generators_shape cast_via_int32 4 3 1000%Q 2); lia. Defined.

(** X7.  What [main] passes to [build_sac] is [a.ravel()] and
    [b.ravel()]: for arrays of shape (height, width), the element at row
    [y], column [x] of A is the 16-bit value at byte offset
    [24 + 2 * (y * width + x)] of the file, and that of B lies
    [2 * width * height] bytes further. *)
Theorem build_sac_pixel_offset (a b : matrix Z) (width height : Z)
  (bs : bytes) :
  has_shape a height width -> has_shape b height width ->
  build_sac (ravel a) (ravel b) width height = Ok bs ->
  (forall x y v, get a y x = Some v ->
     read_i16_at bs (24 + 2 * Z.to_nat (y * width + x)) = Some (wrap_i16 v))
  /\ (forall x y v, get b y x = Some v ->
        read_i16_at bs (24 + 2 * Z.to_nat (width * height)
                        + 2 * Z.to_nat (y * width + x))
        = Some (wrap_i16 v)).
Proof.
  intros Sa Sb E. apply build_sac_ok_inv in E as (_ & _ & ->).
  split; intros x y v G.
  - apply read_payload_a. now apply (get_ravel a height width).
  - assert (La : length (items (ravel a)) = Z.to_nat (width * height)).
    { destruct (get_ravel b height width y x v Sb G) as [[Ry Rx] _].
      pose proof (length_concat_shape a height width Sa) as L.
      unfold len in L. cbn [ravel items]. lia. }
    rewrite <- La. apply read_payload_b.
    now apply (get_ravel b height width).
Qed.

Lemma build_sac_pixel_offset_witness :
  exists bs,
    build_sac (ravel [[1; 2; 3]; [4; 5; 6]])
      (ravel [[7; 8; 9]; [10; 11; 70000]]) 3 2 = Ok bs
    /\ read_i16_at bs 32 = Some 5
    /\ read_i16_at bs 46 = Some 4464.
Proof.
  destruct (build_sac (ravel [[1; 2; 3]; [4; 5; 6]])
              (ravel [[7; 8; 9]; [10; 11; 70000]]) 3 2) as [bs|e] eqn:E;
    [|vm_compute in E; discriminate].
  exists bs. split; [reflexivity|].
  destruct (build_sac_pixel_offset [[1; 2; 3]; [4; 5; 6]]
              [[7; 8; 9]; [10; 11; 70000]] 3 2 bs) as [Ha Hb];
    [ split; [reflexivity | repeat constructor]
    | split; [reflexivity | repeat constructor]
    | exact E | ].
  split; [apply (Ha 1 1 5) | apply (Hb 2 1 70000)]; reflexivity.
Defined.

End Shapes.

(** ** The patterns through the encoder and back *)

Section PatternsEncoded.

Lemma tabulate_encodes_losslessly h w (f g : Z -> Z -> Z) :
  u32 w -> u32 h -> u32 (w * h) ->
  (forall y x, i16 (f y x)) -> (forall y x, i16 (g y x)) ->
  encodes_losslessly (tabulate h w f, tabulate h w g) w h.
Proof.
  intros Rw Rh Rs If Ig. unfold encodes_losslessly. cbn [fst snd].
  assert (Sf : size (ravel (tabulate h w f)) = w * h)
    by (rewrite size_ravel_tabulate; unfold u32 in *; lia).
  assert (Sg : size (ravel (tabulate h w g)) = w * h)
    by (rewrite size_ravel_tabulate; unfold u32 in *; lia).
  eexists. split; [|split].
  - apply build_sac_ok; rewrite ?Sf, ?Sg; auto.
  - rewrite !len_app, len_header_bytes, !len_payload, Sf, Sg. lia.
  - rewrite ref_decode_encoded by (rewrite ?Sf, ?Sg; assumption).
    cbn [ravel items].
    rewrite !map_wrap_i16_id; [reflexivity| |];
      apply Forall_concat_tabulate; auto.
Qed.

(** X8.  For a width and a height from 0 to 2^32 - 1 whose product is
    below 2^32, the patterns of each generator pass through the encoder
    as [main] calls it: [build_sac] accepts the two flattened arrays,
    returns [24 + 4 * width * height] bytes, and reading them back gives
    exactly the generated elements, none altered by the conversion to
    int16. *)
Theorem patterns_encode_losslessly (oob : Q -> Z) (width height : Z)
  (intensity : Q) (square_size : Z) :
  u32 width -> u32 height -> u32 (width * height) ->
  encodes_losslessly (generate_radial_mask oob width height intensity)
    width height
  /\ encodes_losslessly (generate_checkerboard_mask width height square_size)
       width height
  /\ encodes_losslessly (generate_gradient_mask oob width height)
       width height.
Proof.
  intros Rw Rh Rs.
  rewrite generate_radial_mask_tabulate, generate_checkerboard_mask_tabulate,
    generate_gradient_mask_tabulate.
  cbv zeta.
  repeat split; apply tabulate_encodes_losslessly; auto; intros;
    first [apply to_i16_range | apply wrap_i16_range].
Qed.

Lemma patterns_encode_losslessly_witness :
  encodes_losslessly (generate_radial_mask cast_via_int32 400 300 1000%Q)
    400 300
  /\ encodes_losslessly (generate_checkerboard_mask 400 300 50) 400 300
  /\ encodes_losslessly (generate_gradient_mask cast_via_int32 400 300)
       400 300.
Proof.
  apply (patterns_encode_losslessly cast_via_int32 400 300 1000%Q 50);
    unfold u32; lia.
Defined.

End PatternsEncoded.

(** ** The radial pattern: range, fall-off and symmetry *)

Section RadialMore.

Local Open Scope Q_scope.

Lemma radial_dist_nonneg w h x y : 0 <= radial_dist w h x y.
Proof. unfold radial_dist. cbv zeta. apply fsqrt_nonneg. Qed.

Lemma round_unit q : 0 <= q -> q <= 1 -> 0 <= round q /\ round q <= 1.
Proof.
  intros L U. split; [now apply round_nonneg|].
  rewrite <- round_1. now apply round_mono.
Qed.

(** The factor [1 - dist / max_dist] of a pixel lies between 0 and 1. *)
Lemma radial_factor_unit w h x y :
  (0 < w)%Z -> (0 < h)%Z -> (0 <= x < w)%Z -> (0 <= y < h)%Z ->
  let s := fsub (of_int 1)
             (fdiv (radial_dist w h x y) (radial_max_dist w h)) in
  0 <= s /\ s <= 1.
Proof.
  intros Hw Hh Hx Hy. cbv zeta.
  pose proof (radial_dist_nonneg w h x y) as D0.
  pose proof (radial_dist_le_max w h x y Hw Hh Hx Hy) as D1.
  pose proof (radial_max_dist_pos w h Hw Hh) as M.
  generalize dependent (radial_dist w h x y).
  generalize dependent (radial_max_dist w h). intros m M d D0 D1.
  assert (Q : 0 <= fdiv d m /\ fdiv d m <= 1).
  { unfold fdiv. apply round_unit.
    - apply Qle_shift_div_l; [exact M | lra].
    - apply Qle_shift_div_r; [exact M | lra]. }
  rewrite of_int_1. unfold fsub. apply round_unit; lra.
Qed.

Lemma radial_value_bounds w h intensity x y :
  (0 < w)%Z -> (0 < h)%Z -> (0 <= x < w)%Z -> (0 <= y < h)%Z ->
  0 <= intensity ->
  0 <= radial_value w h intensity x y
  /\ radial_value w h intensity x y <= round intensity.
Proof.
  intros Hw Hh Hx Hy Hi.
  destruct (radial_factor_unit w h x y Hw Hh Hx Hy) as [S0 S1].
  cbv zeta in S0, S1. unfold radial_value.
  generalize dependent (fsub (of_int 1)
    (fdiv (radial_dist w h x y) (radial_max_dist w h))).
  intros s S0 S1. unfold fmul. split.
  - apply round_nonneg. now apply Qmult_le_0_compat.
  - apply round_mono.
    assert (0 <= (1 - s) * intensity) by (apply Qmult_le_0_compat; lra).
    lra.
Qed.

Lemma trunc_nonneg q : 0 <= q -> (0 <= trunc q)%Z.
Proof.
  intros H. rewrite <- (trunc_inject 0). now apply trunc_mono.
Qed.

Lemma trunc_below q n : 0 <= q -> q < inject_Z n -> (trunc q < n)%Z.
Proof.
  intros H0 H. unfold trunc.
  assert (B : Qle_bool 0 q = true) by now apply Qle_bool_iff.
  rewrite B. rewrite Zlt_Qlt.
  apply Qle_lt_trans with q; [apply Qfloor_le | exact H].
Qed.

Lemma radial_trunc_bounds w h intensity x y :
  (0 < w)%Z -> (0 < h)%Z -> (0 <= x < w)%Z -> (0 <= y < h)%Z ->
  round intensity = intensity -> 0 <= intensity -> intensity < 32768 ->
  (0 <= trunc (radial_value w h intensity x y) <= trunc intensity)%Z
  /\ (trunc intensity <= 32767)%Z.
Proof.
  intros Hw Hh Hx Hy Fi I0 I1.
  destruct (radial_value_bounds w h intensity x y Hw Hh Hx Hy I0) as [L U].
  rewrite Fi in U.
  split; [split; [now apply trunc_nonneg | now apply trunc_mono]|].
  pose proof (trunc_below intensity 32768 I0 I1). lia.
Qed.

Lemma radial_element (oob : Q -> Z) w h intensity x y :
  (0 < w)%Z -> (0 < h)%Z -> (0 <= x < w)%Z -> (0 <= y < h)%Z ->
  round intensity = intensity -> 0 <= intensity -> intensity < 32768 ->
  to_i16 oob (radial_value w h intensity x y)
  = trunc (radial_value w h intensity x y).
Proof.
  intros Hw Hh Hx Hy Fi I0 I1.
  destruct (radial_trunc_bounds w h intensity x y Hw Hh Hx Hy Fi I0 I1)
    as [[L U] B].
  apply to_i16_in_range. lia.
Qed.

(** Farther from the centre, the value before the cast is not larger. *)
Lemma radial_value_anti w h intensity x1 y1 x2 y2 :
  (0 < w)%Z -> (0 < h)%Z -> 0 <= intensity ->
  radial_dist w h x1 y1 <= radial_dist w h x2 y2 ->
  radial_value w h intensity x2 y2 <= radial_value w h intensity x1 y1.
Proof.
  intros Hw Hh Hi Hd. unfold radial_value.
  pose proof (radial_max_dist_pos w h Hw Hh) as M.
  generalize dependent (radial_dist w h x1 y1).
  generalize dependent (radial_dist w h x2 y2).
  generalize dependent (radial_max_dist w h). intros m M d2 d1 Hd.
  assert (Q : fdiv d1 m <= fdiv d2 m).
  { unfold fdiv. apply round_mono. apply Qmult_le_compat_r; [exact Hd|].
    apply Qlt_le_weak, Qinv_lt_0_compat. exact M. }
  assert (S : fsub (of_int 1) (fdiv d2 m) <= fsub (of_int 1) (fdiv d1 m))
    by (unfold fsub; apply round_mono; lra).
  unfold fmul. apply round_mono. now apply Qmult_le_compat_r.
Qed.

(** Integers up to 2^53 and their halves are float64 numbers. *)
Lemma of_int_exact z : (Z.abs z <= 2 ^ 53)%Z -> of_int z == inject_Z z.
Proof. apply round_inject. Qed.

Lemma int_truediv_2_exact n :
  (Z.abs n <= 2 ^ 53)%Z -> int_truediv n 2 == inject_Z n / 2.
Proof.
  intros H. unfold int_truediv. change (inject_Z 2) with 2.
  assert (E : inject_Z n / 2 == inject_Z n * pow2 (-1))
    by (change (pow2 (-1)) with (1 # 2); field).
  rewrite (round_proper _ _ E), E.
  apply round_representable; [exact H | unfold emin; lia].
Qed.

(** The offset of the mirrored index is the opposite number. *)
Lemma radial_offset_mirror n c :
  (0 <= c <= n)%Z -> (n <= 2 ^ 53)%Z ->
  fsub (of_int (n - c)) (int_truediv n 2)
  == - fsub (of_int c) (int_truediv n 2).
Proof.
  intros Hc Hn. unfold fsub.
  rewrite <- round_opp.
  assert (E : of_int (n - c) - int_truediv n 2
              == - (of_int c - int_truediv n 2)).
  { rewrite !of_int_exact, int_truediv_2_exact by lia.
    rewrite <- Z.add_opp_r, inject_Z_plus, inject_Z_opp. field. }
  now rewrite (round_proper _ _ E).
Qed.

Lemma fmul_square_opp d d' : d' == - d -> fmul d' d' = fmul d d.
Proof. intros E. unfold fmul. apply round_proper. rewrite E. ring. Qed.

Lemma radial_dist_mirror_x w h x y :
  (0 <= x <= w)%Z -> (w <= 2 ^ 53)%Z ->
  radial_dist w h (w - x) y = radial_dist w h x y.
Proof.
  intros Hx Hw. unfold radial_dist. cbv zeta.
  now rewrite (fmul_square_opp _ _ (radial_offset_mirror w x Hx Hw)).
Qed.

Lemma radial_dist_mirror_y w h x y :
  (0 <= y <= h)%Z -> (h <= 2 ^ 53)%Z ->
  radial_dist w h x (h - y) = radial_dist w h x y.
Proof.
  intros Hy Hh. unfold radial_dist. cbv zeta.
  now rewrite (fmul_square_opp _ _ (radial_offset_mirror h y Hy Hh)).
Qed.

End RadialMore.

Section RadialPattern.

(** X9.  For positive extents and a float64 intensity from 0 up to (not
    including) 32768, every element of the radial pattern is the integer
    part of [(1 - dist / max_dist) * intensity] at its pixel and lies
    between 0 and the integer part of the intensity.  The cast to int16 is
    then never out of range, so the pattern does not depend on the
    platform. *)
Theorem generate_radial_mask_range (oob oob' : Q -> Z) (width height : Z)
  (intensity : Q) :
  0 < width -> 0 < height ->
  round intensity = intensity -> (0 <= intensity)%Q ->
  (intensity < 32768)%Q ->
  (forall x y v,
     get (fst (generate_radial_mask oob width height intensity)) y x = Some v ->
     v = trunc (radial_value width height intensity x y)
     /\ 0 <= v <= trunc intensity)
  /\ generate_radial_mask oob' width height intensity
     = generate_radial_mask oob width height intensity.
Proof.
  intros Hw Hh Fi I0 I1. rewrite !generate_radial_mask_tabulate.
  cbv zeta. cbn [fst]. split.
  - intros x y v G. apply get_tabulate_inv in G as [[Hy Hx] ->].
    rewrite radial_element by assumption.
    split; [reflexivity|].
    now apply radial_trunc_bounds.
  - f_equal; apply tabulate_ext; intros y x Hy Hx;
      now rewrite !radial_element by assumption.
Qed.

Lemma generate_radial_mask_range_witness :
  (exists v,
     get (fst (generate_radial_mask cast_via_int32 4 2 1000%Q)) 1 2 = Some v
     /\ 0 <= v <= 1000)
  /\ generate_radial_mask (fun _ => 0) 4 2 1000%Q
     = generate_radial_mask cast_via_int32 4 2 1000%Q.
Proof.
  destruct (generate_radial_mask_range cast_via_int32 (fun _ => 0) 4 2 1000%Q)
    as [R E];
    [lia | lia | vm_compute; reflexivity | vm_compute; discriminate
     | vm_compute; reflexivity |].
  split; [|exact E].
  exists 1000. split; [vm_compute; reflexivity|].
  apply (R 2 1 1000). vm_compute. reflexivity.
Defined.

(** X10.  The radial pattern falls off with the distance from the centre:
    of two pixels, the one whose float64 distance [dist] is not smaller
    has the element that is not larger (for a float64 intensity from 0 up
    to 32768). *)
Theorem generate_radial_mask_falloff (oob : Q -> Z) (width height : Z)
  (intensity : Q) :
  0 < width -> 0 < height ->
  round intensity = intensity -> (0 <= intensity)%Q ->
  (intensity < 32768)%Q ->
  forall x1 y1 x2 y2 v1 v2,
    get (fst (generate_radial_mask oob width height intensity)) y1 x1
      = Some v1 ->
    get (fst (generate_radial_mask oob width height intensity)) y2 x2
      = Some v2 ->
    (radial_dist width height x1 y1 <= radial_dist width height x2 y2)%Q ->
    v2 <= v1.
Proof.
  intros Hw Hh Fi I0 I1 x1 y1 x2 y2 v1 v2.
  rewrite generate_radial_mask_tabulate. cbv zeta. cbn [fst].
  intros G1 G2 D.
  apply get_tabulate_inv in G1 as [[Hy1 Hx1] ->].
  apply get_tabulate_inv in G2 as [[Hy2 Hx2] ->].
  rewrite !radial_element by assumption.
  apply trunc_mono. now apply radial_value_anti.
Qed.

Lemma generate_radial_mask_falloff_witness :
  exists v1 v2,
    get (fst (generate_radial_mask cast_via_int32 4 2 1000%Q)) 1 2 = Some v1
    /\ get (fst (generate_radial_mask cast_via_int32 4 2 1000%Q)) 0 3
       = Some v2
    /\ v2 <= v1.
Proof.
  destruct (get (fst (generate_radial_mask cast_via_int32 4 2 1000%Q)) 1 2)
    as [v1|] eqn:E1; [|vm_compute in E1; discriminate].
  destruct (get (fst (generate_radial_mask cast_via_int32 4 2 1000%Q)) 0 3)
    as [v2|] eqn:E2; [|vm_compute in E2; discriminate].
  exists v1, v2. split; [reflexivity|]. split; [reflexivity|].
  apply (generate_radial_mask_falloff cast_via_int32 4 2 1000%Q
           ltac:(lia) ltac:(lia) ltac:(vm_compute; reflexivity)
           ltac:(vm_compute; discriminate) ltac:(vm_compute; reflexivity)
           2 1 3 0 v1 v2 E1 E2).
  vm_compute. discriminate.
Defined.

(** X11.  For extents up to 2^53 the radial pattern is symmetric about
    the centre: column [x] and column [width - x] hold the same elements,
    and so do row [y] and row [height - y]. *)
Theorem generate_radial_mask_symmetric (oob : Q -> Z) (width height : Z)
  (intensity : Q) :
  0 < width <= 2 ^ 53 -> 0 < height <= 2 ^ 53 ->
  let m := fst (generate_radial_mask oob width height intensity) in
  (forall x y, 0 < x < width -> 0 <= y < height ->
     get m y (width - x) = get m y x)
  /\ (forall x y, 0 <= x < width -> 0 < y < height ->
        get m (height - y) x = get m y x).
Proof.
  intros Hw Hh. rewrite generate_radial_mask_tabulate. cbv zeta. cbn [fst].
  split; intros x y Hx Hy; rewrite !get_tabulate by lia; unfold radial_value.
  - now rewrite radial_dist_mirror_x by lia.
  - now rewrite radial_dist_mirror_y by lia.
Qed.

Lemma generate_radial_mask_symmetric_witness :
  let m := fst (generate_radial_mask cast_via_int32 400 300 1000%Q) in
  get m 17 (400 - 120) = get m 17 120
  /\ get m (300 - 17) 120 = get m 17 120.
Proof.
  destruct (generate_radial_mask_symmetric cast_via_int32 400 300 1000%Q)
    as [Hx Hy]; [lia | lia |].
  split; [apply (Hx 120 17) | apply (Hy 120 17)]; lia.
Defined.

End RadialPattern.

(** ** The checkerboard: squares that alternate *)

Section CheckerboardMore.

Lemma checker_value_same s x y x' y' :
  x / s = x' / s -> y / s = y' / s ->
  checker_value s x' y' = checker_value s x y.
Proof. intros Ex Ey. unfold checker_value. now rewrite Ex, Ey. Qed.

Lemma checker_value_next s x y x' y' :
  (x' / s = x / s + 1 /\ y' / s = y / s)
  \/ (x' / s = x / s /\ y' / s = y / s + 1) ->
  checker_value s x' y' = 1000 - checker_value s x y.
Proof.
  unfold checker_value. intros [[-> ->]|[-> ->]].
  - replace (x / s + 1 + y / s) with (x / s + y / s + 1) by lia.
    pose proof (Z.mod_pos_bound (x / s + y / s) 2 ltac:(lia)).
    rewrite Z.add_mod by lia.
    destruct (Z.eq_dec ((x / s + y / s) mod 2) 0) as [E|E].
    + rewrite E. reflexivity.
    + replace ((x / s + y / s) mod 2) with 1 by lia. reflexivity.
  - replace (x / s + (y / s + 1)) with (x / s + y / s + 1) by lia.
    pose proof (Z.mod_pos_bound (x / s + y / s) 2 ltac:(lia)).
    rewrite Z.add_mod by lia.
    destruct (Z.eq_dec ((x / s + y / s) mod 2) 0) as [E|E].
    + rewrite E. reflexivity.
    + replace ((x / s + y / s) mod 2) with 1 by lia. reflexivity.
Qed.

Lemma get_checkerboard w h s y x v :
  get (fst (generate_checkerboard_mask w h s)) y x = Some v ->
  v = checker_value s x y.
Proof.
  rewrite generate_checkerboard_mask_tabulate. cbv zeta. cbn [fst].
  intros G. apply get_tabulate_inv in G as [_ ->].
  apply checker_value_wrap.
Qed.

(** X12.  The checkerboard is made of squares: two pixels in the same
    square (the same quotients of x and of y by [square_size]) hold the
    same element; two pixels in squares next to each other, along x or
    along y, hold different elements, one 0 and the other 1000. *)
Theorem generate_checkerboard_mask_squares (width height square_size : Z) :
  let m := fst (generate_checkerboard_mask width height square_size) in
  forall x y x' y' v v',
    get m y x = Some v -> get m y' x' = Some v' ->
    (x / square_size = x' / square_size ->
     y / square_size = y' / square_size -> v' = v)
    /\ ((x' / square_size = x / square_size + 1
         /\ y' / square_size = y / square_size)
        \/ (x' / square_size = x / square_size
            /\ y' / square_size = y / square_size + 1) ->
        v' = 1000 - v /\ (v = 0 \/ v = 1000)).
Proof.
  cbv zeta. intros x y x' y' v v' G G'.
  apply get_checkerboard in G, G'. subst v v'. split.
  - apply checker_value_same.
  - intros N. split; [now apply checker_value_next|].
    unfold checker_value. apply checker_value_cases.
Qed.

Lemma generate_checkerboard_mask_squares_witness :
  let m := fst (generate_checkerboard_mask 8 6 2) in
  get m 1 2 = Some 1000
  /\ get m 0 3 = Some 1000
  /\ get m 1 4 = Some 0.
Proof.
  cbv zeta.
  assert (G : get (fst (generate_checkerboard_mask 8 6 2)) 1 2 = Some 1000)
    by (vm_compute; reflexivity).
  destruct (get (fst (generate_checkerboard_mask 8 6 2)) 0 3)
    as [v1|] eqn:E1; [|vm_compute in E1; discriminate].
  destruct (get (fst (generate_checkerboard_mask 8 6 2)) 1 4)
    as [v2|] eqn:E2; [|vm_compute in E2; discriminate].
  destruct (generate_checkerboard_mask_squares 8 6 2
              2 1 3 0 1000 v1 G E1) as [S _].
  destruct (generate_checkerboard_mask_squares 8 6 2
              2 1 4 1 1000 v2 G E2) as [_ N].
  split; [exact G|]. split; f_equal.
  - apply S; reflexivity.
  - apply N. left. split; reflexivity.
Defined.

End CheckerboardMore.

(** ** The gradient: its two arrays, and the cast *)

Section GradientMore.

Lemma gradient_element (oob : Q -> Z) n e :
  0 <= n < e -> to_i16 oob (gradient_ramp n e) = trunc (gradient_ramp n e).
Proof.
  intros H. apply to_i16_in_range.
  pose proof (trunc_ramp_bounds n e ltac:(lia) ltac:(lia)). lia.
Qed.

(** X13.  The two arrays of the gradient are the same ramp along
    different axes: B for a width and a height is the transpose of A for
    that height as width and that width as height. *)
Theorem generate_gradient_mask_transpose (oob : Q -> Z) (width height : Z) :
  forall x y, 0 <= x < width -> 0 <= y < height ->
    get (snd (generate_gradient_mask oob width height)) y x
    = get (fst (generate_gradient_mask oob height width)) x y
    /\ get (fst (generate_gradient_mask oob width height)) y x
       = get (snd (generate_gradient_mask oob height width)) x y.
Proof.
  intros x y Hx Hy. rewrite !generate_gradient_mask_tabulate. cbn [fst snd].
  now rewrite !get_tabulate by assumption.
Qed.

Lemma generate_gradient_mask_transpose_witness :
  get (snd (generate_gradient_mask cast_via_int32 400 300)) 120 17
  = get (fst (generate_gradient_mask cast_via_int32 300 400)) 17 120
  /\ get (fst (generate_gradient_mask cast_via_int32 400 300)) 120 17
     = get (snd (generate_gradient_mask cast_via_int32 300 400)) 17 120.
Proof.
  apply (generate_gradient_mask_transpose cast_via_int32 400 300 17 120); lia.
Defined.

(** X14.  For extents that are not negative the gradient never puts the
    cast to int16 out of range: every element is the integer part of its
    float64 value, and the two arrays are the same on every platform. *)
Theorem generate_gradient_mask_portable (oob oob' : Q -> Z)
  (width height : Z) :
  0 <= width -> 0 <= height ->
  generate_gradient_mask oob' width height
  = generate_gradient_mask oob width height
  /\ (forall x y v,
        get (fst (generate_gradient_mask oob width height)) y x = Some v ->
        v = trunc (gradient_ramp x width))
  /\ (forall x y v,
        get (snd (generate_gradient_mask oob width height)) y x = Some v ->
        v = trunc (gradient_ramp y height)).
Proof.
  intros Hw Hh. rewrite !generate_gradient_mask_tabulate. cbn [fst snd].
  split; [|split].
  - f_equal; apply tabulate_ext; intros y x Hy Hx;
      now rewrite !gradient_element by assumption.
  - intros x y v G. apply get_tabulate_inv in G as [[Hy Hx] ->].
    now apply gradient_element.
  - intros x y v G. apply get_tabulate_inv in G as [[Hy Hx] ->].
    now apply gradient_element.
Qed.

Lemma generate_gradient_mask_portable_witness :
  generate_gradient_mask (fun _ => 0) 400 300
  = generate_gradient_mask cast_via_int32 400 300.
Proof.
  apply (generate_gradient_mask_portable cast_via_int32 (fun _ => 0) 400 300);
    lia.
Defined.

End GradientMore.

(** ** The test image *)

Section TestImage.

Lemma test_image_tabulate (oob : Q -> Z) w h :
  test_image oob w h
  = tabulate h w (fun y x =>
      (to_u8 oob (channel_value x w),
       to_u8 oob (channel_value y h),
       to_u8 oob (channel_value (x + y) (w + h)))).
Proof.
  unfold test_image, channel_value. rewrite mgrid_tabulate.
  rewrite !mat_map2_tabulate, !mat_map_tabulate, !mat_map2_tabulate.
  reflexivity.
Qed.

Lemma of_int_255 : of_int 255 = 255%Q.
Proof. vm_compute. reflexivity. Qed.

Lemma round_255 : round 255 = 255%Q.
Proof. vm_compute. reflexivity. Qed.

Lemma channel_value_bounds n e :
  0 <= n <= e -> 0 < e ->
  (0 <= channel_value n e)%Q /\ (channel_value n e <= 255)%Q.
Proof.
  intros Hn He. unfold channel_value. rewrite of_int_255.
  pose proof (of_int_ge_1 e ltac:(lia)) as Pe.
  pose proof (of_int_nonneg n ltac:(lia)) as Pn.
  pose proof (of_int_mono n e ltac:(lia)) as Hm.
  assert (Q : (0 <= fdiv (of_int n) (of_int e))%Q
              /\ (fdiv (of_int n) (of_int e) <= 1)%Q).
  { unfold fdiv. apply round_unit.
    - apply Qle_shift_div_l; lra.
    - apply Qle_shift_div_r; lra. }
  unfold fmul. split.
  - apply round_nonneg. lra.
  - apply Qle_trans with (round 255); [apply round_mono; lra|].
    rewrite round_255. apply Qle_refl.
Qed.

Lemma channel_element (oob : Q -> Z) n e :
  0 <= n <= e -> 0 < e ->
  to_u8 oob (channel_value n e) = trunc (channel_value n e)
  /\ 0 <= trunc (channel_value n e) <= 255.
Proof.
  intros Hn He. destruct (channel_value_bounds n e Hn He) as [L U].
  assert (T : 0 <= trunc (channel_value n e) <= 255).
  { split; [now apply trunc_nonneg|].
    rewrite <- (trunc_inject 255). now apply trunc_mono. }
  split; [|exact T]. unfold to_u8.
  destruct T as [T0 T1]. apply Z.leb_le in T0, T1. now rewrite T0, T1.
Qed.

(** X15.  For positive extents the test image has shape (height, width);
    at pixel (x, y) its channels are the integer parts of
    [x / width * 255], [y / height * 255] and
    [(x + y) / (width + height) * 255], each between 0 and 255, so the
    cast to uint8 is never out of range and the image is the same on
    every platform; the pixel (0, 0) is black. *)
Theorem test_image_channels (oob oob' : Q -> Z) (width height : Z) :
  0 < width -> 0 < height ->
  has_shape (test_image oob width height) height width
  /\ test_image oob' width height = test_image oob width height
  /\ (forall x y r g b,
        get (test_image oob width height) y x = Some (r, g, b) ->
        r = trunc (channel_value x width)
        /\ g = trunc (channel_value y height)
        /\ b = trunc (channel_value (x + y) (width + height))
        /\ 0 <= r <= 255 /\ 0 <= g <= 255 /\ 0 <= b <= 255)
  /\ get (test_image oob width height) 0 0 = Some (0, 0, 0).
Proof.
  intros Hw Hh. rewrite !test_image_tabulate.
  assert (E : forall o y x, 0 <= y < height -> 0 <= x < width ->
            (to_u8 o (channel_value x width),
             to_u8 o (channel_value y height),
             to_u8 o (channel_value (x + y) (width + height)))
            = (trunc (channel_value x width),
               trunc (channel_value y height),
               trunc (channel_value (x + y) (width + height)))).
  { intros o y x Hy Hx.
    destruct (channel_element o x width ltac:(lia) Hw) as [-> _].
    destruct (channel_element o y height ltac:(lia) Hh) as [-> _].
    destruct (channel_element o (x + y) (width + height)
                ltac:(lia) ltac:(lia)) as [-> _].
    reflexivity. }
  split; [apply has_shape_tabulate; lia|].
  split; [apply tabulate_ext; intros y x Hy Hx; now rewrite !E|].
  split.
  - intros x y r g b G. apply get_tabulate_inv in G as [[Hy Hx] G].
    rewrite E in G by assumption. injection G as -> -> ->.
    repeat split; try reflexivity;
      first [ apply (channel_element oob x width); lia
            | apply (channel_element oob y height); lia
            | apply (channel_element oob (x + y) (width + height)); lia ].
  - rewrite get_tabulate by lia. rewrite E by lia.
    unfold channel_value. rewrite of_int_0.
    assert (Z0 : forall e, trunc (fmul (fdiv 0 (of_int e)) (of_int 255)) = 0).
    { intros e. unfold fdiv.
      rewrite (round_zero (0 / of_int e)) by (unfold Qdiv; ring).
      unfold fmul. rewrite (round_zero (0 * of_int 255)) by ring.
      reflexivity. }
    now rewrite !Z0.
Qed.

Lemma test_image_channels_witness :
  has_shape (test_image cast_via_int32 400 300) 300 400
  /\ test_image (fun _ => 0) 400 300 = test_image cast_via_int32 400 300
  /\ get (test_image cast_via_int32 400 300) 0 0 = Some (0, 0, 0).
Proof.
  destruct (test_image_channels cast_via_int32 (fun _ => 0) 400 300)
    as (S & E & _ & B); [lia | lia |].
  split; [exact S|]. split; [exact E | exact B].
Defined.

End TestImage.

(** ** The loop over the patterns *)

Section Loop.

Local Open Scope string_scope.

Lemma write_patterns_app p1 p2 w h dir wd :
  write_patterns (p1 ++ p2)%list w h dir wd
  = match write_patterns p1 w h dir wd with
    | Finished wd' => write_patterns p2 w h dir wd'
    | Aborted e wd' => Aborted e wd'
    end.
Proof.
  revert wd. induction p1 as [|[name [a b]] p1 IH]; intros wd;
    [reflexivity|].
  cbn [app write_patterns].
  destruct (build_sac (ravel a) (ravel b) w h) as [bs|e]; [|reflexivity].
  apply IH.
Qed.

Lemma write_patterns_finished ps w h dir : forall wd wd',
  write_patterns ps w h dir wd = Finished wd' ->
  dirs wd' = dirs wd
  /\ length (files wd') = (length ps + length (files wd))%nat
  /\ length (stdout wd') = (length ps + length (stdout wd))%nat
  /\ Forall (fun p => exists bs,
               build_sac (ravel (fst (snd p))) (ravel (snd (snd p))) w h
               = Ok bs) ps.
Proof.
  induction ps as [|[name [a b]] ps IH]; intros wd wd' H.
  - injection H as <-. repeat split; constructor.
  - cbn [write_patterns] in H.
    destruct (build_sac (ravel a) (ravel b) w h) as [bs|e] eqn:E;
      [|discriminate].
    apply IH in H as (D & F & S & A).
    cbn [dirs files stdout print write_file length] in D, F, S.
    rewrite length_app in S. cbn [length] in *.
    repeat split; try lia; try assumption.
    constructor; [|exact A]. exists bs. exact E.
Qed.

(** X16.  The loop of [main] stops at the first pattern that [build_sac]
    rejects: the run is aborted with that exception, nothing is written
    or printed for that pattern and the later ones, and the files of the
    earlier patterns, one file and one line of output each, stay as
    written. *)
Theorem write_patterns_stops_at_failure
  (done rest : list (string * (matrix Z * matrix Z))) (name : string)
  (a b : matrix Z) (width height : Z) (output_dir : string)
  (w w' : world) (e : exn) :
  write_patterns done width height output_dir w = Finished w' ->
  build_sac (ravel a) (ravel b) width height = Raise e ->
  write_patterns (done ++ (name, (a, b)) :: rest)%list width height
    output_dir w = Aborted e w'
  /\ length (files w') = (length done + length (files w))%nat
  /\ length (stdout w') = (length done + length (stdout w))%nat
  /\ dirs w' = dirs w.
Proof.
  intros Hd He. rewrite write_patterns_app, Hd.
  cbn [write_patterns]. rewrite He.
  apply write_patterns_finished in Hd as (D & F & S & _).
  auto.
Qed.

Lemma write_patterns_stops_at_failure_witness :
  exists w',
    write_patterns [("first", ([[1; 2]], [[3; 4]]));
                    ("second", ([[1; 2; 3]], [[4; 5]]));
                    ("third", ([[5; 6]], [[7; 8]]))] 2 1 "out" empty_world
    = Aborted (AssertionError "A length != width*height") w'
    /\ length (files w') = 1%nat.
Proof.
  destruct (write_patterns [("first", ([[1; 2]], [[3; 4]]))] 2 1 "out"
              empty_world) as [w'|e w'] eqn:E;
    [|vm_compute in E; discriminate].
  exists w'.
  destruct (write_patterns_stops_at_failure
              [("first", ([[1; 2]], [[3; 4]]))]
              [("third", ([[5; 6]], [[7; 8]]))] "second"
              [[1; 2; 3]] [[4; 5]] 2 1 "out" empty_world w'
              (AssertionError "A length != width*height") E eq_refl)
    as (A & F & _).
  split; [exact A | exact F].
Defined.

End Loop.

(** ** The run as a whole *)

Section MainMore.

Local Open Scope string_scope.





Lemma lookup_file_app path l1 l2 :
  lookup_file path (l1 ++ l2)%list
  = match lookup_file path l1 with
    | Some c => Some c
    | None => lookup_file path l2
    end.
Proof.
  induction l1 as [|[p c] l1 IH]; [reflexivity|].
  cbn [app lookup_file]. now destruct (String.eqb path p).
Qed.

Lemma dirs_mkdir_exist_ok d w :
  dirs (mkdir_exist_ok d w)
  = if existsb (String.eqb d) (dirs w) then dirs w else (d :: dirs w)%list.
Proof. unfold mkdir_exist_ok. now destruct (existsb _ _). Qed.

Lemma in_dirs_mkdir_exist_ok d w d' :
  In d' (dirs (mkdir_exist_ok d w)) <-> d' = d \/ In d' (dirs w).
Proof.
  rewrite dirs_mkdir_exist_ok.
  destruct (existsb (String.eqb d) (dirs w)) eqn:E.
  - split; [auto|]. intros [->|H]; [|exact H].
    apply existsb_exists in E as (x & Hx & Ex).
    apply String.eqb_eq in Ex. now subst x.
  - cbn [In]. split; intros [H|H]; auto.
Qed.

Lemma mkdir_exist_ok_again d w :
  In d (dirs w) -> dirs (mkdir_exist_ok d w) = dirs w.
Proof.
  intros H. rewrite dirs_mkdir_exist_ok.
  replace (existsb (String.eqb d) (dirs w)) with true; [reflexivity|].
  symmetry. apply existsb_exists. exists d. split; [exact H|].
  apply String.eqb_refl.
Qed.

(** The files a run adds, the latest first. *)
Lemma main_world (oob : Q -> Z) (PIL : option (matrix rgb -> bytes))
  (w0 : world) :
  exists bs_r bs_c bs_g w1 lines,
    main oob PIL w0 = Finished w1
    /\ (let p := generate_radial_mask oob 400 300 1000%Q in
        build_sac (ravel (fst p)) (ravel (snd p)) 400 300 = Ok bs_r)
    /\ (let p := generate_checkerboard_mask 400 300 50 in
        build_sac (ravel (fst p)) (ravel (snd p)) 400 300 = Ok bs_c)
    /\ (let p := generate_gradient_mask oob 400 300 in
        build_sac (ravel (fst p)) (ravel (snd p)) 400 300 = Ok bs_g)
    /\ files w1
       = (match PIL with
          | Some save_png =>
              [("test_data/test_image.png",
                save_png (test_image oob 400 300))]
          | None => []
          end
          ++ [("test_data/test_mask_gradient.sac", bs_g);
              ("test_data/test_mask_checkerboard.sac", bs_c);
              ("test_data/test_mask_radial.sac", bs_r)]
          ++ files w0)%list
    /\ dirs w1 = dirs (mkdir_exist_ok "test_data" w0)
    /\ stdout w1 = (stdout w0 ++ lines)%list.
Proof.
  destruct (main_finishes oob w0)
    as (bs_r & bs_c & bs_g & Er & Ec & Eg & _ & _ & _ & M).
  exists bs_r, bs_c, bs_g. specialize (M PIL). revert M.
  unfold save_test_image. generalize (test_image oob 400 300). intros img M.
  destruct PIL as [save_png|];
    (eexists; eexists; split; [apply M|]);
    (split; [exact Er|]); (split; [exact Ec|]); (split; [exact Eg|]);
    clear M Er Ec Eg;
    cbn [files dirs stdout print write_file];
    rewrite ?files_mkdir_exist_ok, ?stdout_mkdir_exist_ok,
      !dirs_mkdir_exist_ok;
    cbn [files dirs stdout print write_file app];
    (split; [reflexivity|]); (split; [reflexivity|]);
    rewrite <- !app_assoc; reflexivity.
Qed.

End MainMore.

Section MainRuns.

Local Open Scope string_scope.

(** X18.  [main] can be run again on what it left: the second run
    finishes too, finds the directory [test_data] in place and leaves the
    directories as they are, and every file reads the same after it as
    before it, the outputs being written once more with the same
    bytes. *)
Theorem main_rerun (oob : Q -> Z) (PIL : option (matrix rgb -> bytes))
  (w0 : world) :
  exists w1 w2,
    main oob PIL w0 = Finished w1
    /\ main oob PIL w1 = Finished w2
    /\ In "test_data" (dirs w1)
    /\ dirs w2 = dirs w1
    /\ forall path, read_file path w2 = read_file path w1.
Proof.
  destruct (main_world oob PIL w0)
    as (r & c & g & w1 & l1 & M1 & Er & Ec & Eg & F1 & D1 & _).
  destruct (main_world oob PIL w1)
    as (r' & c' & g' & w2 & l2 & M2 & Er' & Ec' & Eg' & F2 & D2 & _).
  cbv zeta in Er, Ec, Eg, Er', Ec', Eg'.
  rewrite Er in Er'. rewrite Ec in Ec'. rewrite Eg in Eg'.
  injection Er' as <-. injection Ec' as <-. injection Eg' as <-.
  clear Er Ec Eg.
  generalize dependent (test_image oob 400 300). intros img F1 F2.
  assert (I1 : In "test_data" (dirs w1))
    by (rewrite D1; apply in_dirs_mkdir_exist_ok; now left).
  exists w1, w2. split; [exact M1|]. split; [exact M2|].
  split; [exact I1|].
  split; [rewrite D2; now apply mkdir_exist_ok_again|].
  intros path. unfold read_file. rewrite F2, F1, !lookup_file_app.
  destruct (lookup_file path _); [reflexivity|].
  destruct (lookup_file path _); reflexivity.
Qed.

(** X19.  [main] touches nothing but its own outputs: it finishes, every
    path other than the three SAC files and the image reads as before the
    run, the directories are those there were and [test_data], and what
    was on the output before is still there, followed by the lines of the
    run. *)
Theorem main_frame (oob : Q -> Z) (PIL : option (matrix rgb -> bytes))
  (w0 : world) :
  exists w1,
    main oob PIL w0 = Finished w1
    /\ (forall path,
          path <> "test_data/test_mask_radial.sac" ->
          path <> "test_data/test_mask_checkerboard.sac" ->
          path <> "test_data/test_mask_gradient.sac" ->
          path <> "test_data/test_image.png" ->
          read_file path w1 = read_file path w0)
    /\ (forall d, In d (dirs w1) <-> d = "test_data" \/ In d (dirs w0))
    /\ (exists lines, stdout w1 = (stdout w0 ++ lines)%list).
Proof.
  destruct (main_world oob PIL w0)
    as (r & c & g & w1 & l1 & M1 & _ & _ & _ & F1 & D1 & S1).
  generalize dependent (test_image oob 400 300). intros img F1.
  exists w1. split; [exact M1|]. split; [|split].
  - intros path Nr Nc Ng Ni. apply String.eqb_neq in Nr, Nc, Ng, Ni.
    unfold read_file. rewrite F1.
    destruct PIL as [save_png|]; cbn [app lookup_file];
      now rewrite ?Nr, ?Nc, ?Ng, ?Ni.
  - intros d. rewrite D1. apply in_dirs_mkdir_exist_ok.
  - now exists l1.
Qed.

End MainRuns.

Section MainOutput.

Local Open Scope string_scope.

(** X20.  What a run reports: after what was on the output before,
    [main] prints the heading, one line for each SAC file in the order
    radial, checkerboard, gradient, each giving 480024 bytes and 400x300,
    then the image step (one line when the image is saved, the two lines
    of the notice when PIL is missing) and the two closing lines.  The
    size in each line is the length of the file just written. *)
Theorem main_output (oob : Q -> Z) (PIL : option (matrix rgb -> bytes))
  (w0 : world) :
  exists w1,
    main oob PIL w0 = Finished w1
    /\ stdout w1
       = (stdout w0
          ++ ["Generating test SAC files...";
              "✓ Created test_data/test_mask_radial.sac (480024 bytes, 400x300)";
              "✓ Created test_data/test_mask_checkerboard.sac (480024 bytes, 400x300)";
              "✓ Created test_data/test_mask_gradient.sac (480024 bytes, 400x300)";
              (newline ++ "Generating test image...")%string]
          ++ match PIL with
             | Some _ => ["✓ Created test_data/test_image.png (400x300)"]
             | None =>
                 ["⚠ PIL not available, skipping test image generation";
                  "  Install with: pip install Pillow"]
             end
          ++ [(newline ++ "Test files ready in ./test_data/")%string;
              "Upload test_image.png and any test_mask_*.sac to the test page!"])%list
    /\ (forall name,
          In name ["radial"; "checkerboard"; "gradient"] ->
          exists bs,
            read_file ("test_data/test_mask_" ++ name ++ ".sac") w1 = Some bs
            /\ len bs = 480024).
Proof.
  destruct (main_finishes oob w0)
    as (bs_r & bs_c & bs_g & _ & _ & _ & Lr & Lc & Lg & M).
  specialize (M PIL). revert M. unfold save_test_image.
  generalize (test_image oob 400 300). intros img M.
  eexists. split; [exact M|]. clear M. split.
  - destruct PIL as [save_png|]; cbn [stdout print write_file];
      rewrite stdout_mkdir_exist_ok; cbn [stdout print];
      rewrite <- !app_assoc; reflexivity.
  - intros name [<-|[<-|[<-|[]]]]; unfold read_file;
      destruct PIL as [save_png|]; cbn [files print write_file];
      rewrite files_mkdir_exist_ok;
      cbn [files print lookup_file String.eqb Ascii.eqb Bool.eqb
           String.append];
      eauto.
Qed.

End MainOutput.
